(** * check_intersections.py: a trajectory against submarine cables

    A shallow embedding of
    [src/data_sources/ais/db_synthetic/check_intersections.py].

    - Numbers.  The script computes on Python [float]s, which are IEEE 754
      binary64 values with round-to-nearest-even [+ - * / sqrt]: Rocq's
      primitive [float].  The geometry functions only use arithmetic and
      comparisons, and Python evaluates them on whatever numbers they are
      given, so they are written once over an interface of number
      operations and instantiated with [float] (what the script runs on),
      with [Q] (exact rationals, such as the value of a finite float) and,
      for the distance functions, with [R].
    - Input.  The decoded JSON document is an inductive value.  A number
      is its binary64 value.  (Python reads an integer literal as [int] and
      computes on it exactly; the two agree as long as the differences,
      products and sums that the script forms of integer coordinates stay
      below 2^53 in magnitude, as they do for whole degrees.)  A string is
      a list of characters, and the members of an object have distinct
      keys, as in the dict that [json.load] builds.
    - Errors.  Subscripting, iteration, [len] and hashing raise as Python
      does; raising is an explicit result.
    - Effects.  [print] appends to the standard output of an explicit
      world, [traceback.print_exc] to its standard error; the local lists
      and dicts are passed as values.  A dict is an association list in
      insertion order. *)

From Stdlib Require Import Bool String Ascii List ZArith QArith Lia Lra Psatz.
From Stdlib Require Import Floats Reals DecimalString DecimalNat.
Import ListNotations.

Set Warnings "-inexact-float,-register-all".
Open Scope string_scope.
Open Scope list_scope.

(** ** Number operations used by the geometry functions *)

(** What [cross_product], [on_segment] and [segments_intersect] ask of a
    number: [-], [*], [<], [<=], [==] and the literal [0]. *)
Class PyArith (T : Type) := {
  zero : T;
  sub : T -> T -> T;
  mul : T -> T -> T;
  ltb : T -> T -> bool;
  leb : T -> T -> bool;
  eqb : T -> T -> bool
}.

(** What [distance] and [point_to_segment_distance] ask in addition:
    [+], [/], [math.sqrt] and the literal [1]. *)
Class PyReal (T : Type) `{PyArith T} := {
  one : T;
  add : T -> T -> T;
  div : T -> T -> T;
  sqrt : T -> T
}.

#[export] Instance float_arith : PyArith float := {
  zero := 0%float;
  sub := PrimFloat.sub;
  mul := PrimFloat.mul;
  ltb := PrimFloat.ltb;
  leb := PrimFloat.leb;
  eqb := PrimFloat.eqb
}.

#[export] Instance float_real : PyReal float := {
  one := 1%float;
  add := PrimFloat.add;
  div := PrimFloat.div;
  sqrt := PrimFloat.sqrt
}.

#[export] Instance Q_arith : PyArith Q := {
  zero := 0%Q;
  sub := Qminus;
  mul := Qmult;
  ltb := fun x y => negb (Qle_bool y x);
  leb := Qle_bool;
  eqb := Qeq_bool
}.

Definition Rltb (x y : R) : bool := if Rlt_dec x y then true else false.
Definition Rleb (x y : R) : bool := if Rle_dec x y then true else false.
Definition Reqb (x y : R) : bool := if Req_dec_T x y then true else false.

#[export] Instance R_arith : PyArith R := {
  zero := 0%R;
  sub := Rminus;
  mul := Rmult;
  ltb := Rltb;
  leb := Rleb;
  eqb := Reqb
}.

#[export] Instance R_real : PyReal R := {
  one := 1%R;
  add := Rplus;
  div := Rdiv;
  sqrt := R_sqrt.sqrt
}.

(** ** Geometry *)

Definition Point (T : Type) : Type := (T * T)%type.
Definition LineSegment (T : Type) : Type := (Point T * Point T)%type.

Section Geometry.
Context {T : Type} `{PyArith T}.

(** [cross_product(o, a, b)] *)
Definition cross_product (o a b : Point T) : T :=
  sub (mul (sub (fst a) (fst o)) (sub (snd b) (snd o)))
      (mul (sub (snd a) (snd o)) (sub (fst b) (fst o))).

(** The built-ins [max(x, y)] and [min(x, y)]: the first argument is kept
    unless the second is strictly greater (smaller). *)
Definition py_max (x y : T) : T := if ltb x y then y else x.
Definition py_min (x y : T) : T := if ltb y x then y else x.

(** [on_segment(p, q, r)]; [x >= y] is [y <= x]. *)
Definition on_segment (p q r : Point T) : bool :=
  leb (fst q) (py_max (fst p) (fst r)) &&
  leb (py_min (fst p) (fst r)) (fst q) &&
  leb (snd q) (py_max (snd p) (snd r)) &&
  leb (py_min (snd p) (snd r)) (snd q).

(** [segments_intersect(seg1, seg2)] *)
Definition segments_intersect (seg1 seg2 : LineSegment T) : bool :=
  let '(a, b) := seg1 in
  let '(c, d) := seg2 in
  let o1 := cross_product a c d in
  let o2 := cross_product b c d in
  let o3 := cross_product c a b in
  let o4 := cross_product d a b in
  if ltb (mul o1 o2) zero && ltb (mul o3 o4) zero then true
  else if eqb o1 zero && on_segment c a d then true
  else if eqb o2 zero && on_segment c b d then true
  else if eqb o3 zero && on_segment a c b then true
  else if eqb o4 zero && on_segment a d b then true
  else false.

Context `{!PyReal T}.

(** [distance(p1, p2)] *)
Definition distance (p1 p2 : Point T) : T :=
  let dlon := sub (fst p2) (fst p1) in
  let dlat := sub (snd p2) (snd p1) in
  sqrt (add (mul dlon dlon) (mul dlat dlat)).

(** [point_to_segment_distance(point, segment)] *)
Definition point_to_segment_distance (point : Point T)
  (segment : LineSegment T) : T :=
  let '(p1, p2) := segment in
  let A := sub (fst point) (fst p1) in
  let B := sub (snd point) (snd p1) in
  let C := sub (fst p2) (fst p1) in
  let D := sub (snd p2) (snd p1) in
  let dot := add (mul A C) (mul B D) in
  let len_sq := add (mul C C) (mul D D) in
  if eqb len_sq zero then distance point p1
  else
    let param := div dot len_sq in
    let '(xx, yy) :=
      if ltb param zero then p1
      else if ltb one param then p2
      else (add (fst p1) (mul param C), add (snd p1) (mul param D)) in
    let dx := sub (fst point) xx in
    let dy := sub (snd point) yy in
    sqrt (add (mul dx dx) (mul dy dy)).
End Geometry.


(** ** Decoded JSON values and the Python operations applied to them *)

Inductive json : Type :=
| JNull
| JBool (b : bool)
| JNum (x : float)
| JStr (s : string)
| JArr (items : list json)
| JObj (members : list (string * json)).

Inductive subscript : Type :=
| SKey (k : string)
| SIdx (i : nat).

Inductive exn : Type :=
| FileNotFoundError
| JSONDecodeError
| KeyError (key : subscript)
| IndexError
| TypeError.

Inductive result (A : Type) : Type :=
| Ok (a : A)
| Raise (e : exn).
Arguments Ok {A} a.
Arguments Raise {A} e.

Definition bind {A B : Type} (r : result A) (k : A -> result B) : result B :=
  match r with
  | Ok a => k a
  | Raise e => Raise e
  end.

Declare Scope py_scope.
Delimit Scope py_scope with py.
Notation "x <- r ;; k" := (bind r (fun x => k))
  (at level 61, r at next level, right associativity) : py_scope.
Notation "' p <- r ;; k" := (bind r (fun p => k))
  (at level 61, p pattern, r at next level, right associativity) : py_scope.
Open Scope py_scope.

(** A [for] loop over a list whose body updates the local state [s] and may
    raise. *)
Fixpoint for_each {A S : Type} (body : A -> S -> result S) (l : list A)
  (s : S) : result S :=
  match l with
  | [] => Ok s
  | x :: l' => s' <- body x s ;; for_each body l' s'
  end.

(** [enumerate(l)] *)
Definition enumerate {A : Type} (l : list A) : list (nat * A) :=
  combine (seq 0 (List.length l)) l.

Fixpoint lookup (members : list (string * json)) (k : string) : option json :=
  match members with
  | [] => None
  | (k', v) :: rest => if String.eqb k' k then Some v else lookup rest k
  end.

Definition chars (s : string) : list json :=
  map (fun c => JStr (String c EmptyString)) (list_ascii_of_string s).

(** [v[s]]: a dict is looked up by key (an integer is never one of its
    string keys), a list and a string are indexed by position. *)
Definition getitem (v : json) (s : subscript) : result json :=
  match v, s with
  | JObj members, SKey k =>
      match lookup members k with
      | Some x => Ok x
      | None => Raise (KeyError s)
      end
  | JObj _, SIdx _ => Raise (KeyError s)
  | JArr items, SIdx i =>
      match nth_error items i with
      | Some x => Ok x
      | None => Raise IndexError
      end
  | JStr str, SIdx i =>
      match nth_error (chars str) i with
      | Some x => Ok x
      | None => Raise IndexError
      end
  | _, _ => Raise TypeError
  end.

(** [iter(v)], as a [for] loop and [enumerate] call it: the items of a
    list, the keys of a dict, the characters of a string. *)
Definition py_iter (v : json) : result (list json) :=
  match v with
  | JArr items => Ok items
  | JObj members => Ok (map (fun kv => JStr (fst kv)) members)
  | JStr s => Ok (chars s)
  | _ => Raise TypeError
  end.

(** [len(v)] *)
Definition py_len (v : json) : result nat :=
  match v with
  | JArr items => Ok (List.length items)
  | JObj members => Ok (List.length members)
  | JStr s => Ok (String.length s)
  | _ => Raise TypeError
  end.

(** The value a coordinate has in arithmetic with a [float]: a number is
    itself, [True] and [False] are 1 and 0, anything else raises. *)
Definition as_float (v : json) : result float :=
  match v with
  | JNum x => Ok x
  | JBool b => Ok (if b then 1%float else 0%float)
  | _ => Raise TypeError
  end.

(** [v != 'MultiLineString'] *)
Definition is_MultiLineString (v : json) : bool :=
  match v with
  | JStr s => String.eqb s "MultiLineString"
  | _ => false
  end.

(** [str(v)] inside an f-string.  On numbers, lists and dicts it is
    [repr(v)], which is left to the interface [PyRepr]. *)
Class PyRepr := py_repr : json -> string.

Definition py_str `{PyRepr} (v : json) : string :=
  match v with
  | JStr s => s
  | JNull => "None"
  | JBool true => "True"
  | JBool false => "False"
  | _ => py_repr v
  end.

(** [str(n)] of a non-negative [int]. *)
Definition str_of_nat (n : nat) : string :=
  NilEmpty.string_of_uint (Nat.to_uint n).

(** Whether [hash(v)] is defined: lists and dicts are unhashable. *)
Definition py_hashable (v : json) : bool :=
  match v with
  | JArr _ | JObj _ => false
  | _ => true
  end.

(** Equality of two hashable values as dict keys.  [True == 1] and
    [False == 0]; the decoder has one NaN object, which a dict finds by
    identity. *)
Definition py_key_eqb (u v : json) : bool :=
  match u, v with
  | JNull, JNull => true
  | JStr s, JStr t => String.eqb s t
  | JArr _, _ | _, JArr _ | JObj _, _ | _, JObj _ => false
  | _, _ =>
      match as_float u, as_float v with
      | Ok x, Ok y => PrimFloat.eqb x y || (is_nan x && is_nan y)
      | _, _ => false
      end
  end.

(** ** Dicts, in insertion order *)

Section Dict.
Context {K V : Type} (key_eqb : K -> K -> bool).

(** [d.get(k)] *)
Fixpoint dict_get (d : list (K * V)) (k : K) : option V :=
  match d with
  | [] => None
  | (k', v) :: d' => if key_eqb k' k then Some v else dict_get d' k
  end.

(** [d[k] = v]: an existing key keeps its place, a new one goes last. *)
Fixpoint dict_set (d : list (K * V)) (k : K) (v : V) : list (K * V) :=
  match d with
  | [] => [(k, v)]
  | (k', v') :: d' =>
      if key_eqb k' k then (k', v) :: d' else (k', v') :: dict_set d' k v
  end.

(** [list(d.values())] *)
Definition dict_values (d : list (K * V)) : list V := map snd d.
End Dict.

(** ** The script *)

(** The dicts appended to [intersections] and to [nearby_cables]. *)
Record intersection : Type := {
  cableName : json;
  cableId : json;
  segmentIndex : nat;
  trajectorySegment : nat
}.

Record nearby : Type := {
  nb_cableName : json;
  nb_cableId : json;
  minDistance : float;
  closestPoint : Point float
}.

(** The dict [check_intersections] returns. *)
Record analysis : Type := {
  intersections : list intersection;
  nearbyCables : list nearby
}.

(** One constructor per [print] call of the script. *)
Inductive line : Type :=
| LChecking
| LTrajectorySegments
| LSegment (number : nat) (seg : LineSegment float)
| LBlank
| LResults
| LFoundIntersections (count : nat)
| LCable (name id : json)
| LIntersectsWith (trajectory_segment : nat)
| LCableSegmentIndex (segment_index : nat)
| LNoIntersections
| LFoundNearby (count : nat)
| LNearbyCable (name id : json)
| LMinimumDistance (dist_km : float)
| LAnalysisComplete
| LError (error : exn)
| LTraceback (error : exn).

(** What [open] and [json.load] find at
    ['../../infrastructure/internet_cables_coordinates.json']. *)
Inductive file_state : Type :=
| Missing
| Malformed
| Document (data : json).

Record world : Type := {
  infrastructure_file : file_state;
  stdout : list line;
  stderr : list line
}.

(** Computations that read the file, print and may raise. *)
Definition IO (A : Type) : Type := world -> result A * world.

Definition io_ret {A : Type} (a : A) : IO A := fun w => (Ok a, w).

Definition io_bind {A B : Type} (m : IO A) (k : A -> IO B) : IO B :=
  fun w =>
    match m w with
    | (Ok a, w') => k a w'
    | (Raise e, w') => (Raise e, w')
    end.

(** A computation that can only return or raise. *)
Definition lift {A : Type} (r : result A) : IO A := fun w => (r, w).

Definition print (l : line) : IO unit :=
  fun w =>
    (Ok tt, {| infrastructure_file := infrastructure_file w;
               stdout := stdout w ++ [l];
               stderr := stderr w |}).

Definition print_exc (e : exn) : IO unit :=
  fun w =>
    (Ok tt, {| infrastructure_file := infrastructure_file w;
               stdout := stdout w;
               stderr := stderr w ++ [LTraceback e] |}).

Fixpoint print_all (ls : list line) : IO unit :=
  match ls with
  | [] => io_ret tt
  | l :: ls' => io_bind (print l) (fun _ => print_all ls')
  end.

(** [with open(...) as f: json.load(f)] *)
Definition load_infrastructure : IO json :=
  fun w =>
    match infrastructure_file w with
    | Missing => (Raise FileNotFoundError, w)
    | Malformed => (Raise JSONDecodeError, w)
    | Document data => (Ok data, w)
    end.

Declare Scope io_scope.
Delimit Scope io_scope with io.
Notation "x <- m ;; k" := (io_bind m (fun x => k))
  (at level 61, m at next level, right associativity) : io_scope.
Notation "' p <- m ;; k" := (io_bind m (fun p => k))
  (at level 61, p pattern, m at next level, right associativity) : io_scope.
Notation "m ;; k" := (io_bind m (fun _ => k))
  (at level 61, right associativity) : io_scope.

Definition trajectory_points : list (Point float) :=
  [ (12.0771658, 54.3374597);
    (11.9667175, 54.3310199);
    (11.8415427, 54.3353132) ]%float.

(** [(trajectory_points[0], trajectory_points[1])] and
    [(trajectory_points[1], trajectory_points[2])] *)
Definition trajectory_segments : list (LineSegment float) :=
  match trajectory_points with
  | [p0; p1; p2] => [ (p0, p1); (p1, p2) ]
  | _ => []
  end.

(** The two lists the analysis appends to. *)
Definition found : Type := (list intersection * list nearby)%type.

(** Lines 146-165: one cable segment against the trajectory. *)
Definition check_cable_segment (cable_name cable_id : json) (seg_idx : nat)
  (cable_segment : LineSegment float) (st : found) : found :=
  let intersections :=
    fold_left
      (fun intersections '(traj_idx, traj_segment) =>
         if segments_intersect traj_segment cable_segment
         then intersections ++
                [ {| cableName := cable_name;
                     cableId := cable_id;
                     segmentIndex := seg_idx;
                     trajectorySegment := traj_idx + 1 |} ]
         else intersections)
      (enumerate trajectory_segments) (fst st) in
  let nearby_cables :=
    fold_left
      (fun nearby_cables traj_point =>
         let dist := point_to_segment_distance traj_point cable_segment in
         if PrimFloat.ltb dist 0.05
         then nearby_cables ++
                [ {| nb_cableName := cable_name;
                     nb_cableId := cable_id;
                     minDistance := dist;
                     closestPoint := traj_point |} ]
         else nearby_cables)
      trajectory_points (snd st) in
  (intersections, nearby_cables).

(** [line_string[i][j]] *)
Definition coordinate (line_string : json) (i j : nat) : result json :=
  p <- getitem line_string (SIdx i) ;; getitem p (SIdx j).

(** Lines 140-143.  The tuple is built from the four subscripts, in this
    order; its components first meet a [float] in
    [cross_product(a, c, d)], where one that is not a number raises. *)
Definition cable_segment_at (line_string : json) (i : nat)
  : result (LineSegment float) :=
  c0 <- coordinate line_string i 0 ;;
  c1 <- coordinate line_string i 1 ;;
  d0 <- coordinate line_string (i + 1) 0 ;;
  d1 <- coordinate line_string (i + 1) 1 ;;
  x0 <- as_float c0 ;;
  y1 <- as_float d1 ;;
  y0 <- as_float c1 ;;
  x1 <- as_float d0 ;;
  Ok ((x0, y0), (x1, y1)).

(** Lines 139-165: the segments of one line-string. *)
Definition check_line_string (cable_name cable_id : json) (seg_idx : nat)
  (line_string : json) (st : found) : result found :=
  n <- py_len line_string ;;
  for_each
    (fun i st =>
       cable_segment <- cable_segment_at line_string i ;;
       Ok (check_cable_segment cable_name cable_id seg_idx cable_segment st))
    (seq 0 (n - 1)) st.

(** Lines 129-165: the body of the loop over the features. *)
Definition check_feature (feature : json) (st : found) : result found :=
  properties <- getitem feature (SKey "properties") ;;
  cable_name <- getitem properties (SKey "name") ;;
  properties <- getitem feature (SKey "properties") ;;
  cable_id <- getitem properties (SKey "id") ;;
  geometry <- getitem feature (SKey "geometry") ;;
  type <- getitem geometry (SKey "type") ;;
  if negb (is_MultiLineString type) then Ok st
  else
    coordinates <- getitem geometry (SKey "coordinates") ;;
    line_strings <- py_iter coordinates ;;
    for_each
      (fun '(seg_idx, line_string) st =>
         check_line_string cable_name cable_id seg_idx line_string st)
      (enumerate line_strings) st.

(** Lines 124-165: the analysis. *)
Definition analyze (infrastructure_data : json) : result found :=
  features <- getitem infrastructure_data (SKey "features") ;;
  features <- py_iter features ;;
  for_each check_feature features ([], []).

Section Report.
Context `{PyRepr}.

(** Line 174 *)
Definition intersection_key (i : intersection) : string :=
  (py_str (cableId i) ++ "-" ++ str_of_nat (segmentIndex i))%string.

(** Lines 172-176 *)
Definition unique_cables (intersections : list intersection)
  : list (string * intersection) :=
  fold_left
    (fun unique_cables intersection =>
       let key := intersection_key intersection in
       match dict_get String.eqb unique_cables key with
       | None => dict_set String.eqb unique_cables key intersection
       | Some _ => unique_cables
       end)
    intersections [].

(** Lines 189-192; [key not in unique_nearby] hashes the key. *)
Definition unique_nearby (nearby_cables : list nearby)
  : result (list (json * nearby)) :=
  for_each
    (fun cable unique_nearby =>
       let key := nb_cableId cable in
       if negb (py_hashable key) then Raise TypeError
       else
         match dict_get py_key_eqb unique_nearby key with
         | None => Ok (dict_set py_key_eqb unique_nearby key cable)
         | Some kept =>
             if PrimFloat.ltb (minDistance cable) (minDistance kept)
             then Ok (dict_set py_key_eqb unique_nearby key cable)
             else Ok unique_nearby
         end)
    nearby_cables [].

Definition intersection_lines (i : intersection) : list line :=
  [ LCable (cableName i) (cableId i);
    LIntersectsWith (trajectorySegment i);
    LCableSegmentIndex (segmentIndex i) ].

Definition nearby_lines (c : nearby) : list line :=
  [ LNearbyCable (nb_cableName c) (nb_cableId c);
    LMinimumDistance (minDistance c * 111)%float ].

Open Scope io_scope.

(** [check_intersections()] *)
Definition check_intersections : IO analysis :=
  print LChecking ;;
  infrastructure_data <- load_infrastructure ;;
  print LTrajectorySegments ;;
  print_all (map (fun '(i, seg) => LSegment (i + 1) seg)
                 (enumerate trajectory_segments)) ;;
  print LBlank ;;
  ' (intersections, nearby_cables) <- lift (analyze infrastructure_data) ;;
  print LResults ;;
  unique_cables <-
    match intersections with
    | _ :: _ =>
        print (LFoundIntersections (List.length intersections)) ;;
        let unique_cables := unique_cables intersections in
        print_all (flat_map intersection_lines
                     (dict_values unique_cables)) ;;
        io_ret unique_cables
    | [] => print LNoIntersections ;; io_ret []
    end ;;
  unique_nearby <-
    match nearby_cables with
    | _ :: _ =>
        print (LFoundNearby (List.length nearby_cables)) ;;
        unique_nearby <- lift (unique_nearby nearby_cables) ;;
        print_all (flat_map nearby_lines (dict_values unique_nearby)) ;;
        io_ret unique_nearby
    | [] => io_ret []
    end ;;
  io_ret {| intersections :=
              match intersections with
              | _ :: _ => dict_values unique_cables
              | [] => []
              end;
            nearbyCables := dict_values unique_nearby |}.

(** The [__main__] block: the exit status and the final world. *)
Definition main (w : world) : Z * world :=
  match check_intersections w with
  | (Ok _, w') => (0%Z, snd (print LAnalysisComplete w'))
  | (Raise error, w') =>
      (1%Z, snd ((print (LError error) ;; print_exc error) w'))
  end.
End Report.

(** * Notions used to state the properties *)

(** ** The order of binary64 values *)

Open Scope Z_scope.

(** Position of a spec_float that is not NaN in the order of [SFcompare]. *)
Definition SFrank (f : spec_float) : option (Z * Z * Z) :=
  match f with
  | S754_nan => None
  | S754_infinity s => Some (if s then -2 else 2, 0, 0)
  | S754_zero _ => Some (0, 0, 0)
  | S754_finite s m e =>
      Some (if s then (-1, - e, Z.neg m) else (1, e, Z.pos m))
  end.

Definition lex_compare (t u : Z * Z * Z) : comparison :=
  let '(a, b, c) := t in
  let '(a', b', c') := u in
  match a ?= a' with
  | Eq => match b ?= b' with Eq => c ?= c' | r => r end
  | r => r
  end.

Definition lex_lt (t u : Z * Z * Z) : Prop :=
  let '(a, b, c) := t in
  let '(a', b', c') := u in
  a < a' \/ (a = a' /\ (b < b' \/ (b = b' /\ c < c'))).

(** The order of binary64 values that are not NaN. *)
Definition comparable (x : float) : Prop := Prim2SF x <> S754_nan.

Definition float_lt (x y : float) : Prop :=
  exists t u,
    SFrank (Prim2SF x) = Some t /\ SFrank (Prim2SF y) = Some u /\ lex_lt t u.

Definition float_eq (x y : float) : Prop :=
  exists t, SFrank (Prim2SF x) = Some t /\ SFrank (Prim2SF y) = Some t.


Close Scope Z_scope.

(** ** The cables of a document *)

Record cable : Type := {
  cable_name : json;
  cable_id : json;
  line_strings : list (list (LineSegment float))
}.

(** The results of [f] on the elements of [l], up to the first that
    raises. *)
Fixpoint map_result {A B : Type} (f : A -> result B) (l : list A)
  : result (list B) :=
  match l with
  | [] => Ok []
  | x :: l' => y <- f x ;; ys <- map_result f l' ;; Ok (y :: ys)
  end.

(** The segments of a line-string, as lines 139-143 build them. *)
Definition decode_line_string (line_string : json)
  : result (list (LineSegment float)) :=
  n <- py_len line_string ;;
  map_result (cable_segment_at line_string) (seq 0 (n - 1)).

(** The cable of a feature: none when the geometry is of another type. *)
Definition decode_feature (feature : json) : result (list cable) :=
  properties <- getitem feature (SKey "properties") ;;
  cable_name <- getitem properties (SKey "name") ;;
  cable_id <- getitem properties (SKey "id") ;;
  geometry <- getitem feature (SKey "geometry") ;;
  type <- getitem geometry (SKey "type") ;;
  if negb (is_MultiLineString type) then Ok []
  else
    coordinates <- getitem geometry (SKey "coordinates") ;;
    line_strings <- py_iter coordinates ;;
    lines <- map_result decode_line_string line_strings ;;
    Ok [ {| cable_name := cable_name; cable_id := cable_id;
            line_strings := lines |} ].

(** The cables of a document, in the order of its features; it raises
    what the analysis raises. *)
Definition decode (infrastructure_data : json) : result (list cable) :=
  features <- getitem infrastructure_data (SKey "features") ;;
  features <- py_iter features ;;
  cables <- map_result decode_feature features ;;
  Ok (List.concat cables).

(** The records one cable segment adds to [intersections] and to
    [nearby_cables]. *)
Definition segment_intersections (name id : json) (seg_idx : nat)
  (seg : LineSegment float) : list intersection :=
  flat_map
    (fun '(traj_idx, traj_segment) =>
       if segments_intersect traj_segment seg
       then [ {| cableName := name; cableId := id; segmentIndex := seg_idx;
                 trajectorySegment := traj_idx + 1 |} ]
       else [])
    (enumerate trajectory_segments).

Definition segment_nearby (name id : json) (seg : LineSegment float)
  : list nearby :=
  flat_map
    (fun traj_point =>
       let dist := point_to_segment_distance traj_point seg in
       if PrimFloat.ltb dist 0.05
       then [ {| nb_cableName := name; nb_cableId := id; minDistance := dist;
                 closestPoint := traj_point |} ]
       else [])
    trajectory_points.

(** The records one cable adds. *)
Definition cable_intersections (c : cable) : list intersection :=
  flat_map
    (fun '(seg_idx, segs) =>
       flat_map (segment_intersections (cable_name c) (cable_id c) seg_idx)
                segs)
    (enumerate (line_strings c)).

Definition cable_nearby (c : cable) : list nearby :=
  flat_map (flat_map (segment_nearby (cable_name c) (cable_id c)))
           (line_strings c).

Definition found_append (st more : found) : found :=
  (fst st ++ fst more, snd st ++ snd more).


(** ** Dict keys *)

(** What a dict compares of a key: two hashable values are the same key
    exactly when they have the same class. *)
Inductive key_class : Type :=
| KNone
| KStr (s : string)
| KNumber (rank : option (Z * Z * Z))
| KUnhashable.

Definition class_of (v : json) : key_class :=
  match v with
  | JNull => KNone
  | JStr s => KStr s
  | JBool b => KNumber (SFrank (Prim2SF (if b then 1%float else 0%float)))
  | JNum x => KNumber (SFrank (Prim2SF x))
  | JArr _ | JObj _ => KUnhashable
  end.

Definition hashable (v : json) : Prop := py_hashable v = true.

(** [v] is the first element of [l] with its key. *)
Definition first_with {A K : Type} (key : A -> K) (l : list A) (v : A) : Prop :=
  exists before after,
    l = before ++ v :: after /\ forall y, In y before -> key y <> key v.

(** ** Effects of a run *)

(** The world after [out] was printed. *)
Definition printed (w : world) (out : list line) : world :=
  {| infrastructure_file := infrastructure_file w;
     stdout := stdout w ++ out;
     stderr := stderr w |}.

(** [m] reads nothing of the world but the file, and changes nothing but
    the standard output, to which it appends: it returns [fst (f file)]
    after printing [snd (f file)]. *)
Definition writes {A : Type} (m : IO A)
  (f : file_state -> result A * list line) : Prop :=
  forall w, m w = (fst (f (infrastructure_file w)),
                   printed w (snd (f (infrastructure_file w)))).

Definition bind_writes {A B : Type} (f : file_state -> result A * list line)
  (g : A -> file_state -> result B * list line)
  : file_state -> result B * list line :=
  fun file =>
    match f file with
    | (Ok a, out) => (fst (g a file), out ++ snd (g a file))
    | (Raise e, out) => (Raise e, out)
    end.

Section Trace.
Context `{PyRepr}.

Definition header_lines : list line :=
  [ LChecking; LTrajectorySegments ] ++
  map (fun '(i, seg) => LSegment (i + 1) seg)
      (enumerate trajectory_segments) ++
  [ LBlank ].

Definition intersections_report (raw : list intersection)
  : list intersection * list line :=
  match raw with
  | [] => ([], [LNoIntersections])
  | _ :: _ =>
      let kept := dict_values (unique_cables raw) in
      (kept,
       LFoundIntersections (List.length raw) ::
       flat_map intersection_lines kept)
  end.

Definition nearby_report (raw : list nearby)
  : result (list nearby) * list line :=
  match raw with
  | [] => (Ok [], [])
  | _ :: _ =>
      match unique_nearby raw with
      | Ok nearby_dict =>
          let kept := dict_values nearby_dict in
          (Ok kept,
           LFoundNearby (List.length raw) :: flat_map nearby_lines kept)
      | Raise e => (Raise e, [LFoundNearby (List.length raw)])
      end
  end.

(** What a run returns or raises and what it prints, from the file. *)
Definition report (file : file_state) : result analysis * list line :=
  match file with
  | Missing => (Raise FileNotFoundError, [LChecking])
  | Malformed => (Raise JSONDecodeError, [LChecking])
  | Document data =>
      match analyze data with
      | Raise e => (Raise e, header_lines)
      | Ok (raw_intersections, raw_nearby) =>
          let '(kept, lines) := intersections_report raw_intersections in
          let '(near, lines') := nearby_report raw_nearby in
          (match near with
           | Ok near =>
               Ok {| intersections := kept; nearbyCables := near |}
           | Raise e => Raise e
           end,
           header_lines ++ [LResults] ++ lines ++ lines')
      end
  end.
End Trace.

(** ** Documents used as examples *)

(** [repr] is not called on a string. *)
Definition no_repr : PyRepr := fun _ => "".

Definition point_json (p : Point float) : json := JArr [JNum (fst p); JNum (snd p)].

Definition feature_json (name id type : string)
  (lines : list (list (Point float))) : json :=
  JObj [ ("type", JStr "Feature");
         ("properties", JObj [("name", JStr name); ("id", JStr id)]);
         ("geometry",
          JObj [ ("type", JStr type);
                 ("coordinates",
                  JArr (map (fun l => JArr (map point_json l)) lines)) ]) ].

Definition document (features : list json) : json :=
  JObj [("type", JStr "FeatureCollection"); ("features", JArr features)].

Definition world_of (data : json) : world :=
  {| infrastructure_file := Document data; stdout := []; stderr := [] |}.

(** Two features of one cable: line-string 0 of the first crosses the first
    trajectory segment, its line-string 1 and line-string 0 of the second
    cross the second trajectory segment. *)
Definition two_crossings : json :=
  document
    [ feature_json "Baltic A" "cable-a" "MultiLineString"
        [ [ (12.0, 54.0); (12.0, 55.0) ];
          [ (11.9, 54.0); (11.9, 55.0) ] ]%float;
      feature_json "Harbour" "site-1" "Point" [];
      feature_json "Baltic A (east)" "cable-a" "MultiLineString"
        [ [ (11.95, 54.0); (11.95, 55.0) ] ]%float ].

Definition two_crossings_result : analysis :=
  {| intersections :=
       [ {| cableName := JStr "Baltic A"; cableId := JStr "cable-a";
            segmentIndex := 0; trajectorySegment := 1 |};
         {| cableName := JStr "Baltic A"; cableId := JStr "cable-a";
            segmentIndex := 1; trajectorySegment := 2 |} ];
     nearbyCables :=
       [ {| nb_cableName := JStr "Baltic A (east)"; nb_cableId := JStr "cable-a";
            minDistance := 0.016717500000000385;
            closestPoint := (11.9667175, 54.3310199)%float |} ] |}.

(** The key of the intersection dict, before it is formatted. *)
Definition cable_segment_pair (i : intersection) : json * nat :=
  (cableId i, segmentIndex i).

(** [seg] is a segment of a line-string of the cable [c]. *)
Definition segment_of (c : cable) (seg : LineSegment float) : Prop :=
  exists segs, In segs (line_strings c) /\ In seg segs.

(** The record appended at lines 160-165 for a trajectory point near a
    segment of [c]. *)
Definition detection (c : cable) (seg : LineSegment float)
  (traj_point : Point float) : nearby :=
  {| nb_cableName := cable_name c;
     nb_cableId := cable_id c;
     minDistance := point_to_segment_distance traj_point seg;
     closestPoint := traj_point |}.

(** Two cable ids that a dict takes for the same key: equal strings, equal
    numbers. *)
Definition same_cable (id id' : json) : Prop := class_of id = class_of id'.

(** ** Exact values *)

(** A binary64 value that is a real number: a zero or a finite value. *)
Definition real_valued (f : spec_float) : Prop :=
  match f with
  | S754_zero _ | S754_finite _ _ _ => True
  | _ => False
  end.

Definition zero_valued (f : spec_float) : Prop :=
  match f with
  | S754_zero _ => True
  | _ => False
  end.

(** The rational number a finite float stands for. *)
Definition float_to_Q (x : float) : Q :=
  match Prim2SF x with
  | S754_finite s m e => (inject_Z (cond_Zopp s (Zpos m)) * 2 ^ e)%Q
  | _ => 0%Q
  end.

Definition point_to_Q (p : Point float) : Point Q :=
  (float_to_Q (fst p), float_to_Q (snd p)).

(** ** Plane geometry over the rationals *)

(** The point of the segment from [a] to [b] at parameter [t]. *)
Definition lies_on (x : Point Q) (s : LineSegment Q) : Prop :=
  exists t : Q,
    0 <= t /\ t <= 1 /\
    fst x == fst (fst s) + t * (fst (snd s) - fst (fst s)) /\
    snd x == snd (fst s) + t * (snd (snd s) - snd (fst s)).

(** The directions of two segments are parallel. *)
Definition parallel (s1 s2 : LineSegment Q) : Prop :=
  (fst (snd s1) - fst (fst s1)) * (snd (snd s2) - snd (fst s2)) ==
  (snd (snd s1) - snd (fst s1)) * (fst (snd s2) - fst (fst s2)).

(** [x] is on the line through the end points of [s]. *)
Definition on_line_of (s : LineSegment Q) (x : Point Q) : Prop :=
  (fst (snd s) - fst (fst s)) * (snd x - snd (fst s)) ==
  (snd (snd s) - snd (fst s)) * (fst x - fst (fst s)).

(** All four end points are on one line [p + t v], [v <> 0]. *)
Definition collinear (s1 s2 : LineSegment Q) : Prop :=
  exists (p v : Point Q),
    ~ (fst v == 0 /\ snd v == 0) /\
    forall x, In x [fst s1; snd s1; fst s2; snd s2] ->
              exists t : Q, fst x == fst p + t * fst v /\
                            snd x == snd p + t * snd v.

(** The two segments have a common point. *)
Definition overlapping (s1 s2 : LineSegment Q) : Prop :=
  exists x, lies_on x s1 /\ lies_on x s2.

Definition segment_to_Q (s : LineSegment float) : LineSegment Q :=
  (point_to_Q (fst s), point_to_Q (snd s)).

(** The coordinates of [p] are finite and so are the differences of the
    coordinates of [q] and [p]. *)
Definition finite_from (p q : Point float) : bool :=
  is_finite (fst p) && is_finite (snd p) &&
  is_finite (fst q - fst p) && is_finite (snd q - snd p).

(** [y] is between [x] and [z], whichever is the larger. *)
Definition Qbetween (x y z : Q) : Prop :=
  (x <= y /\ y <= z) \/ (z <= y /\ y <= x).

(** ** Distances in the real plane *)

Open Scope R_scope.

(** The Euclidean distance of two points. *)
Definition euclidean_distance (p q : Point R) : R :=
  R_sqrt.sqrt ((fst p - fst q) * (fst p - fst q) +
               (snd p - snd q) * (snd p - snd q)).

(** The parameter of the projection of [point] on the line through the end
    points of [s]. *)
Definition projection_parameter (point : Point R) (s : LineSegment R) : R :=
  ((fst point - fst (fst s)) * (fst (snd s) - fst (fst s)) +
   (snd point - snd (fst s)) * (snd (snd s) - snd (fst s))) /
  ((fst (snd s) - fst (fst s)) * (fst (snd s) - fst (fst s)) +
   (snd (snd s) - snd (fst s)) * (snd (snd s) - snd (fst s))).

Definition clamp01 (t : R) : R := Rmax 0 (Rmin 1 t).

(** The point of the line through the end points of [s] at parameter [t]. *)
Definition point_at (s : LineSegment R) (t : R) : Point R :=
  (fst (fst s) + t * (fst (snd s) - fst (fst s)),
   snd (fst s) + t * (snd (snd s) - snd (fst s))).

Definition float_to_R (x : float) : R := Q2R (float_to_Q x).

Definition point_to_R (p : Point float) : Point R :=
  (float_to_R (fst p), float_to_R (snd p)).

Definition segment_to_R (s : LineSegment float) : LineSegment R :=
  (point_to_R (fst s), point_to_R (snd s)).

Close Scope R_scope.

(** The point of the segment that [point_to_segment_distance] measures the
    distance to: the first end point when the squared length is zero or the
    parameter is negative, the second when the parameter exceeds 1, the
    projection [(xx, yy)] otherwise. *)
Definition nearest_point (point : Point float) (segment : LineSegment float)
  : Point float :=
  let '(p1, p2) := segment in
  let A := (fst point - fst p1)%float in
  let B := (snd point - snd p1)%float in
  let C := (fst p2 - fst p1)%float in
  let D := (snd p2 - snd p1)%float in
  let dot := (A * C + B * D)%float in
  let len_sq := (C * C + D * D)%float in
  if PrimFloat.eqb len_sq 0 then p1
  else
    let param := (dot / len_sq)%float in
    if PrimFloat.ltb param 0 then p1
    else if PrimFloat.ltb 1 param then p2
    else (fst p1 + param * C, snd p1 + param * D)%float.

(** A Point feature without a name. *)
Definition unnamed_point : json :=
  JObj [ ("type", JStr "Feature");
         ("properties", JObj [("id", JStr "site-1")]);
         ("geometry",
          JObj [ ("type", JStr "Point");
                 ("coordinates", point_json (11.9, 54.3)%float) ]) ].

(** A cable that starts at the first trajectory point. *)
Definition cable_through_point : json :=
  document
    [ feature_json "Baltic B" "cable-b" "MultiLineString"
        [ [ (12.0771658, 54.3374597); (13.0, 55.0) ] ]%float ].

Definition cable_through_point_result : analysis :=
  {| intersections :=
       [ {| cableName := JStr "Baltic B"; cableId := JStr "cable-b";
            segmentIndex := 0; trajectorySegment := 1 |} ];
     nearbyCables :=
       [ {| nb_cableName := JStr "Baltic B"; nb_cableId := JStr "cable-b";
            minDistance := 0;
            closestPoint := (12.0771658, 54.3374597)%float |} ] |}.

(** A binary64 value that is not below zero: NaN, a zero, or a positive
    value. *)
Definition not_negative (f : spec_float) : Prop :=
  match f with
  | S754_infinity s | S754_finite s _ _ => s = false
  | _ => True
  end.

(** A string without the separator of the intersection keys. *)
Fixpoint no_dash (s : string) : Prop :=
  match s with
  | EmptyString => True
  | String c s' => c <> "-"%char /\ no_dash s'
  end.

(** ** Negation and ranges of binary64 values *)

Open Scope Z_scope.

(** The rank of [- x] from the rank of [x]. *)
Definition rank_opp (t : Z * Z * Z) : Z * Z * Z :=
  let '(a, b, c) := t in (- a, - b, - c).

(** [g] is [- f], up to the sign of a zero. *)
Definition SFnegated (f g : spec_float) : Prop :=
  SFrank g = option_map rank_opp (SFrank f).

(** [f] and [g] are the same number, up to the sign of a zero. *)
Definition SFsame (f g : spec_float) : Prop := SFrank f = SFrank g.

Close Scope Z_scope.

(** [x <= y <= z] or [z <= y <= x]. *)
Definition float_between (x y z : float) : bool :=
  PrimFloat.leb x y && PrimFloat.leb y z ||
  PrimFloat.leb z y && PrimFloat.leb y x.

(** A binary64 value that is a number not below zero: a zero, a positive
    finite value or plus infinity. *)
Definition nonneg_number (f : spec_float) : Prop :=
  match f with
  | S754_nan => False
  | S754_zero _ => True
  | S754_infinity s | S754_finite s _ _ => s = false
  end.

(** ** The exceptions of float arithmetic *)

(** What [/] and [math.sqrt] can raise on floats. *)
Inductive math_error : Type :=
| ZeroDivisionError
| ValueError.

(** [x / y] on floats raises ZeroDivisionError when [y == 0]. *)
Definition float_div (x y : float) : math_error + float :=
  if PrimFloat.eqb y 0 then inl ZeroDivisionError else inr (x / y)%float.

(** [math.sqrt(x)] raises ValueError when [x < 0]. *)
Definition math_sqrt (x : float) : math_error + float :=
  if PrimFloat.ltb x 0 then inl ValueError else inr (PrimFloat.sqrt x).

(** [distance(p1, p2)], with the exception of [math.sqrt]. *)
Definition distance_raising (p1 p2 : Point float) : math_error + float :=
  let dlon := (fst p2 - fst p1)%float in
  let dlat := (snd p2 - snd p1)%float in
  math_sqrt (dlon * dlon + dlat * dlat)%float.

(** [point_to_segment_distance(point, segment)], with the exceptions of
    [/] and [math.sqrt]. *)
Definition point_to_segment_distance_raising (point : Point float)
  (segment : LineSegment float) : math_error + float :=
  let '(p1, p2) := segment in
  let A := (fst point - fst p1)%float in
  let B := (snd point - snd p1)%float in
  let C := (fst p2 - fst p1)%float in
  let D := (snd p2 - snd p1)%float in
  let dot := (A * C + B * D)%float in
  let len_sq := (C * C + D * D)%float in
  if PrimFloat.eqb len_sq 0 then distance_raising point p1
  else
    match float_div dot len_sq with
    | inl e => inl e
    | inr param =>
        let '(xx, yy) :=
          if PrimFloat.ltb param 0 then p1
          else if PrimFloat.ltb 1 param then p2
          else (fst p1 + param * C, snd p1 + param * D)%float in
        let dx := (fst point - xx)%float in
        let dy := (snd point - yy)%float in
        math_sqrt (dx * dx + dy * dy)%float
    end.

(** ** Well-formed line-strings *)

(** The pairs of neighbours of a list. *)
Definition consecutive {A : Type} (l : list A) : list (A * A) :=
  combine l (tl l).

(** A position as the file has it: longitude, latitude and possibly more
    elements (an altitude). *)
Definition position_json (p : Point float * list json) : json :=
  JArr (JNum (fst (fst p)) :: JNum (snd (fst p)) :: snd p).

(** The record appended at lines 148-153 for line-string [seg_idx] of the
    cable [c] and the trajectory segment at position [traj_idx]. *)
Definition crossing (c : cable) (seg_idx traj_idx : nat) : intersection :=
  {| cableName := cable_name c;
     cableId := cable_id c;
     segmentIndex := seg_idx;
     trajectorySegment := traj_idx + 1 |}.

(** ** Further documents used as examples *)

(** A MultiLineString feature whose line-strings have fewer than two
    elements: an empty one, and one whose only element is not a position. *)
Definition short_line_strings : json :=
  JObj [ ("type", JStr "Feature");
         ("properties", JObj [("name", JStr "Stub"); ("id", JStr "stub-1")]);
         ("geometry",
          JObj [ ("type", JStr "MultiLineString");
                 ("coordinates", JArr [ JArr []; JArr [JStr "x"] ]) ]) ].

(** A cable that starts at the first trajectory point and whose id is a
    list. *)
Definition list_id_cable : json :=
  document
    [ JObj [ ("type", JStr "Feature");
             ("properties",
              JObj [("name", JStr "Baltic C"); ("id", JArr [JNum 7])]);
             ("geometry",
              JObj [ ("type", JStr "MultiLineString");
                     ("coordinates",
                      JArr [ JArr [ point_json (12.0771658, 54.3374597)%float;
                                    point_json (13.0, 55.0)%float ] ]) ]) ] ].

(** * Properties *)

(** ** Binary64 order *)

Open Scope Z_scope.

Lemma SFcompare_rank f g :
  SFcompare f g =
  match SFrank f, SFrank g with
  | Some t, Some u => Some (lex_compare t u)
  | _, _ => None
  end.
Proof.
  destruct f as [s1| s1| |s1 m1 e1], g as [s2| s2| |s2 m2 e2]; simpl;
    try reflexivity;
    try (destruct s1; reflexivity);
    try (destruct s2; reflexivity);
    try (destruct s1, s2; reflexivity).
  destruct s1, s2; simpl; try reflexivity.
  rewrite Z.compare_opp, (Z.compare_antisym e1 e2).
  destruct (e1 ?= e2); reflexivity.
Qed.

Lemma lex_compare_Lt t u : lex_compare t u = Lt <-> lex_lt t u.
Proof.
  destruct t as [[a b] c], u as [[a' b'] c']; simpl.
  destruct (Z.compare_spec a a'), (Z.compare_spec b b'), (Z.compare_spec c c');
    split; intros; try discriminate; try reflexivity; try lia.
Qed.

Lemma lex_compare_Eq t u : lex_compare t u = Eq <-> t = u.
Proof.
  destruct t as [[a b] c], u as [[a' b'] c']; simpl.
  destruct (Z.compare_spec a a'), (Z.compare_spec b b'), (Z.compare_spec c c');
    split; intros E; try discriminate; try reflexivity;
    try (inversion E; lia); subst; reflexivity.
Qed.

Lemma lex_compare_Gt t u : lex_compare t u = Gt <-> lex_lt u t.
Proof.
  destruct t as [[a b] c], u as [[a' b'] c']; simpl.
  destruct (Z.compare_spec a a'), (Z.compare_spec b b'), (Z.compare_spec c c');
    split; intros; try discriminate; try reflexivity; try lia.
Qed.

Lemma ltb_float_lt x y : PrimFloat.ltb x y = true <-> float_lt x y.
Proof.
  rewrite ltb_spec. unfold SFltb, float_lt. rewrite SFcompare_rank.
  destruct (SFrank (Prim2SF x)) as [t|], (SFrank (Prim2SF y)) as [u|].
  - destruct (lex_compare t u) eqn:E; split; intros Hx; try discriminate; try reflexivity.
    + destruct Hx as (t' & u' & Ht & Hu & L). inversion Ht; inversion Hu; subst.
      apply lex_compare_Lt in L. congruence.
    + exists t, u. repeat split. now apply lex_compare_Lt.
    + destruct Hx as (t' & u' & Ht & Hu & L). inversion Ht; inversion Hu; subst.
      apply lex_compare_Lt in L. congruence.
  - split; [discriminate|]. intros (t' & u' & _ & Hu & _). discriminate.
  - split; [discriminate|]. intros (t' & u' & Ht & _). discriminate.
  - split; [discriminate|]. intros (t' & u' & Ht & _). discriminate.
Qed.

Lemma leb_float_le x y :
  PrimFloat.leb x y = true <-> float_lt x y \/ float_eq x y.
Proof.
  rewrite leb_spec. unfold SFleb, float_lt, float_eq. rewrite SFcompare_rank.
  destruct (SFrank (Prim2SF x)) as [t|], (SFrank (Prim2SF y)) as [u|].
  - destruct (lex_compare t u) eqn:E; split; intros Hx; try discriminate; try reflexivity.
    + right. apply lex_compare_Eq in E. subst. eauto.
    + left. exists t, u. repeat split. now apply lex_compare_Lt.
    + apply lex_compare_Gt in E.
      destruct Hx as [(t' & u' & Ht & Hu & L)|(t' & Ht & Hu)];
        inversion Ht; inversion Hu; subst.
      * destruct t' as [[a b] c], u' as [[a' b'] c']; simpl in *; lia.
      * destruct t' as [[a b] c]; simpl in *; lia.
  - split; [discriminate|]. intros [(t' & u' & _ & Hu & _)|(t' & _ & Hu)]; discriminate.
  - split; [discriminate|]. intros [(t' & u' & Ht & _)|(t' & Ht & _)]; discriminate.
  - split; [discriminate|]. intros [(t' & u' & Ht & _)|(t' & Ht & _)]; discriminate.
Qed.

Lemma eqb_float_eq x y : PrimFloat.eqb x y = true <-> float_eq x y.
Proof.
  rewrite eqb_spec. unfold SFeqb, float_eq. rewrite SFcompare_rank.
  destruct (SFrank (Prim2SF x)) as [t|], (SFrank (Prim2SF y)) as [u|].
  - destruct (lex_compare t u) eqn:E; split; intros Hx; try discriminate; try reflexivity.
    + apply lex_compare_Eq in E. subst. eauto.
    + destruct Hx as (t' & Ht & Hu). assert (t = u) by congruence. subst u.
      rewrite (proj2 (lex_compare_Eq t t) eq_refl) in E. discriminate.
    + destruct Hx as (t' & Ht & Hu). assert (t = u) by congruence. subst u.
      rewrite (proj2 (lex_compare_Eq t t) eq_refl) in E. discriminate.
  - split; [discriminate|]. intros (t' & _ & Hu); discriminate.
  - split; [discriminate|]. intros (t' & Ht & _); discriminate.
  - split; [discriminate|]. intros (t' & Ht & _); discriminate.
Qed.


Lemma comparable_rank x : comparable x -> exists t, SFrank (Prim2SF x) = Some t.
Proof.
  unfold comparable. destruct (Prim2SF x); simpl; intros C; eauto. congruence.
Qed.

Ltac float_order :=
  repeat match goal with
  | H : PrimFloat.ltb _ _ = true |- _ => apply ltb_float_lt in H
  | H : PrimFloat.leb _ _ = true |- _ => apply leb_float_le in H
  | H : PrimFloat.eqb _ _ = true |- _ => apply eqb_float_eq in H
  | H : float_lt _ _ \/ float_eq _ _ |- _ => destruct H
  | H : float_lt _ _ |- _ => destruct H as (? & ? & ? & ? & ?)
  | H : float_eq _ _ |- _ => destruct H as (? & ? & ?)
  | H : comparable _ |- _ => apply comparable_rank in H; destruct H
  end.


Ltac lex_solve :=
  repeat match goal with
  | t : (Z * Z * Z)%type |- _ => destruct t as [[? ?] ?]
  | H : Some _ = Some _ |- _ => inversion H; clear H; subst
  | H1 : ?r = Some _, H2 : ?r = Some _ |- _ => rewrite H1 in H2
  end; unfold lex_lt in *; simpl in *; try lia.

Lemma ltb_leb x y : PrimFloat.ltb x y = true -> PrimFloat.leb x y = true.
Proof.
  intros L. apply leb_float_le. left. now apply ltb_float_lt.
Qed.

Lemma ltb_comparable x y :
  PrimFloat.ltb x y = true -> comparable x /\ comparable y.
Proof.
  intros L. float_order. unfold comparable.
  split; intros E; rewrite E in *; discriminate.
Qed.

Lemma leb_trans x y z :
  PrimFloat.leb x y = true -> PrimFloat.leb y z = true -> PrimFloat.leb x z = true.
Proof.
  intros L1 L2. apply leb_float_le. float_order.
  - left. eexists _, _. repeat split; eauto. lex_solve.
  - left. eexists _, _. repeat split; eauto. lex_solve.
  - left. eexists _, _. repeat split; eauto. lex_solve.
  - right. eexists. split; eauto. congruence.
Qed.

Lemma leb_total x y :
  comparable x -> comparable y -> PrimFloat.ltb x y = false ->
  PrimFloat.leb y x = true.
Proof.
  intros Cx Cy L. apply comparable_rank in Cx, Cy.
  destruct Cx as [t Ht], Cy as [u Hu]. apply leb_float_le.
  destruct (lex_compare u t) eqn:E.
  - apply lex_compare_Eq in E. subst. right. exists t. now split.
  - apply lex_compare_Lt in E. left. exists u, t. now repeat split.
  - apply lex_compare_Gt in E.
    assert (PrimFloat.ltb x y = true)
      by (apply ltb_float_lt; exists t, u; now repeat split).
    congruence.
Qed.

Lemma eqb_refl x : comparable x -> PrimFloat.eqb x x = true.
Proof.
  intros C. apply eqb_float_eq. float_order. eexists; eauto.
Qed.

Lemma eqb_sym x y : PrimFloat.eqb x y = PrimFloat.eqb y x.
Proof.
  apply eq_true_iff_eq. rewrite !eqb_float_eq. unfold float_eq.
  split; intros (t & ? & ?); eauto.
Qed.

Lemma eqb_trans x y z :
  PrimFloat.eqb x y = true -> PrimFloat.eqb y z = true -> PrimFloat.eqb x z = true.
Proof.
  intros E1 E2. apply eqb_float_eq. float_order.
  eexists; split; eauto. congruence.
Qed.

Close Scope Z_scope.

(** ** Binary64 arithmetic on zeros, infinities and NaN *)

Lemma Prim2SF_zero : Prim2SF 0%float = S754_zero false.
Proof. vm_compute. reflexivity. Qed.

Lemma Prim2SF_infinity : Prim2SF infinity = S754_infinity false.
Proof. vm_compute. reflexivity. Qed.

Lemma SFcompare_refl f : f <> S754_nan -> SFcompare f f = Some Eq.
Proof.
  destruct f as [s|s| |s m e]; simpl; intros N; try congruence.
  - destruct s; reflexivity.
  - rewrite Z.compare_refl.
    change (Pos.compare_cont Eq m m) with (Pos.compare m m).
    rewrite Pos.compare_refl. destruct s; reflexivity.
Qed.

Lemma is_finite_real x :
  PrimFloat.is_finite x = true <-> real_valued (Prim2SF x).
Proof.
  unfold PrimFloat.is_finite, is_nan, is_infinity.
  rewrite !eqb_spec, abs_spec, Prim2SF_infinity. unfold SFeqb.
  destruct (Prim2SF x) as [s|s| |s m e] eqn:E; simpl.
  - tauto.
  - split; [|tauto]. destruct s; discriminate.
  - split; [discriminate|tauto].
  - rewrite Z.compare_refl.
    change (Pos.compare_cont Eq m m) with (Pos.compare m m).
    rewrite Pos.compare_refl. destruct s; simpl; tauto.
Qed.

Lemma real_comparable x : real_valued (Prim2SF x) -> comparable x.
Proof. unfold comparable. destruct (Prim2SF x); simpl; congruence. Qed.

Lemma SFsub_self f :
  SF64sub f f = S754_zero false \/ SF64sub f f = S754_nan.
Proof.
  destruct f as [s|s| |s m e]; simpl.
  - left. destruct s; reflexivity.
  - right. destruct s; reflexivity.
  - now right.
  - left. unfold SF64sub, SFsub. rewrite Z.sub_diag. reflexivity.
Qed.

Lemma SFsub_self_real f : real_valued f -> SF64sub f f = S754_zero false.
Proof.
  destruct f as [s|s| |s m e]; simpl; try tauto; intros _.
  - destruct s; reflexivity.
  - unfold SF64sub, SFsub. rewrite Z.sub_diag. reflexivity.
Qed.

Lemma sub_self x :
  real_valued (Prim2SF x) -> Prim2SF (x - x)%float = S754_zero false.
Proof. intros R. rewrite sub_spec. now apply SFsub_self_real. Qed.

Lemma SFmul_zero_l f g :
  zero_valued f -> real_valued g -> zero_valued (SF64mul f g).
Proof.
  destruct f; simpl; try tauto. destruct g; simpl; tauto.
Qed.

Lemma SFmul_zero_r f g :
  real_valued f -> zero_valued g -> zero_valued (SF64mul f g).
Proof.
  destruct g; simpl; try tauto. destruct f; simpl; tauto.
Qed.

Lemma SFsub_zero f g :
  zero_valued f -> zero_valued g -> zero_valued (SF64sub f g).
Proof.
  destruct f as [s| | |]; simpl; try tauto.
  destruct g as [s'| | |]; simpl; try tauto.
  destruct s, s'; simpl; tauto.
Qed.

Lemma SFadd_zero f g :
  zero_valued f -> zero_valued g -> zero_valued (SF64add f g).
Proof.
  destruct f as [s| | |]; simpl; try tauto.
  destruct g as [s'| | |]; simpl; try tauto.
  destruct s, s'; simpl; tauto.
Qed.

Lemma SFsqrt_zero f : zero_valued f -> zero_valued (SF64sqrt f).
Proof. destruct f; simpl; tauto. Qed.

Lemma zero_eqb x : zero_valued (Prim2SF x) -> PrimFloat.eqb x 0 = true.
Proof.
  rewrite eqb_spec, Prim2SF_zero. destruct (Prim2SF x); simpl; tauto.
Qed.

Lemma zero_real f : zero_valued f -> real_valued f.
Proof. destruct f; simpl; tauto. Qed.

Lemma SFsub_real_l f g : real_valued (SF64sub f g) -> real_valued f.
Proof.
  destruct f as [s|s| |s m e], g as [s'|s'| |s' m' e']; simpl; try tauto;
    destruct s, s'; simpl; tauto.
Qed.

Lemma SFsub_real_r f g : real_valued (SF64sub f g) -> real_valued g.
Proof.
  destruct f as [s|s| |s m e], g as [s'|s'| |s' m' e']; simpl; try tauto;
    destruct s, s'; simpl; tauto.
Qed.

(** *** The argument of [math.sqrt] *)

Lemma binary_round_aux_not_negative mx ex lx :
  not_negative (binary_round_aux prec emax false mx ex lx).
Proof.
  unfold binary_round_aux.
  destruct (shr_fexp prec emax mx ex lx) as [mrs' e'].
  destruct (shr_fexp prec emax _ e' loc_Exact) as [mrs'' e''].
  destruct (shr_m mrs''); simpl; auto.
  match goal with
  | |- context [if ?c then _ else _] => destruct c
  end; reflexivity.
Qed.

Lemma SFmul_self_not_negative f : not_negative (SF64mul f f).
Proof.
  destruct f as [s|s| |s m e]; simpl; auto.
  - now destruct s.
  - unfold SF64mul, SFmul. replace (xorb s s) with false by now destruct s.
    apply binary_round_aux_not_negative.
Qed.

Lemma SFadd_not_negative f g :
  not_negative f -> not_negative g -> not_negative (SF64add f g).
Proof.
  destruct f as [s|s| |s m e], g as [s'|s'| |s' m' e']; simpl; auto;
    try (intros -> ->; simpl; auto); try (destruct s, s'; simpl; auto; fail);
    try (intros _ ->; simpl; auto); try (intros -> _; simpl; auto).
  unfold SF64add, SFadd. simpl.
  unfold binary_round.
  destruct (shl_align _ _ _) as [mz ez].
  apply binary_round_aux_not_negative.
Qed.

Lemma not_negative_ltb x :
  not_negative (Prim2SF x) -> PrimFloat.ltb x 0 = false.
Proof.
  rewrite ltb_spec, Prim2SF_zero.
  destruct (Prim2SF x) as [s|s| |s m e]; simpl; try reflexivity;
    intros ->; reflexivity.
Qed.

(** [math.sqrt] raises ValueError below zero.  Both calls of the script
    pass a sum of two squares, which is never below zero in binary64 (it
    can be NaN, of which the square root is NaN): the square root is taken
    as a total function. *)
Lemma sqrt_argument_not_negative (x y : float) :
  PrimFloat.ltb (x * x + y * y)%float 0 = false.
Proof.
  apply not_negative_ltb. rewrite add_spec, !mul_spec.
  apply SFadd_not_negative; apply SFmul_self_not_negative.
Qed.

(** ** The analysis as list comprehensions *)

Lemma for_each_map_result {A B S} (f : A -> result B) (g : B -> S -> S)
  (l : list A) (s : S) :
  for_each (fun x s => y <- f x ;; Ok (g y s)) l s =
  (ys <- map_result f l ;; Ok (fold_left (fun s y => g y s) ys s)).
Proof.
  revert s. induction l as [|x l IH]; intros s; simpl; [reflexivity|].
  destruct (f x) as [y|e]; simpl; [|reflexivity].
  rewrite IH. destruct (map_result f l); reflexivity.
Qed.

Lemma check_cable_segment_appends name id idx seg st :
  check_cable_segment name id idx seg st =
  found_append st (segment_intersections name id idx seg,
                   segment_nearby name id seg).
Proof.
  destruct st as [ri rn].
  unfold check_cable_segment, found_append, segment_intersections,
    segment_nearby, trajectory_segments, trajectory_points, enumerate.
  cbn [fst snd fold_left flat_map combine seq List.length].
  f_equal.
  - repeat match goal with
      |- context [if ?c then _ else _] => destruct c
    end; rewrite <- ?app_assoc, ?app_nil_r; reflexivity.
  - repeat match goal with
      |- context [if ?c then _ else _] => destruct c
    end; rewrite <- ?app_assoc, ?app_nil_r; reflexivity.
Qed.

Lemma for_each_ext {A S} (body body' : A -> S -> result S) (l : list A) :
  (forall x s, body x s = body' x s) ->
  forall s, for_each body l s = for_each body' l s.
Proof.
  intros E. induction l as [|x l IH]; intros s; simpl; [reflexivity|].
  rewrite E. destruct (body' x s); simpl; auto.
Qed.

Lemma found_append_assoc (a b c : found) :
  found_append (found_append a b) c = found_append a (found_append b c).
Proof.
  unfold found_append; simpl. now rewrite <- !app_assoc.
Qed.

Lemma found_append_nil (a : found) : found_append a ([], []) = a.
Proof.
  destruct a; unfold found_append; simpl. now rewrite !app_nil_r.
Qed.

Lemma fold_left_found_append {B} (c : B -> found) (ys : list B) (st : found) :
  fold_left (fun s y => found_append s (c y)) ys st =
  found_append st (flat_map (fun y => fst (c y)) ys,
                   flat_map (fun y => snd (c y)) ys).
Proof.
  revert st. induction ys as [|y ys IH]; intros st; simpl.
  - now rewrite found_append_nil.
  - rewrite IH, found_append_assoc. reflexivity.
Qed.

Lemma fold_check_cable_segment name id idx segs st :
  fold_left (fun s y => check_cable_segment name id idx y s) segs st =
  found_append st (flat_map (segment_intersections name id idx) segs,
                   flat_map (segment_nearby name id) segs).
Proof.
  revert st. induction segs as [|y ys IH]; intros st; simpl.
  - now rewrite found_append_nil.
  - rewrite IH, check_cable_segment_appends, found_append_assoc. reflexivity.
Qed.

Lemma check_line_string_decode name id idx ls st :
  check_line_string name id idx ls st =
  (segs <- decode_line_string ls ;;
   Ok (found_append st
         (flat_map (segment_intersections name id idx) segs,
          flat_map (segment_nearby name id) segs))).
Proof.
  unfold check_line_string, decode_line_string.
  destruct (py_len ls) as [n|e]; simpl; [|reflexivity].
  rewrite for_each_map_result.
  destruct (map_result (cable_segment_at ls) (seq 0 (n - 1))) as [segs|e];
    simpl; [|reflexivity].
  now rewrite fold_check_cable_segment.
Qed.

Lemma map_result_enumerate {A B} (f : A -> result B) (l : list A) (k : nat) :
  map_result (fun x => y <- f (snd x) ;; Ok (fst x, y))
             (combine (seq k (length l)) l) =
  (ys <- map_result f l ;; Ok (combine (seq k (length ys)) ys)).
Proof.
  revert k. induction l as [|x l IH]; intros k; simpl; [reflexivity|].
  destruct (f x) as [y|e]; simpl; [|reflexivity].
  rewrite IH. destruct (map_result f l); reflexivity.
Qed.

Lemma fold_line_strings name id (ys : list (nat * list (LineSegment float))) st :
  fold_left
    (fun s y => found_append s
       (flat_map (segment_intersections name id (fst y)) (snd y),
        flat_map (segment_nearby name id) (snd y))) ys st =
  found_append st
    (flat_map (fun '(seg_idx, segs) =>
                 flat_map (segment_intersections name id seg_idx) segs) ys,
     flat_map (flat_map (segment_nearby name id)) (map snd ys)).
Proof.
  rewrite (fold_left_found_append
             (fun y => (flat_map (segment_intersections name id (fst y)) (snd y),
                        flat_map (segment_nearby name id) (snd y)))).
  simpl. f_equal. f_equal.
  - apply flat_map_ext. now intros [i segs].
  - induction ys as [|y ys IH]; simpl; [reflexivity|]. now rewrite IH.
Qed.

Lemma map_snd_combine_seq {A} (l : list A) k :
  map snd (combine (seq k (length l)) l) = l.
Proof.
  revert k. induction l; intros k; simpl; [reflexivity|]. now rewrite IHl.
Qed.

Lemma check_feature_decode feature st :
  check_feature feature st =
  (cables <- decode_feature feature ;;
   Ok (found_append st (flat_map cable_intersections cables,
                        flat_map cable_nearby cables))).
Proof.
  unfold check_feature, decode_feature.
  destruct (getitem feature (SKey "properties")) as [properties|e]; simpl;
    [|reflexivity].
  destruct (getitem properties (SKey "name")) as [name|e]; simpl;
    [|reflexivity].
  destruct (getitem properties (SKey "id")) as [id|e]; simpl; [|reflexivity].
  destruct (getitem feature (SKey "geometry")) as [geometry|e]; simpl;
    [|reflexivity].
  destruct (getitem geometry (SKey "type")) as [type|e]; simpl;
    [|reflexivity].
  destruct (is_MultiLineString type); simpl.
  2:{ now rewrite found_append_nil. }
  destruct (getitem geometry (SKey "coordinates")) as [coordinates|e]; simpl;
    [|reflexivity].
  destruct (py_iter coordinates) as [lss|e]; simpl; [|reflexivity].
  rewrite (for_each_ext _
    (fun x s => y <- (segs <- decode_line_string (snd x) ;; Ok (fst x, segs)) ;;
                Ok (found_append s
                      (flat_map (segment_intersections name id (fst y)) (snd y),
                       flat_map (segment_nearby name id) (snd y))))).
  2:{ intros [idx ls] s. rewrite check_line_string_decode. simpl.
      destruct (decode_line_string ls); reflexivity. }
  rewrite for_each_map_result. unfold enumerate.
  rewrite map_result_enumerate.
  destruct (map_result decode_line_string lss) as [lines|e]; simpl;
    [|reflexivity].
  rewrite fold_line_strings, map_snd_combine_seq.
  unfold cable_intersections, cable_nearby, enumerate; simpl.
  now rewrite !app_nil_r.
Qed.

Lemma fold_cables (ys : list (list cable)) st :
  fold_left
    (fun s y => found_append s (flat_map cable_intersections y,
                                flat_map cable_nearby y)) ys st =
  found_append st (flat_map cable_intersections (List.concat ys),
                   flat_map cable_nearby (List.concat ys)).
Proof.
  rewrite (fold_left_found_append
             (fun y => (flat_map cable_intersections y,
                        flat_map cable_nearby y))).
  simpl. f_equal. f_equal.
  - induction ys as [|y ys IH]; simpl; [reflexivity|].
    now rewrite flat_map_app, IH.
  - induction ys as [|y ys IH]; simpl; [reflexivity|].
    now rewrite flat_map_app, IH.
Qed.

(** The analysis, as list comprehensions over the cables of the document. *)
Theorem analyze_decode data :
  analyze data =
  (cables <- decode data ;;
   Ok (flat_map cable_intersections cables, flat_map cable_nearby cables)).
Proof.
  unfold analyze, decode.
  destruct (getitem data (SKey "features")) as [features|e]; simpl;
    [|reflexivity].
  destruct (py_iter features) as [fs|e]; simpl; [|reflexivity].
  rewrite (for_each_ext _
    (fun x s => y <- decode_feature x ;;
                Ok (found_append s (flat_map cable_intersections y,
                                    flat_map cable_nearby y)))).
  2:{ intros x s. apply check_feature_decode. }
  rewrite for_each_map_result.
  destruct (map_result decode_feature fs) as [cs|e]; simpl; [|reflexivity].
  now rewrite fold_cables.
Qed.

(** ** Dicts *)

Lemma for_each_app {A S} (body : A -> S -> result S) (l1 l2 : list A) s :
  for_each body (l1 ++ l2) s = (s' <- for_each body l1 s ;; for_each body l2 s').
Proof.
  revert s. induction l1 as [|x l1 IH]; intros s; simpl; [reflexivity|].
  destruct (body x s); simpl; auto.
Qed.

Lemma dict_set_absent {K V} (key_eqb : K -> K -> bool) (d : list (K * V)) k v :
  dict_get key_eqb d k = None -> dict_set key_eqb d k v = d ++ [(k, v)].
Proof.
  induction d as [|[k' v'] d IH]; simpl; intros G; [reflexivity|].
  destruct (key_eqb k' k) eqn:E; [discriminate|].
  now rewrite IH.
Qed.

Section DictFacts.
Context {K V C : Type} (key_eqb : K -> K -> bool) (cls : K -> C)
        (valid : K -> Prop).
Hypothesis key_eqb_cls :
  forall k k', valid k -> valid k' ->
               (key_eqb k k' = true <-> cls k = cls k').

Lemma dict_get_None (d : list (K * V)) k :
  Forall valid (map fst d) -> valid k ->
  dict_get key_eqb d k = None -> ~ In (cls k) (map cls (map fst d)).
Proof.
  induction d as [|[k' v'] d IH]; simpl; intros Hv Hk G; [tauto|].
  inversion Hv; subst.
  destruct (key_eqb k' k) eqn:E; [discriminate|].
  intros [Hc|Hc].
  - apply key_eqb_cls in Hc; auto. congruence.
  - now apply IH.
Qed.

Lemma dict_get_Some (d : list (K * V)) k v :
  Forall valid (map fst d) -> valid k ->
  dict_get key_eqb d k = Some v ->
  exists d1 k' d2, d = d1 ++ (k', v) :: d2 /\ cls k' = cls k /\
                   dict_set key_eqb d k = fun v' => d1 ++ (k', v') :: d2.
Proof.
  induction d as [|[k' v'] d IH]; simpl; intros Hv Hk G; [discriminate|].
  inversion Hv; subst.
  destruct (key_eqb k' k) eqn:E.
  - inversion G; subst. exists [], k', d. repeat split.
    now apply key_eqb_cls.
  - destruct (IH H2 Hk G) as (d1 & k1 & d2 & -> & Hc & Hs).
    exists ((k', v') :: d1), k1, d2. repeat split; auto.
    rewrite Hs. reflexivity.
Qed.

End DictFacts.

Lemma string_eqb_cls (k k' : string) :
  True -> True -> (String.eqb k k' = true <-> k = k').
Proof. intros _ _. apply String.eqb_eq. Qed.

Lemma Forall_True {A} (l : list A) : Forall (fun _ => True) l.
Proof. induction l; constructor; auto. Qed.

Lemma sdict_get_None {V} (d : list (string * V)) k :
  dict_get String.eqb d k = None -> ~ In k (map fst d).
Proof.
  intros G.
  apply (dict_get_None String.eqb (fun k => k) (fun _ => True) string_eqb_cls)
    in G; auto using Forall_True.
  now rewrite map_id in G.
Qed.

Lemma sdict_get_Some {V} (d : list (string * V)) k v :
  dict_get String.eqb d k = Some v -> In (k, v) d.
Proof.
  intros G.
  apply (dict_get_Some String.eqb (fun k => k) (fun _ => True) string_eqb_cls)
    in G; auto using Forall_True.
  destruct G as (d1 & k' & d2 & -> & -> & _).
  apply in_or_app. right. now left.
Qed.

Lemma sdict_set_absent {V} (d : list (string * V)) k v :
  dict_get String.eqb d k = None ->
  dict_set String.eqb d k v = d ++ [(k, v)].
Proof.
  apply dict_set_absent.
Qed.

Section UniqueIntersections.
Context `{PyRepr}.

Lemma unique_cables_snoc l x :
  unique_cables (l ++ [x]) =
  match dict_get String.eqb (unique_cables l) (intersection_key x) with
  | None => unique_cables l ++ [(intersection_key x, x)]
  | Some _ => unique_cables l
  end.
Proof.
  unfold unique_cables. rewrite fold_left_app. simpl.
  match goal with |- context [dict_get _ ?d ?k] =>
    destruct (dict_get String.eqb d k) eqn:G; [reflexivity|]
  end.
  now apply sdict_set_absent.
Qed.

(** The dict of lines 172-176: one entry per key, holding the first
    intersection that has this key. *)
Lemma unique_cables_spec l :
  let d := unique_cables l in
  NoDup (map fst d) /\
  (forall k v, In (k, v) d ->
               k = intersection_key v /\ first_with intersection_key l v) /\
  (forall x, In x l -> In (intersection_key x) (map fst d)).
Proof.
  induction l as [|x l IH] using rev_ind.
  - simpl. repeat split; try constructor; simpl; tauto.
  - cbv zeta in *. rewrite unique_cables_snoc.
    destruct IH as (ND & Hin & Hall).
    destruct (dict_get String.eqb (unique_cables l)
                (intersection_key x)) eqn:G.
    + repeat split; auto.
      * now apply Hin.
      * destruct (Hin k v H0) as (_ & before & after & -> & Hb).
        exists before, (after ++ [x]). split; auto.
        now rewrite <- app_assoc.
      * intros y Hy. apply in_app_or in Hy. destruct Hy as [Hy|[<-|[]]]; auto.
        apply sdict_get_Some in G.
        apply (in_map fst) in G. exact G.
    + apply sdict_get_None in G.
      repeat split.
      * rewrite map_app. simpl. apply NoDup_app; auto.
        -- constructor; [tauto|constructor].
        -- intros k Hk [<-|[]]. tauto.
      * apply in_app_or in H0. destruct H0 as [Hi|[Hi|[]]].
        -- now apply Hin.
        -- now inversion Hi.
      * apply in_app_or in H0. destruct H0 as [Hi|[Hi|[]]].
        -- destruct (Hin k v Hi) as (_ & before & after & -> & Hb).
           exists before, (after ++ [x]). split; auto.
           now rewrite <- app_assoc.
        -- inversion Hi; subst. exists l, []. split; auto.
           intros y Hy E. apply G. rewrite <- E. now apply Hall.
      * intros y Hy. rewrite map_app. apply in_or_app.
        apply in_app_or in Hy. destruct Hy as [Hy|[<-|[]]]; auto.
        right. now left.
Qed.
End UniqueIntersections.

Lemma is_nan_rank x : is_nan x = true <-> SFrank (Prim2SF x) = None.
Proof.
  unfold is_nan. rewrite negb_true_iff.
  destruct (PrimFloat.eqb x x) eqn:E.
  - apply eqb_float_eq in E. destruct E as (t & Ht & _).
    split; [discriminate|congruence].
  - split; [intros _|reflexivity].
    destruct (SFrank (Prim2SF x)) as [t|] eqn:R; [|reflexivity].
    assert (PrimFloat.eqb x x = true) by (apply eqb_float_eq; exists t; auto).
    congruence.
Qed.

Lemma number_key_eqb x y :
  PrimFloat.eqb x y || (is_nan x && is_nan y) = true <->
  SFrank (Prim2SF x) = SFrank (Prim2SF y).
Proof.
  rewrite orb_true_iff, andb_true_iff, eqb_float_eq, !is_nan_rank.
  unfold float_eq. split.
  - intros [(t & -> & ->)|[-> ->]]; reflexivity.
  - intros E. destruct (SFrank (Prim2SF x)) as [t|].
    + left. exists t. auto.
    + right. auto.
Qed.

Lemma py_key_eqb_class u v :
  py_hashable u = true -> py_hashable v = true ->
  (py_key_eqb u v = true <-> class_of u = class_of v).
Proof.
  destruct u as [|b|x|s|l|m], v as [|b'|x'|s'|l'|m']; simpl;
    intros Hu Hv; try discriminate;
    try (split; [reflexivity|reflexivity]);
    try (split; discriminate).
  - rewrite number_key_eqb. split; [intros ->; reflexivity|congruence].
  - rewrite number_key_eqb. split; [intros ->; reflexivity|congruence].
  - rewrite number_key_eqb. split; [intros ->; reflexivity|congruence].
  - rewrite number_key_eqb. split; [intros ->; reflexivity|congruence].
  - rewrite String.eqb_eq. split; congruence.
Qed.

Lemma jdict_get_None {V} (d : list (json * V)) k :
  Forall hashable (map fst d) -> hashable k ->
  dict_get py_key_eqb d k = None ->
  ~ In (class_of k) (map class_of (map fst d)).
Proof.
  apply (dict_get_None py_key_eqb class_of hashable py_key_eqb_class).
Qed.

Lemma jdict_get_Some {V} (d : list (json * V)) k v :
  Forall hashable (map fst d) -> hashable k ->
  dict_get py_key_eqb d k = Some v ->
  exists d1 k' d2, d = d1 ++ (k', v) :: d2 /\ class_of k' = class_of k /\
                   dict_set py_key_eqb d k = fun v' => d1 ++ (k', v') :: d2.
Proof.
  apply (dict_get_Some py_key_eqb class_of hashable py_key_eqb_class).
Qed.

Lemma NoDup_class_unique {V} (d : list (json * V)) k v k' v' :
  NoDup (map class_of (map fst d)) ->
  In (k, v) d -> In (k', v') d -> class_of k = class_of k' -> v = v'.
Proof.
  induction d as [|[k1 v1] d IHd]; simpl; [tauto|].
  rewrite NoDup_cons_iff. intros [Hn ND] [E1|I1] [E2|I2] Hc.
  - congruence.
  - inversion E1; subst. exfalso. apply Hn. rewrite Hc.
    apply in_map. apply (in_map fst) in I2. exact I2.
  - inversion E2; subst. exfalso. apply Hn. rewrite <- Hc.
    apply in_map. apply (in_map fst) in I1. exact I1.
  - now apply IHd.
Qed.

Lemma unique_nearby_snoc l x :
  unique_nearby (l ++ [x]) =
  (d <- unique_nearby l ;;
   if negb (py_hashable (nb_cableId x)) then Raise TypeError
   else match dict_get py_key_eqb d (nb_cableId x) with
        | None => Ok (d ++ [(nb_cableId x, x)])
        | Some kept =>
            if PrimFloat.ltb (minDistance x) (minDistance kept)
            then Ok (dict_set py_key_eqb d (nb_cableId x) x)
            else Ok d
        end).
Proof.
  unfold unique_nearby. rewrite for_each_app.
  destruct (for_each _ l []) as [d|e]; simpl; [|reflexivity].
  destruct (negb (py_hashable (nb_cableId x))); simpl; [reflexivity|].
  destruct (dict_get py_key_eqb d (nb_cableId x)) eqn:G.
  - destruct (PrimFloat.ltb (minDistance x) (minDistance n)); reflexivity.
  - simpl. now rewrite dict_set_absent.
Qed.

(** The dict of lines 186-192: one entry per key, holding a detection of
    this key whose distance is least. *)
Lemma unique_nearby_spec l :
  (forall y, In y l -> comparable (minDistance y)) ->
  forall d, unique_nearby l = Ok d ->
  Forall hashable (map fst d) /\
  NoDup (map class_of (map fst d)) /\
  (forall k v, In (k, v) d ->
     In v l /\ class_of k = class_of (nb_cableId v) /\
     forall y, In y l -> class_of (nb_cableId y) = class_of (nb_cableId v) ->
               PrimFloat.leb (minDistance v) (minDistance y) = true) /\
  (forall y, In y l -> In (class_of (nb_cableId y)) (map class_of (map fst d))).
Proof.
  induction l as [|x l IH] using rev_ind; intros Hc d Hd.
  - inversion Hd; subst. simpl. repeat split; try constructor; simpl; tauto.
  - rewrite unique_nearby_snoc in Hd.
    destruct (unique_nearby l) as [d0|e] eqn:E0; simpl in Hd;
      [|discriminate].
    assert (Hc0 : forall y, In y l -> comparable (minDistance y))
      by (intros y Hy; apply Hc, in_or_app; now left).
    assert (Cx : comparable (minDistance x))
      by (apply Hc, in_or_app; right; now left).
    destruct (IH Hc0 d0 eq_refl) as (Hh & ND & Hin & Hall). clear IH.
    destruct (py_hashable (nb_cableId x)) eqn:Hx; simpl in Hd; [|discriminate].
    destruct (dict_get py_key_eqb d0 (nb_cableId x)) as [kept|] eqn:G.
    + destruct (jdict_get_Some d0 _ _ Hh Hx G) as (d1 & k' & d2 & -> & Hk & Hs).
      assert (Hkept : In (k', kept) (d1 ++ (k', kept) :: d2))
        by (apply in_or_app; right; now left).
      destruct (Hin _ _ Hkept) as (Kl & Kc & Kmin).
      destruct (PrimFloat.ltb (minDistance x) (minDistance kept)) eqn:L;
        inversion Hd; subst; clear Hd.
      * rewrite Hs. rewrite !map_app in *. simpl in *.
        repeat split; auto.
        -- apply in_app_or in H. destruct H as [Hi|[Hi|Hi]].
           ++ apply in_or_app. left. apply (Hin k v). apply in_or_app. now left.
           ++ inversion Hi; subst. apply in_or_app. right. now left.
           ++ apply in_or_app. left. apply (Hin k v). apply in_or_app.
              right. now right.
        -- apply in_app_or in H. destruct H as [Hi|[Hi|Hi]].
           ++ apply (Hin k v). apply in_or_app. now left.
           ++ inversion Hi; subst. exact Hk.
           ++ apply (Hin k v). apply in_or_app. right. now right.
        -- intros y Hy Hcy.
           assert (Hother : forall k v, In (k, v) (d1 ++ (k', kept) :: d2) ->
                     class_of k <> class_of k' ->
                     class_of (nb_cableId y) = class_of (nb_cableId v) ->
                     PrimFloat.leb (minDistance v) (minDistance y) = true).
           { intros k0 v0 Hi0 Hne Hcy0.
             destruct (Hin _ _ Hi0) as (_ & Hc1 & Hm).
             apply in_app_or in Hy. destruct Hy as [Hy|[<-|[]]].
             - now apply Hm.
             - exfalso. apply Hne. congruence. }
           apply in_app_or in H. destruct H as [Hi|[Hi|Hi]].
           ++ apply (Hother k v); [apply in_or_app; now left| |exact Hcy].
              intros Ek. apply NoDup_remove_2 in ND. apply ND.
              apply in_or_app. left. rewrite <- Ek.
              apply in_map. apply (in_map fst) in Hi. exact Hi.
           ++ inversion Hi; subst.
              apply in_app_or in Hy. destruct Hy as [Hy|[<-|[]]].
              ** apply leb_trans with (minDistance kept).
                 --- now apply ltb_leb.
                 --- apply Kmin; auto. congruence.
              ** apply leb_float_le. right.
                 apply comparable_rank in Cx. destruct Cx as [t Ht].
                 exists t. auto.
           ++ apply (Hother k v); [apply in_or_app; right; now right| |exact Hcy].
              intros Ek. apply NoDup_remove_2 in ND. apply ND.
              apply in_or_app. right. rewrite <- Ek.
              apply in_map. apply (in_map fst) in Hi. exact Hi.
        -- intros y Hy. apply in_app_or in Hy. destruct Hy as [Hy|[<-|[]]].
           ++ apply Hall in Hy. rewrite ?map_app in Hy. exact Hy.
           ++ apply in_or_app. right. left. exact Hk.
      * repeat split; auto.
        -- apply in_or_app. left. now apply (Hin k v).
        -- now apply (Hin k v).
        -- intros y Hy Hcy. destruct (Hin _ _ H) as (Vl & Vc & Vmin).
           apply in_app_or in Hy. destruct Hy as [Hy|[<-|[]]]; auto.
           assert (class_of k = class_of k') by congruence.
           assert (v = kept)
             by (eapply NoDup_class_unique; eauto).
           subst v. apply leb_total; auto.
        -- intros y Hy. apply in_app_or in Hy. destruct Hy as [Hy|[<-|[]]]; auto.
           rewrite !map_app. apply in_or_app. right. left. exact Hk.
    + inversion Hd; subst; clear Hd.
      pose proof (jdict_get_None d0 _ Hh Hx G) as Hn.
      rewrite !map_app. simpl.
      repeat split.
      * apply Forall_app. split; auto.
      * apply NoDup_app; auto.
        -- constructor; [tauto|constructor].
        -- intros c Hc1 [<-|[]]. tauto.
      * apply in_app_or in H. destruct H as [Hi|[Hi|[]]].
        -- apply in_or_app. left. now apply (Hin k v).
        -- inversion Hi; subst. apply in_or_app. right. now left.
      * apply in_app_or in H. destruct H as [Hi|[Hi|[]]].
        -- now apply (Hin k v).
        -- now inversion Hi.
      * intros y Hy Hcy.
        apply in_app_or in H. destruct H as [Hi|[Hi|[]]].
        -- destruct (Hin _ _ Hi) as (Vl & Vc & Vmin).
           apply in_app_or in Hy. destruct Hy as [Hy|[<-|[]]]; auto.
           exfalso. apply Hn. rewrite Hcy, <- Vc.
           apply in_map. apply (in_map fst) in Hi. exact Hi.
        -- inversion Hi; subst.
           apply in_app_or in Hy. destruct Hy as [Hy|[<-|[]]].
           ++ exfalso. apply Hn. rewrite <- Hcy. now apply Hall.
           ++ apply leb_float_le. right.
              apply comparable_rank in Cx. destruct Cx as [t Ht].
              exists t. auto.
      * intros y Hy. apply in_or_app.
        apply in_app_or in Hy. destruct Hy as [Hy|[<-|[]]]; auto.
        right. now left.
Qed.

(** ** The keys of the intersection dict *)

Lemma no_dash_digits u : no_dash (NilEmpty.string_of_uint u).
Proof.
  induction u; simpl; auto; split; auto; discriminate.
Qed.

Lemma append_dash_inj (s t d e : string) :
  no_dash d -> no_dash e ->
  (s ++ "-" ++ d)%string = (t ++ "-" ++ e)%string -> s = t /\ d = e.
Proof.
  intros Hd He. revert t.
  induction s as [|c s IH]; intros [|c' t]; simpl; intros E.
  - inversion E. auto.
  - inversion E as [[Ec Ed]]. subst d. exfalso. clear - Hd.
    induction t as [|x t IHt]; simpl in Hd; [tauto|].
    destruct Hd as [_ Hd]. auto.
  - inversion E as [[Ec Ee]]. subst e. exfalso. clear - He.
    induction s as [|x s IHs]; simpl in He; [tauto|].
    destruct He as [_ He]. auto.
  - inversion E as [[Ec Et]]. destruct (IH _ Et) as [-> ->]. auto.
Qed.

Lemma str_of_nat_inj n m : str_of_nat n = str_of_nat m -> n = m.
Proof.
  unfold str_of_nat. intros E.
  apply (f_equal NilEmpty.uint_of_string) in E.
  rewrite !NilEmpty.usu in E. inversion E as [E'].
  apply (f_equal Nat.of_uint) in E'.
  now rewrite !DecimalNat.Unsigned.of_to in E'.
Qed.

(** The key of line 174 tells apart the pairs whose cable ids are
    strings. *)
Lemma intersection_key_inj `{PyRepr} (x y : intersection) (s t : string) :
  cableId x = JStr s -> cableId y = JStr t ->
  intersection_key x = intersection_key y ->
  cable_segment_pair x = cable_segment_pair y.
Proof.
  unfold intersection_key, cable_segment_pair. intros -> ->. simpl. intros E.
  apply append_dash_inj in E; try apply no_dash_digits.
  destruct E as [-> E]. now rewrite (str_of_nat_inj _ _ E).
Qed.

(** Two records with the same key have the same segment index, and cable
    ids that print alike. *)
Lemma intersection_key_eq `{PyRepr} (x y : intersection) :
  intersection_key x = intersection_key y ->
  py_str (cableId x) = py_str (cableId y) /\
  segmentIndex x = segmentIndex y.
Proof.
  unfold intersection_key. intros E.
  apply append_dash_inj in E; try apply no_dash_digits.
  destruct E as [E1 E2]. split; [exact E1|]. now apply str_of_nat_inj.
Qed.

(** ** Running the script *)

Lemma printed_nil w : printed w [] = w.
Proof. destruct w; unfold printed; simpl. now rewrite app_nil_r. Qed.

Lemma printed_app w o1 o2 : printed (printed w o1) o2 = printed w (o1 ++ o2).
Proof. unfold printed; simpl. now rewrite app_assoc. Qed.

Lemma writes_ret {A} (a : A) : writes (io_ret a) (fun _ => (Ok a, [])).
Proof. intros w. unfold io_ret. simpl. now rewrite printed_nil. Qed.

Lemma writes_lift {A} (r : result A) : writes (lift r) (fun _ => (r, [])).
Proof. intros w. unfold lift. simpl. now rewrite printed_nil. Qed.

Lemma writes_print l : writes (print l) (fun _ => (Ok tt, [l])).
Proof. intros w. reflexivity. Qed.

Lemma writes_load :
  writes load_infrastructure
    (fun file => match file with
                 | Missing => (Raise FileNotFoundError, [])
                 | Malformed => (Raise JSONDecodeError, [])
                 | Document data => (Ok data, [])
                 end).
Proof.
  intros w. unfold load_infrastructure.
  destruct (infrastructure_file w); simpl; now rewrite printed_nil.
Qed.

Lemma writes_bind {A B} (m : IO A) (k : A -> IO B) f g :
  writes m f -> (forall a, writes (k a) (g a)) ->
  writes (io_bind m k) (bind_writes f g).
Proof.
  intros Hm Hk w. unfold io_bind, bind_writes. rewrite Hm.
  destruct (f (infrastructure_file w)) as [[a|e] out]; simpl; [|reflexivity].
  rewrite Hk. simpl. now rewrite printed_app.
Qed.

Lemma writes_print_all ls : writes (print_all ls) (fun _ => (Ok tt, ls)).
Proof.
  induction ls as [|l ls IH]; simpl.
  - apply writes_ret.
  - intros w. rewrite (writes_bind _ _ _ _ (writes_print l) (fun _ => IH)).
    reflexivity.
Qed.

Section Run.
Context `{PyRepr}.

(** A run prints and returns what [report] says of the file, and touches
    nothing else. *)
Lemma check_intersections_report : writes check_intersections report.
Proof.
  intros w. unfold check_intersections, report, io_bind, print,
    load_infrastructure, lift, io_ret, printed. simpl.
  destruct (infrastructure_file w) as [| |data] eqn:F; simpl;
    try reflexivity.
  destruct (analyze data) as [[ri rn]|e]; simpl.
  2:{ rewrite <- !app_assoc. reflexivity. }
  destruct ri as [|i ri], rn as [|n rn]; simpl;
    rewrite ?(writes_print_all _ _); simpl; unfold printed; simpl;
    try destruct (unique_nearby (n :: rn)) as [un|e]; simpl;
    rewrite ?(writes_print_all _ _); simpl; unfold printed; simpl;
    rewrite <- ?app_assoc; simpl; rewrite ?app_nil_r; reflexivity.
Qed.
End Run.

Lemma unique_cables_nil `{PyRepr} : unique_cables [] = [].
Proof. reflexivity. Qed.

(** What a run that returns has computed. *)
Lemma check_intersections_Ok `{PyRepr} w w' r :
  check_intersections w = (Ok r, w') ->
  exists data raw_intersections raw_nearby nearby_dict,
    infrastructure_file w = Document data /\
    analyze data = Ok (raw_intersections, raw_nearby) /\
    intersections r = dict_values (unique_cables raw_intersections) /\
    unique_nearby raw_nearby = Ok nearby_dict /\
    nearbyCables r = dict_values nearby_dict.
Proof.
  rewrite check_intersections_report. unfold report.
  destruct (infrastructure_file w) as [| |data] eqn:F; try discriminate.
  destruct (analyze data) as [[ri rn]|e] eqn:A; try discriminate.
  intros E. exists data, ri, rn.
  destruct ri as [|i ri], rn as [|n rn]; simpl in E;
    try (destruct (unique_nearby (n :: rn)) as [un|e] eqn:U;
         simpl in E; [|discriminate]);
    inversion E; subst; clear E;
    first [ exists un | exists [] ]; simpl; repeat split; auto.
Qed.

Lemma NoDup_map_nth_error {A B} (f : A -> B) (l : list A) i j a b :
  NoDup (map f l) ->
  nth_error l i = Some a -> nth_error l j = Some b -> f a = f b -> i = j.
Proof.
  intros ND Hi Hj E.
  apply (proj1 (NoDup_nth_error (map f l))) with (i := i) (j := j); auto.
  - rewrite length_map. apply nth_error_Some. congruence.
  - rewrite !nth_error_map, Hi, Hj. simpl. congruence.
Qed.

(** ** Segment intersection *)

Section Orientation.
Context {T : Type} `{PyArith T}.

(** In general position only the first test of [segments_intersect] can
    succeed. *)
Lemma segments_intersect_general_position (a b c d : Point T) :
  eqb (cross_product a c d) zero = false ->
  eqb (cross_product b c d) zero = false ->
  eqb (cross_product c a b) zero = false ->
  eqb (cross_product d a b) zero = false ->
  segments_intersect (a, b) (c, d) =
  ltb (mul (cross_product a c d) (cross_product b c d)) zero &&
  ltb (mul (cross_product c a b) (cross_product d a b)) zero.
Proof.
  intros E1 E2 E3 E4. unfold segments_intersect.
  rewrite E1, E2, E3, E4. simpl.
  now destruct (_ && _).
Qed.

(** An end point with zero orientation inside the other segment's box
    makes the answer true. *)
Lemma segments_intersect_touch (a b c d : Point T) :
  eqb (cross_product a c d) zero && on_segment c a d
  || eqb (cross_product b c d) zero && on_segment c b d
  || eqb (cross_product c a b) zero && on_segment a c b
  || eqb (cross_product d a b) zero && on_segment a d b = true ->
  segments_intersect (a, b) (c, d) = true.
Proof.
  unfold segments_intersect. intros Ht.
  destruct (ltb _ zero && ltb _ zero); [reflexivity|].
  destruct (eqb (cross_product a c d) zero && on_segment c a d);
    [reflexivity|].
  destruct (eqb (cross_product b c d) zero && on_segment c b d);
    [reflexivity|].
  destruct (eqb (cross_product c a b) zero && on_segment a c b);
    [reflexivity|].
  destruct (eqb (cross_product d a b) zero && on_segment a d b);
    [reflexivity|].
  discriminate.
Qed.
End Orientation.

(** *** Shared end points, in binary64 *)

Lemma finite_from_real p q :
  finite_from p q = true ->
  real_valued (Prim2SF (fst p)) /\ real_valued (Prim2SF (snd p)) /\
  real_valued (Prim2SF (fst q - fst p)) /\
  real_valued (Prim2SF (snd q - snd p)).
Proof.
  unfold finite_from. rewrite !andb_true_iff, !is_finite_real. tauto.
Qed.

Lemma cross_product_at_origin_l (p q : Point float) :
  finite_from p q = true -> eqb (cross_product p p q) zero = true.
Proof.
  intros F. change (PrimFloat.eqb (cross_product p p q) 0 = true). apply finite_from_real in F. destruct F as (R0 & R1 & D0 & D1).
  apply zero_eqb. unfold cross_product. cbn [sub mul float_arith].
  rewrite sub_spec, !mul_spec. fold SF64sub SF64mul.
  apply SFsub_zero; apply SFmul_zero_l; auto; rewrite sub_self; simpl; auto.
Qed.

Lemma cross_product_at_origin_r (p q : Point float) :
  finite_from p q = true -> eqb (cross_product p q p) zero = true.
Proof.
  intros F. change (PrimFloat.eqb (cross_product p q p) 0 = true). apply finite_from_real in F. destruct F as (R0 & R1 & D0 & D1).
  apply zero_eqb. unfold cross_product. cbn [sub mul float_arith].
  rewrite sub_spec, !mul_spec. fold SF64sub SF64mul.
  apply SFsub_zero; apply SFmul_zero_r; auto; rewrite sub_self; simpl; auto.
Qed.

Lemma leb_refl x : comparable x -> PrimFloat.leb x x = true.
Proof.
  intros C. apply leb_float_le. right. apply comparable_rank in C.
  destruct C as [t Ht]. exists t. auto.
Qed.

Lemma leb_py_max_l x y :
  comparable x -> PrimFloat.leb x (py_max x y) = true.
Proof.
  intros C. unfold py_max. cbn [ltb float_arith].
  destruct (PrimFloat.ltb x y) eqn:L; [now apply ltb_leb|now apply leb_refl].
Qed.

Lemma leb_py_min_l x y :
  comparable x -> PrimFloat.leb (py_min x y) x = true.
Proof.
  intros C. unfold py_min. cbn [ltb float_arith].
  destruct (PrimFloat.ltb y x) eqn:L; [now apply ltb_leb|now apply leb_refl].
Qed.

Lemma leb_py_max_r x y :
  comparable x -> comparable y -> PrimFloat.leb x (py_max y x) = true.
Proof.
  intros Cx Cy. unfold py_max. cbn [ltb float_arith].
  destruct (PrimFloat.ltb y x) eqn:L; [now apply leb_refl|now apply leb_total].
Qed.

Lemma leb_py_min_r x y :
  comparable x -> comparable y -> PrimFloat.leb (py_min y x) x = true.
Proof.
  intros Cx Cy. unfold py_min. cbn [ltb float_arith].
  destruct (PrimFloat.ltb x y) eqn:L; [now apply leb_refl|now apply leb_total].
Qed.

Lemma on_segment_first (p q : Point float) :
  comparable (fst p) -> comparable (snd p) -> on_segment p p q = true.
Proof.
  intros C0 C1. unfold on_segment. cbn [leb float_arith].
  now rewrite !leb_py_max_l, !leb_py_min_l.
Qed.

Lemma on_segment_last (p q : Point float) :
  comparable (fst p) -> comparable (snd p) ->
  comparable (fst q) -> comparable (snd q) -> on_segment q p p = true.
Proof.
  intros C0 C1 D0 D1. unfold on_segment. cbn [leb float_arith].
  now rewrite !leb_py_max_r, !leb_py_min_r.
Qed.

Lemma finite_from_comparable p q :
  finite_from p q = true ->
  comparable (fst p) /\ comparable (snd p) /\
  comparable (fst q) /\ comparable (snd q).
Proof.
  intros F. apply finite_from_real in F. destruct F as (R0 & R1 & D0 & D1).
  rewrite sub_spec in D0, D1.
  repeat split; apply real_comparable; auto.
  - now apply SFsub_real_l in D0.
  - now apply SFsub_real_l in D1.
Qed.

(** *** Exact arithmetic *)

Lemma Qle_bool_false x y : Qle_bool x y = false -> y < x.
Proof.
  intros E. apply Qnot_le_lt. intros L. apply Qle_bool_iff in L. congruence.
Qed.

Lemma Q_ltb_iff (x y : Q) : ltb x y = true <-> x < y.
Proof.
  cbn [ltb Q_arith]. rewrite negb_true_iff. split.
  - apply Qle_bool_false.
  - intros L. destruct (Qle_bool y x) eqn:E; [|reflexivity].
    apply Qle_bool_iff in E. lra.
Qed.

Lemma Q_leb_py_max (q x y : Q) : leb q (py_max x y) = true <-> q <= x \/ q <= y.
Proof.
  unfold py_max. destruct (ltb x y) eqn:L.
  - apply Q_ltb_iff in L. cbn [leb Q_arith]. rewrite Qle_bool_iff. lra.
  - assert (~ x < y) by (rewrite <- Q_ltb_iff; congruence).
    cbn [leb Q_arith]. rewrite Qle_bool_iff. lra.
Qed.

Lemma Q_leb_py_min (q x y : Q) : leb (py_min x y) q = true <-> x <= q \/ y <= q.
Proof.
  unfold py_min. destruct (ltb y x) eqn:L.
  - apply Q_ltb_iff in L. cbn [leb Q_arith]. rewrite Qle_bool_iff. lra.
  - assert (~ y < x) by (rewrite <- Q_ltb_iff; congruence).
    cbn [leb Q_arith]. rewrite Qle_bool_iff. lra.
Qed.

Lemma Q_on_segment_iff (p q r : Point Q) :
  on_segment p q r = true <->
  Qbetween (fst p) (fst q) (fst r) /\ Qbetween (snd p) (snd q) (snd r).
Proof.
  unfold on_segment, Qbetween.
  rewrite !andb_true_iff, !Q_leb_py_max, !Q_leb_py_min. lra.
Qed.

Lemma Q_segments_intersect_iff (a b c d : Point Q) :
  segments_intersect (a, b) (c, d) = true <->
  (cross_product a c d * cross_product b c d < 0 /\
   cross_product c a b * cross_product d a b < 0) \/
  (cross_product a c d == 0 /\ on_segment c a d = true) \/
  (cross_product b c d == 0 /\ on_segment c b d = true) \/
  (cross_product c a b == 0 /\ on_segment a c b = true) \/
  (cross_product d a b == 0 /\ on_segment a d b = true).
Proof.
  unfold segments_intersect.
  rewrite <- !Qeq_bool_iff.
  change Qeq_bool with (@eqb Q _). change 0 with (@zero Q _).
  rewrite <- !(Q_ltb_iff _ zero). change Qmult with (@mul Q _).
  destruct (ltb _ zero && ltb _ zero) eqn:G.
  { apply andb_true_iff in G. tauto. }
  assert (~ (ltb (mul (cross_product a c d) (cross_product b c d)) zero = true /\
             ltb (mul (cross_product c a b) (cross_product d a b)) zero = true))
    by (rewrite <- andb_true_iff; congruence).
  destruct (eqb (cross_product a c d) zero && on_segment c a d) eqn:T1.
  { apply andb_true_iff in T1. tauto. }
  destruct (eqb (cross_product b c d) zero && on_segment c b d) eqn:T2.
  { apply andb_true_iff in T2. tauto. }
  destruct (eqb (cross_product c a b) zero && on_segment a c b) eqn:T3.
  { apply andb_true_iff in T3. tauto. }
  destruct (eqb (cross_product d a b) zero && on_segment a d b) eqn:T4.
  { apply andb_true_iff in T4. tauto. }
  apply andb_false_iff in T1, T2, T3, T4.
  split; [discriminate|]. intros Hx. exfalso.
  destruct Hx as [Hx|[[? ?]|[[? ?]|[[? ?]|[? ?]]]]]; try tauto;
    repeat match goal with H : _ \/ _ |- _ => destruct H end; congruence.
Qed.

Lemma Q_cross_product (o a b : Point Q) :
  cross_product o a b ==
  (fst a - fst o) * (snd b - snd o) - (snd a - snd o) * (fst b - fst o).
Proof. reflexivity. Qed.

(** Two parallel segments that are not on one line do not intersect. *)
Lemma Q_parallel_disjoint (a b c d : Point Q) :
  parallel (a, b) (c, d) -> ~ on_line_of (a, b) c ->
  segments_intersect (a, b) (c, d) = false.
Proof.
  unfold parallel, on_line_of. cbn [fst snd].
  destruct a as [a0 a1], b as [b0 b1], c as [c0 c1], d as [d0 d1].
  cbn [fst snd]. intros P N.
  destruct (segments_intersect _ _) eqn:S; [|reflexivity]. exfalso.
  apply Q_segments_intersect_iff in S.
  rewrite !Q_on_segment_iff in S. unfold Qbetween in S.
  rewrite !Q_cross_product in S. cbn [fst snd] in S.
  set (X := (b0 - a0) * (c1 - a1) - (b1 - a1) * (c0 - a0)) in *.
  assert (NX : ~ X == 0) by (unfold X; lra).
  assert (O3 : (a0 - c0) * (b1 - c1) - (a1 - c1) * (b0 - c0) == X)
    by (unfold X; ring).
  set (Pz := (b0 - a0) * (d1 - c1) - (b1 - a1) * (d0 - c0)).
  assert (HP : Pz == 0) by (unfold Pz; lra).
  assert (O4 : (a0 - d0) * (b1 - d1) - (a1 - d1) * (b0 - d0) == X).
  { transitivity (X + Pz); [unfold X, Pz; ring|rewrite HP; ring]. }
  assert (W0 : (c0 - a0) * (d1 - a1) - (c1 - a1) * (d0 - a0) == 0 ->
               (d0 - c0) * X == 0 /\ (d1 - c1) * X == 0).
  { intros Z. split.
    - transitivity ((c0 - a0) * Pz
        - (b0 - a0) * ((c0 - a0) * (d1 - a1) - (c1 - a1) * (d0 - a0)));
        [unfold X, Pz; ring|rewrite HP, Z; ring].
    - transitivity ((c1 - a1) * Pz
        - (b1 - a1) * ((c0 - a0) * (d1 - a1) - (c1 - a1) * (d0 - a0)));
        [unfold X, Pz; ring|rewrite HP, Z; ring]. }
  assert (W1 : (c0 - b0) * (d1 - b1) - (c1 - b1) * (d0 - b0) == 0 ->
               (d0 - c0) * X == 0 /\ (d1 - c1) * X == 0).
  { intros Z. apply W0.
    transitivity ((c0 - b0) * (d1 - b1) - (c1 - b1) * (d0 - b0) + Pz);
      [unfold Pz; ring|rewrite HP, Z; ring]. }
  destruct S as [[_ G]|[[Z B]|[[Z B]|[[Z _]|[Z _]]]]].
  - rewrite O3, O4 in G. nra.
  - destruct (W0 Z) as [M0 M1].
    apply Qmult_integral in M0, M1.
    destruct M0 as [M0|M0]; [|tauto]. destruct M1 as [M1|M1]; [|tauto].
    apply NX. unfold X.
    assert (a0 == c0) by lra. assert (a1 == c1) by lra. nra.
  - destruct (W1 Z) as [M0 M1].
    apply Qmult_integral in M0, M1.
    destruct M0 as [M0|M0]; [|tauto]. destruct M1 as [M1|M1]; [|tauto].
    apply NX. unfold X.
    assert (b0 == c0) by lra. assert (b1 == c1) by lra. nra.
  - rewrite O3 in Z. tauto.
  - rewrite O4 in Z. tauto.
Qed.

(** A point of the line [p + t v] between two others, by parameter, is in
    their box. *)
Lemma Qbetween_on_line (p v x y z : Q) (tx ty tz : Q) :
  x == p + tx * v -> y == p + ty * v -> z == p + tz * v ->
  Qbetween tx ty tz -> Qbetween x y z.
Proof.
  unfold Qbetween. intros -> -> -> B.
  destruct (Qlt_le_dec v 0); destruct B as [[? ?]|[? ?]]; nra.
Qed.

Lemma Q_cross_product_on_line (p v o a b : Point Q) (to ta tb : Q) :
  fst o == fst p + to * fst v -> snd o == snd p + to * snd v ->
  fst a == fst p + ta * fst v -> snd a == snd p + ta * snd v ->
  fst b == fst p + tb * fst v -> snd b == snd p + tb * snd v ->
  cross_product o a b == 0.
Proof.
  intros O0 O1 A0 A1 B0 B1. rewrite Q_cross_product.
  rewrite O0, O1, A0, A1, B0, B1. ring.
Qed.

(** Two segments of one line that have a common point intersect. *)
Lemma Q_collinear_overlapping (a b c d : Point Q) :
  collinear (a, b) (c, d) -> overlapping (a, b) (c, d) ->
  segments_intersect (a, b) (c, d) = true.
Proof.
  intros (p & v & Hv & Hl) (x & (l & L0 & L1 & X0 & X1) & (m & M0 & M1 & Y0 & Y1)).
  cbn [fst snd] in *.
  destruct (Hl a) as (ta & A0 & A1); [simpl; tauto|].
  destruct (Hl b) as (tb & B0 & B1); [simpl; tauto|].
  destruct (Hl c) as (tc & C0 & C1); [simpl; tauto|].
  destruct (Hl d) as (td & D0 & D1); [simpl; tauto|].
  clear Hl.
  assert (Et : ta + l * (tb - ta) == tc + m * (td - tc)).
  { assert (E0 : (ta + l * (tb - ta) - (tc + m * (td - tc))) * fst v == 0).
    { rewrite X0 in Y0. rewrite A0, B0, C0, D0 in Y0. nra. }
    assert (E1 : (ta + l * (tb - ta) - (tc + m * (td - tc))) * snd v == 0).
    { rewrite X1 in Y1. rewrite A1, B1, C1, D1 in Y1. nra. }
    apply Qmult_integral in E0, E1.
    destruct E0 as [E0|E0]; [lra|]. destruct E1 as [E1|E1]; [lra|]. tauto. }
  assert (Hb : Qbetween tc ta td \/ Qbetween tc tb td \/
               Qbetween ta tc tb \/ Qbetween ta td tb).
  { set (T := ta + l * (tb - ta)) in *.
    assert (B1' : Qbetween ta T tb)
      by (unfold Qbetween, T; destruct (Qlt_le_dec ta tb); nra).
    assert (B2' : Qbetween tc T td)
      by (unfold Qbetween; rewrite Et; destruct (Qlt_le_dec tc td); nra).
    clearbody T. unfold Qbetween in *. lra. }
  apply Q_segments_intersect_iff. rewrite !Q_on_segment_iff.
  right.
  destruct Hb as [Hb|[Hb|[Hb|Hb]]].
  - left. split; [eapply Q_cross_product_on_line; eauto|].
    split; eapply Qbetween_on_line; eauto.
  - right. left. split; [eapply Q_cross_product_on_line; eauto|].
    split; eapply Qbetween_on_line; eauto.
  - right. right. left. split; [eapply Q_cross_product_on_line; eauto|].
    split; eapply Qbetween_on_line; eauto.
  - right. right. right. split; [eapply Q_cross_product_on_line; eauto|].
    split; eapply Qbetween_on_line; eauto.
Qed.

(** Two parallel segments that are not on one line have no common point. *)
Lemma Q_parallel_no_common_point (a b c d : Point Q) :
  parallel (a, b) (c, d) -> ~ on_line_of (a, b) c ->
  ~ overlapping (a, b) (c, d).
Proof.
  unfold parallel, on_line_of. cbn [fst snd].
  intros P N (x & (l & _ & _ & X0 & X1) & (m & _ & _ & Y0 & Y1)).
  cbn [fst snd] in *. apply N.
  rewrite X0 in Y0. rewrite X1 in Y1.
  set (u0 := fst b - fst a) in *. set (u1 := snd b - snd a) in *.
  set (w0 := fst d - fst c) in *. set (w1 := snd d - snd c) in *.
  assert (E0 : fst c - fst a == l * u0 - m * w0) by lra.
  assert (E1 : snd c - snd a == l * u1 - m * w1) by lra.
  rewrite E0, E1.
  assert (Hd : u0 * (l * u1 - m * w1) - u1 * (l * u0 - m * w0) ==
               m * (u1 * w0 - u0 * w1)) by ring.
  assert (Hz : u1 * w0 - u0 * w1 == 0) by (rewrite P; ring).
  rewrite Hz in Hd. lra.
Qed.

(** ** Distance from a point to a segment *)

Open Scope R_scope.

Lemma Rltb_true x y : x < y -> Rltb x y = true.
Proof. intros L. unfold Rltb. destruct (Rlt_dec x y); tauto. Qed.

Lemma Rltb_false x y : ~ x < y -> Rltb x y = false.
Proof. intros L. unfold Rltb. destruct (Rlt_dec x y); tauto. Qed.

Lemma Reqb_false x y : x <> y -> Reqb x y = false.
Proof. intros L. unfold Reqb. destruct (Req_dec_T x y); tauto. Qed.

Lemma Reqb_true x y : x = y -> Reqb x y = true.
Proof. intros L. unfold Reqb. destruct (Req_dec_T x y); tauto. Qed.

Lemma sum_squares_zero x y : x * x + y * y = 0 -> x = 0 /\ y = 0.
Proof. intros E. split; nra. Qed.

(** In real arithmetic the code computes the distance to the clamped
    projection. *)
Lemma R_point_to_segment_distance (point p1 p2 : Point R) :
  p1 <> p2 ->
  point_to_segment_distance point (p1, p2) =
  euclidean_distance point
    (point_at (p1, p2) (clamp01 (projection_parameter point (p1, p2)))).
Proof.
  destruct point as [x y], p1 as [a0 a1], p2 as [b0 b1]. intros N.
  unfold point_to_segment_distance, euclidean_distance, point_at,
    projection_parameter, clamp01.
  cbn [fst snd sub mul add div sqrt eqb ltb zero one R_arith R_real].
  set (len_sq := (b0 - a0) * (b0 - a0) + (b1 - a1) * (b1 - a1)).
  set (param := _ / len_sq).
  assert (Hl : len_sq <> 0).
  { intros E. apply sum_squares_zero in E. apply N. f_equal; lra. }
  rewrite (Reqb_false _ _ Hl).
  destruct (Rlt_dec param 0) as [L0|L0].
  - rewrite (Rltb_true _ _ L0). cbn [fst snd].
    rewrite Rmin_right by lra. rewrite Rmax_left by lra.
    f_equal. ring.
  - rewrite (Rltb_false _ _ L0).
    destruct (Rlt_dec 1 param) as [L1|L1].
    + rewrite (Rltb_true _ _ L1). cbn [fst snd].
      rewrite Rmin_left by lra. rewrite Rmax_right by lra.
      f_equal. ring.
    + rewrite (Rltb_false _ _ L1). cbn [fst snd].
      rewrite Rmin_right by lra. rewrite Rmax_right by lra.
      reflexivity.
Qed.

(** In real arithmetic a segment of one point is measured to that point. *)
Lemma R_point_to_point_distance (point p : Point R) :
  point_to_segment_distance point (p, p) = euclidean_distance point p.
Proof.
  destruct point as [x y], p as [a0 a1].
  unfold point_to_segment_distance, euclidean_distance, distance.
  cbn [fst snd sub mul add div sqrt eqb ltb zero one R_arith R_real].
  rewrite Reqb_true by ring. f_equal. ring.
Qed.

Close Scope R_scope.

(** In binary64 a segment of one point with finite coordinates is measured
    by [distance]. *)
Lemma float_point_to_point_distance (point p : Point float) :
  is_finite (fst p) = true -> is_finite (snd p) = true ->
  point_to_segment_distance point (p, p) = distance point p.
Proof.
  rewrite !is_finite_real. intros F0 F1.
  unfold point_to_segment_distance.
  cbn [fst snd sub mul add div sqrt eqb ltb zero one float_arith float_real].
  assert (Z : PrimFloat.eqb
                ((fst p - fst p) * (fst p - fst p)
                 + (snd p - snd p) * (snd p - snd p))%float 0 = true).
  { apply zero_eqb. rewrite add_spec, !mul_spec.
    apply SFadd_zero; apply SFmul_zero_l;
      rewrite ?sub_self; simpl; auto. }
  now rewrite Z.
Qed.

Open Scope R_scope.

(** A point above the middle of a horizontal segment, in real arithmetic. *)
Lemma R_distance_above_middle (X : R) :
  0 < X ->
  point_to_segment_distance (0, 0) ((- X, 1), (X, 1)) = 1.
Proof.
  intros PX. rewrite R_point_to_segment_distance.
  2:{ intros E. inversion E. lra. }
  unfold euclidean_distance, point_at, projection_parameter, clamp01.
  cbn [fst snd].
  replace (((0 - - X) * (X - - X) + (0 - 1) * (1 - 1)) /
           ((X - - X) * (X - - X) + (1 - 1) * (1 - 1))) with (/ 2)
    by (field; lra).
  rewrite Rmin_right by lra. rewrite Rmax_right by lra.
  replace ((0 - (- X + / 2 * (X - - X))) * (0 - (- X + / 2 * (X - - X))) +
           (0 - (1 + / 2 * (1 - 1))) * (0 - (1 + / 2 * (1 - 1)))) with 1
    by field.
  apply sqrt_1.
Qed.

Lemma float_to_R_eq x q : float_to_Q x == q -> float_to_R x = Q2R q.
Proof. intros E. unfold float_to_R. now apply Qreals.Qeq_eqR. Qed.

Close Scope R_scope.

(** The distance of a point to itself is zero, when it is a number at all. *)
Lemma self_distance_zero (x y bound : float) :
  let r := PrimFloat.sqrt ((x - x) * (x - x) + (y - y) * (y - y))%float in
  PrimFloat.ltb r bound = true -> PrimFloat.eqb r 0 = true.
Proof.
  cbv zeta. intros L. apply ltb_comparable in L. destruct L as [L _].
  unfold comparable in L. apply zero_eqb.
  rewrite sqrt_spec, add_spec, !mul_spec, !sub_spec in *.
  destruct (SFsub_self (Prim2SF x)) as [Ex|Ex],
           (SFsub_self (Prim2SF y)) as [Ey|Ey];
    fold SF64sub in *; rewrite Ex, Ey in *; simpl in *; congruence || exact I.
Qed.

(** [nearest_point] is the point the distance is measured to. *)
Lemma distance_to_nearest_point (point : Point float) (seg : LineSegment float) :
  let q := nearest_point point seg in
  point_to_segment_distance point seg = distance point q \/
  point_to_segment_distance point seg =
  PrimFloat.sqrt ((fst point - fst q) * (fst point - fst q) +
                  (snd point - snd q) * (snd point - snd q))%float.
Proof.
  destruct seg as [p1 p2]. cbv zeta.
  unfold point_to_segment_distance, nearest_point.
  cbn [fst snd sub mul add div sqrt eqb ltb zero one float_arith float_real].
  destruct (PrimFloat.eqb _ 0); [now left|right].
  match goal with
  | |- context [let '(xx, yy) := ?q in _] => destruct q as [xx yy]
  end.
  reflexivity.
Qed.

(** A recorded distance that is not zero was measured to another point
    than the trajectory point. *)
Lemma nearest_point_differs (point : Point float) (seg : LineSegment float)
  (bound : float) :
  PrimFloat.ltb (point_to_segment_distance point seg) bound = true ->
  PrimFloat.eqb (point_to_segment_distance point seg) 0 = false ->
  point <> nearest_point point seg.
Proof.
  intros L N E. destruct seg as [p1 p2]. destruct point as [x y].
  unfold point_to_segment_distance, nearest_point, distance in *.
  cbn [fst snd sub mul add div sqrt eqb ltb zero one float_arith float_real]
    in *.
  destruct (PrimFloat.eqb _ 0) eqn:Z in E, L, N.
  - subst p1. cbn [fst snd] in *.
    apply self_distance_zero in L. congruence.
  - match type of E with
    | _ = ?q => destruct q as [xx yy] eqn:Q
    end.
    inversion E; subst xx yy. cbn [fst snd] in *.
    apply self_distance_zero in L. congruence.
Qed.

(** * The claims *)

Example two_crossings_run :
  fst (check_intersections (H := no_repr) (world_of two_crossings)) =
  Ok two_crossings_result.
Proof. vm_compute. reflexivity. Qed.

(** The remaining examples of the spec's section 8. *)

Example distance_beyond_end_point :
  point_to_segment_distance (3, 1)%float ((0, 0), (2, 0))%float =
  PrimFloat.sqrt 2.
Proof. vm_compute. reflexivity. Qed.

Example one_crossing_reported :
  fst (check_intersections (H := no_repr)
         (world_of (document
            [ feature_json "Baltic A" "cable-a" "MultiLineString"
                [ [ (12.0, 54.0); (12.0, 55.0) ] ]%float ]))) =
  Ok {| intersections :=
          [ {| cableName := JStr "Baltic A"; cableId := JStr "cable-a";
               segmentIndex := 0; trajectorySegment := 1 |} ];
        nearbyCables :=
          [ {| nb_cableName := JStr "Baltic A"; nb_cableId := JStr "cable-a";
               minDistance := 0.033282500000000326;
               closestPoint := (11.9667175, 54.3310199)%float |} ] |}.
Proof. vm_compute. reflexivity. Qed.

Example far_cable_not_reported :
  fst (check_intersections (H := no_repr)
         (world_of (document
            [ feature_json "North" "cable-n" "MultiLineString"
                [ [ (20.0, 60.0); (21.0, 61.0) ] ]%float ]))) =
  Ok {| intersections := []; nearbyCables := [] |}.
Proof. vm_compute. reflexivity. Qed.

(** What a run that returns has made of the intersections of the
    analysis. *)
Lemma run_intersections `{PyRepr} (w w' : world) (r : analysis) :
  check_intersections w = (Ok r, w') ->
  exists data cables,
    infrastructure_file w = Document data /\
    decode data = Ok cables /\
    intersections r =
    dict_values (unique_cables (flat_map cable_intersections cables)).
Proof.
  intros Hrun.
  destruct (check_intersections_Ok _ _ _ Hrun)
    as (data & ri & rn & un & F & A & Ei & _ & _).
  rewrite analyze_decode in A.
  destruct (decode data) as [cables|e] eqn:D; simpl in A; [|discriminate].
  inversion A as [[Eri Ern]]. exists data, cables.
  rewrite Eri. auto.
Qed.

Lemma in_cable_intersections cables y :
  In y (flat_map cable_intersections cables) ->
  exists c, In c cables /\ cableId y = cable_id c.
Proof.
  intros Hy. apply in_flat_map in Hy. destruct Hy as (c & Hc & Hy).
  exists c. split; [exact Hc|].
  unfold cable_intersections in Hy. apply in_flat_map in Hy.
  destruct Hy as ([idx segs] & _ & Hy). apply in_flat_map in Hy.
  destruct Hy as (seg & _ & Hy). unfold segment_intersections in Hy.
  apply in_flat_map in Hy. destruct Hy as ([ti ts] & _ & Hy).
  destruct (segments_intersect ts seg); [|contradiction].
  destruct Hy as [<-|[]]. reflexivity.
Qed.

(** C1.  Whenever a run returns, the returned intersections hold at most
    one record per (cableId, segmentIndex) pair, each returned record is
    the first one with its pair among the records the analysis appended --
    in the order of the loops over the features, their line-strings, the
    segments of a line-string and the trajectory segments -- and when the
    analysis appended none the returned list is empty.  No key is lost:
    every appended record has a returned record with the same segment
    index and a cable id that prints alike; so when cable ids that differ
    print differently, as they do when they are strings (the file format),
    every (cableId, segmentIndex) pair the analysis found has its record
    in the returned list. *)
Theorem C1_intersections_first_wins `{PyRepr} (w w' : world) (r : analysis) :
  check_intersections w = (Ok r, w') ->
  exists data cables,
    infrastructure_file w = Document data /\
    decode data = Ok cables /\
    let appended := flat_map cable_intersections cables in
    (forall i j x y,
        nth_error (intersections r) i = Some x ->
        nth_error (intersections r) j = Some y ->
        cable_segment_pair x = cable_segment_pair y -> i = j) /\
    (forall x, In x (intersections r) ->
               first_with cable_segment_pair appended x) /\
    (appended = [] -> intersections r = []) /\
    (forall y, In y appended ->
       exists x, In x (intersections r) /\
                 py_str (cableId x) = py_str (cableId y) /\
                 segmentIndex x = segmentIndex y) /\
    ((forall c c', In c cables -> In c' cables ->
                   py_str (cable_id c) = py_str (cable_id c') ->
                   cable_id c = cable_id c') ->
     forall y, In y appended ->
       exists x, In x (intersections r) /\
                 cable_segment_pair x = cable_segment_pair y) /\
    ((forall c, In c cables -> exists s, cable_id c = JStr s) ->
     forall y, In y appended ->
       exists x, In x (intersections r) /\
                 cable_segment_pair x = cable_segment_pair y).
Proof.
  intros Hrun.
  destruct (run_intersections _ _ _ Hrun) as (data & cables & F & D & Ei).
  exists data, cables. split; [exact F|]. split; [exact D|].
  cbv zeta. set (ri := flat_map cable_intersections cables) in *.
  destruct (unique_cables_spec ri) as (ND & Hin & Hall).
  assert (Hkey : forall x y, cable_segment_pair x = cable_segment_pair y ->
                             intersection_key x = intersection_key y).
  { intros x y Hp. unfold intersection_key. unfold cable_segment_pair in Hp.
    inversion Hp as [[Hc Hs]]. now rewrite Hc, Hs. }
  assert (Hkept : forall y, In y ri ->
            exists x, In x (intersections r) /\ In x ri /\
                      intersection_key x = intersection_key y).
  { intros y Hy. pose proof (Hall y Hy) as Hk. apply in_map_iff in Hk.
    destruct Hk as ([k x] & Ek & Hkx). simpl in Ek. subst k.
    destruct (Hin _ _ Hkx) as (Ekey & before & after & E & _).
    exists x. repeat split.
    - rewrite Ei. unfold dict_values. apply in_map_iff.
      exists (intersection_key y, x). auto.
    - rewrite E. apply in_or_app. right. now left.
    - congruence. }
  assert (Hdistinct :
    (forall c c', In c cables -> In c' cables ->
                  py_str (cable_id c) = py_str (cable_id c') ->
                  cable_id c = cable_id c') ->
    forall y, In y ri ->
      exists x, In x (intersections r) /\
                cable_segment_pair x = cable_segment_pair y).
  { intros Hinj y Hy. destruct (Hkept y Hy) as (x & Hx & Hxa & Ek).
    exists x. split; [exact Hx|].
    apply intersection_key_eq in Ek. destruct Ek as [Es Ei'].
    destruct (in_cable_intersections _ _ Hxa) as (c & Hc & Ec).
    destruct (in_cable_intersections _ _ Hy) as (c' & Hc' & Ec').
    unfold cable_segment_pair. rewrite Ei'. f_equal.
    rewrite Ec, Ec'. apply Hinj; auto. congruence. }
  split; [|split; [|split; [|split; [|split]]]].
  - intros i j x y Hi Hj Hp. rewrite Ei in Hi, Hj. unfold dict_values in *.
    rewrite nth_error_map in Hi, Hj.
    destruct (nth_error (unique_cables ri) i) as [[k v]|] eqn:Ni;
      [|discriminate].
    destruct (nth_error (unique_cables ri) j) as [[k' v']|] eqn:Nj;
      [|discriminate].
    simpl in Hi, Hj. inversion Hi; inversion Hj; subst.
    apply (NoDup_map_nth_error fst _ _ _ _ _ ND Ni Nj). simpl.
    destruct (Hin _ _ (nth_error_In _ _ Ni)) as [-> _].
    destruct (Hin _ _ (nth_error_In _ _ Nj)) as [-> _].
    now apply Hkey.
  - intros x Hx. rewrite Ei in Hx. unfold dict_values in Hx.
    apply in_map_iff in Hx. destruct Hx as ([k v] & <- & Hkv).
    destruct (Hin _ _ Hkv) as (_ & before & after & E & Hb).
    exists before, after. split; auto.
    intros y Hy Hp. apply (Hb y Hy). now apply Hkey.
  - intros E. rewrite Ei, E. reflexivity.
  - intros y Hy. destruct (Hkept y Hy) as (x & Hx & _ & Ek).
    exists x. split; [exact Hx|]. now apply intersection_key_eq.
  - exact Hdistinct.
  - intros Hstr. apply Hdistinct. intros c c' Hc Hc' Es.
    destruct (Hstr _ Hc) as [s Ec]. destruct (Hstr _ Hc') as [t Ec'].
    rewrite Ec, Ec' in *. simpl in Es. now rewrite Es.
Qed.

Lemma C1_witness :
  check_intersections (H := no_repr) (world_of two_crossings) =
  (Ok two_crossings_result,
   snd (check_intersections (H := no_repr) (world_of two_crossings))) /\
  exists data cables,
    infrastructure_file (world_of two_crossings) = Document data /\
    decode data = Ok cables /\
    let appended := flat_map cable_intersections cables in
    (forall i j x y,
        nth_error (intersections two_crossings_result) i = Some x ->
        nth_error (intersections two_crossings_result) j = Some y ->
        cable_segment_pair x = cable_segment_pair y -> i = j) /\
    (forall x, In x (intersections two_crossings_result) ->
               first_with cable_segment_pair appended x) /\
    (appended = [] -> intersections two_crossings_result = []) /\
    (forall y, In y appended ->
       exists x, In x (intersections two_crossings_result) /\
                 py_str (H := no_repr) (cableId x) =
                 py_str (H := no_repr) (cableId y) /\
                 segmentIndex x = segmentIndex y) /\
    ((forall c c', In c cables -> In c' cables ->
                   py_str (H := no_repr) (cable_id c) =
                   py_str (H := no_repr) (cable_id c') ->
                   cable_id c = cable_id c') ->
     forall y, In y appended ->
       exists x, In x (intersections two_crossings_result) /\
                 cable_segment_pair x = cable_segment_pair y) /\
    ((forall c, In c cables -> exists s, cable_id c = JStr s) ->
     forall y, In y appended ->
       exists x, In x (intersections two_crossings_result) /\
                 cable_segment_pair x = cable_segment_pair y).
Proof.
  assert (Hrun : check_intersections (H := no_repr) (world_of two_crossings) =
    (Ok two_crossings_result,
     snd (check_intersections (H := no_repr) (world_of two_crossings))))
    by (vm_compute; reflexivity).
  split; [exact Hrun|].
  exact (C1_intersections_first_wins _ _ _ Hrun).
Defined.

(** When the cable ids are strings, as the file format has them, every
    (cableId, segmentIndex) pair the analysis found is returned. *)
Lemma every_pair_returned `{PyRepr} (w w' : world) (r : analysis) :
  check_intersections w = (Ok r, w') ->
  exists data cables,
    infrastructure_file w = Document data /\
    decode data = Ok cables /\
    ((forall c, In c cables -> exists s, cable_id c = JStr s) ->
     forall y, In y (flat_map cable_intersections cables) ->
       exists x, In x (intersections r) /\
                 cable_segment_pair x = cable_segment_pair y).
Proof.
  intros Hrun.
  destruct (run_intersections _ _ _ Hrun) as (data & cables & F & D & Ei).
  exists data, cables. split; [exact F|]. split; [exact D|].
  intros Hstr y Hy.
  set (ri := flat_map cable_intersections cables) in *.
  destruct (unique_cables_spec ri) as (_ & Hin & Hall).
  pose proof (Hall y Hy) as Hk. apply in_map_iff in Hk.
  destruct Hk as ([k x] & Ek & Hkx). simpl in Ek. subst k.
  destruct (Hin _ _ Hkx) as (Ekey & before & after & E & _).
  exists x. split.
  - rewrite Ei. unfold dict_values. apply in_map_iff. exists (intersection_key y, x).
    auto.
  - assert (Hx : In x ri) by (rewrite E; apply in_or_app; right; now left).
    destruct (in_cable_intersections _ _ Hx) as (c & Hc & Ec).
    destruct (in_cable_intersections _ _ Hy) as (c' & Hc' & Ec').
    destruct (Hstr _ Hc) as [s Es]. destruct (Hstr _ Hc') as [t Et].
    apply (intersection_key_inj x y s t); congruence.
Qed.

Lemma in_cable_nearby cables y :
  In y (flat_map cable_nearby cables) <->
  exists c seg traj_point,
    In c cables /\ segment_of c seg /\ In traj_point trajectory_points /\
    PrimFloat.ltb (point_to_segment_distance traj_point seg) 0.05 = true /\
    y = detection c seg traj_point.
Proof.
  rewrite in_flat_map. split.
  - intros (c & Hc & Hy). unfold cable_nearby in Hy.
    apply in_flat_map in Hy. destruct Hy as (segs & Hsegs & Hy).
    apply in_flat_map in Hy. destruct Hy as (seg & Hseg & Hy).
    unfold segment_nearby in Hy.
    apply in_flat_map in Hy. destruct Hy as (tp & Htp & Hy).
    cbv zeta in Hy.
    destruct (PrimFloat.ltb (point_to_segment_distance tp seg) 0.05) eqn:L;
      [|contradiction].
    destruct Hy as [<-|[]].
    exists c, seg, tp. repeat split; auto. exists segs. auto.
  - intros (c & seg & tp & Hc & (segs & Hsegs & Hseg) & Htp & L & ->).
    exists c. split; auto. unfold cable_nearby.
    apply in_flat_map. exists segs. split; auto.
    apply in_flat_map. exists seg. split; auto.
    unfold segment_nearby. apply in_flat_map. exists tp. split; auto.
    cbv zeta. rewrite L. now left.
Qed.

Lemma detection_below_threshold cables y :
  In y (flat_map cable_nearby cables) ->
  PrimFloat.ltb (minDistance y) 0.05 = true.
Proof.
  intros Hy. apply in_cable_nearby in Hy.
  destruct Hy as (c & seg & tp & _ & _ & _ & L & ->). exact L.
Qed.

Lemma detection_comparable cables y :
  In y (flat_map cable_nearby cables) -> comparable (minDistance y).
Proof.
  intros Hy. apply detection_below_threshold in Hy.
  apply ltb_comparable in Hy. tauto.
Qed.

(** What a run that returns has made of the detections of the analysis. *)
Lemma run_nearby `{PyRepr} (w w' : world) (r : analysis) :
  check_intersections w = (Ok r, w') ->
  exists data cables nearby_dict,
    infrastructure_file w = Document data /\
    decode data = Ok cables /\
    unique_nearby (flat_map cable_nearby cables) = Ok nearby_dict /\
    nearbyCables r = dict_values nearby_dict.
Proof.
  intros Hrun.
  destruct (check_intersections_Ok _ _ _ Hrun)
    as (data & ri & rn & un & F & A & _ & U & En).
  rewrite analyze_decode in A.
  destruct (decode data) as [cables|e] eqn:D; simpl in A; [|discriminate].
  inversion A as [[Eri Ern]]. rewrite <- Ern in U.
  exists data, cables, un. auto.
Qed.

(** C2.  Whenever a run returns, the returned nearbyCables hold at most
    one record per cableId; each returned record is a detection of its
    cable -- the distance from a trajectory point to a segment of a cable
    with this id, strictly below 0.05 -- and its minDistance is at most
    the distance of every (trajectory point, cable segment) pair of that
    cable that is strictly below 0.05.  Every cable with such a pair has
    its record: whenever a trajectory point is strictly within 0.05 of a
    segment of a cable, the returned list holds a record with the id of
    that cable. *)
Theorem C2_nearby_minimum `{PyRepr} (w w' : world) (r : analysis) :
  check_intersections w = (Ok r, w') ->
  exists data cables,
    infrastructure_file w = Document data /\
    decode data = Ok cables /\
    (forall i j x y,
        nth_error (nearbyCables r) i = Some x ->
        nth_error (nearbyCables r) j = Some y ->
        same_cable (nb_cableId x) (nb_cableId y) -> i = j) /\
    (forall x, In x (nearbyCables r) ->
       PrimFloat.ltb (minDistance x) 0.05 = true /\
       (exists c seg traj_point,
           In c cables /\ segment_of c seg /\
           In traj_point trajectory_points /\
           x = detection c seg traj_point) /\
       (forall c seg traj_point,
           In c cables -> same_cable (cable_id c) (nb_cableId x) ->
           segment_of c seg -> In traj_point trajectory_points ->
           PrimFloat.ltb (point_to_segment_distance traj_point seg) 0.05
             = true ->
           PrimFloat.leb (minDistance x)
                         (point_to_segment_distance traj_point seg) = true)) /\
    (forall c seg traj_point,
        In c cables -> segment_of c seg ->
        In traj_point trajectory_points ->
        PrimFloat.ltb (point_to_segment_distance traj_point seg) 0.05
          = true ->
        exists x, In x (nearbyCables r) /\
                  same_cable (nb_cableId x) (cable_id c)).
Proof.
  intros Hrun.
  destruct (run_nearby _ _ _ Hrun) as (data & cables & un & F & D & U & En).
  destruct (unique_nearby_spec _ (detection_comparable cables) _ U)
    as (_ & ND & Hin & Hall).
  exists data, cables. split; [exact F|]. split; [exact D|].
  split; [|split].
  - intros i j x y Hi Hj Hs. rewrite En in Hi, Hj. unfold dict_values in *.
    rewrite nth_error_map in Hi, Hj.
    destruct (nth_error un i) as [[k v]|] eqn:Ni; [|discriminate].
    destruct (nth_error un j) as [[k' v']|] eqn:Nj; [|discriminate].
    simpl in Hi, Hj. inversion Hi; inversion Hj; subst.
    rewrite map_map in ND.
    apply (NoDup_map_nth_error _ _ _ _ _ _ ND Ni Nj). simpl.
    destruct (Hin _ _ (nth_error_In _ _ Ni)) as (_ & -> & _).
    destruct (Hin _ _ (nth_error_In _ _ Nj)) as (_ & -> & _).
    exact Hs.
  - intros x Hx. rewrite En in Hx. unfold dict_values in Hx.
    apply in_map_iff in Hx. destruct Hx as ([k v] & <- & Hkv).
    destruct (Hin _ _ Hkv) as (Hv & _ & Hmin). simpl.
    split; [now apply (detection_below_threshold cables)|]. split.
    + apply in_cable_nearby in Hv.
      destruct Hv as (c & seg & tp & Hc & Hs & Ht & _ & E).
      exists c, seg, tp. auto.
    + intros c seg tp Hc Hsame Hseg Htp L.
      apply (Hmin (detection c seg tp)).
      * apply in_cable_nearby. exists c, seg, tp. auto.
      * exact Hsame.
  - intros c seg tp Hc Hseg Htp L.
    assert (Hy : In (detection c seg tp) (flat_map cable_nearby cables))
      by (apply in_cable_nearby; exists c, seg, tp; auto).
    apply Hall in Hy. simpl in Hy. rewrite map_map in Hy.
    apply in_map_iff in Hy. destruct Hy as ([k v] & Ek & Hkv). simpl in Ek.
    destruct (Hin _ _ Hkv) as (_ & Ev & _).
    exists v. split.
    + rewrite En. unfold dict_values. apply in_map_iff. exists (k, v). auto.
    + unfold same_cable. congruence.
Qed.

Lemma C2_witness :
  check_intersections (H := no_repr) (world_of two_crossings) =
  (Ok two_crossings_result,
   snd (check_intersections (H := no_repr) (world_of two_crossings))) /\
  exists data cables,
    infrastructure_file (world_of two_crossings) = Document data /\
    decode data = Ok cables /\
    (forall i j x y,
        nth_error (nearbyCables two_crossings_result) i = Some x ->
        nth_error (nearbyCables two_crossings_result) j = Some y ->
        same_cable (nb_cableId x) (nb_cableId y) -> i = j) /\
    (forall x, In x (nearbyCables two_crossings_result) ->
       PrimFloat.ltb (minDistance x) 0.05 = true /\
       (exists c seg traj_point,
           In c cables /\ segment_of c seg /\
           In traj_point trajectory_points /\
           x = detection c seg traj_point) /\
       (forall c seg traj_point,
           In c cables -> same_cable (cable_id c) (nb_cableId x) ->
           segment_of c seg -> In traj_point trajectory_points ->
           PrimFloat.ltb (point_to_segment_distance traj_point seg) 0.05
             = true ->
           PrimFloat.leb (minDistance x)
                         (point_to_segment_distance traj_point seg) = true)) /\
    (forall c seg traj_point,
        In c cables -> segment_of c seg ->
        In traj_point trajectory_points ->
        PrimFloat.ltb (point_to_segment_distance traj_point seg) 0.05
          = true ->
        exists x, In x (nearbyCables two_crossings_result) /\
                  same_cable (nb_cableId x) (cable_id c)).
Proof.
  assert (Hrun : check_intersections (H := no_repr) (world_of two_crossings) =
    (Ok two_crossings_result,
     snd (check_intersections (H := no_repr) (world_of two_crossings))))
    by (vm_compute; reflexivity).
  split; [exact Hrun|].
  exact (C2_nearby_minimum _ _ _ Hrun).
Defined.

(** C3 (as amended).  When the four computed orientations are nonzero,
    [segments_intersect] returns true exactly when [o1 * o2 < 0] and
    [o3 * o4 < 0], whatever the numbers; and in exact arithmetic it returns
    false for two parallel segments that are not on one line. *)
Theorem C3_general_position :
  (forall (T : Type) (N : PyArith T) (a b c d : Point T),
      eqb (cross_product a c d) zero = false ->
      eqb (cross_product b c d) zero = false ->
      eqb (cross_product c a b) zero = false ->
      eqb (cross_product d a b) zero = false ->
      segments_intersect (a, b) (c, d) =
      ltb (mul (cross_product a c d) (cross_product b c d)) zero &&
      ltb (mul (cross_product c a b) (cross_product d a b)) zero) /\
  (forall a b c d : Point Q,
      parallel (a, b) (c, d) -> ~ on_line_of (a, b) c ->
      segments_intersect (a, b) (c, d) = false).
Proof.
  split.
  - intros T N a b c d. apply segments_intersect_general_position.
  - exact Q_parallel_disjoint.
Qed.

(** Two parallel segments of binary64 end points that are not on one line
    and have no common point, for which [segments_intersect] returns true:
    the orientations of [b] and [d] round to zero, and [d] is in the box
    of [a] and [b]. *)
Lemma C3_counterexample :
  let a := (0, 0)%float in
  let b := (1, 1)%float in
  let c := (0x1.658203c37d4c0p-4, 0x1.658203c37d4bep-4)%float in
  let d := (0x1.b2c101e1bea60p-3, 0x1.b2c101e1bea5fp-3)%float in
  parallel (segment_to_Q (a, b)) (segment_to_Q (c, d)) /\
  ~ on_line_of (segment_to_Q (a, b)) (point_to_Q c) /\
  ~ overlapping (segment_to_Q (a, b)) (segment_to_Q (c, d)) /\
  segments_intersect (a, b) (c, d) = true.
Proof.
  cbv zeta.
  assert (P : parallel (segment_to_Q ((0, 0), (1, 1))%float)
                (segment_to_Q ((0x1.658203c37d4c0p-4, 0x1.658203c37d4bep-4),
                               (0x1.b2c101e1bea60p-3, 0x1.b2c101e1bea5fp-3))%float))
    by (vm_compute; reflexivity).
  assert (N : ~ on_line_of (segment_to_Q ((0, 0), (1, 1))%float)
                (point_to_Q (0x1.658203c37d4c0p-4, 0x1.658203c37d4bep-4)%float))
    by (vm_compute; discriminate).
  repeat split; auto.
  - now apply Q_parallel_no_common_point.
Qed.

(** C4 (as amended).  [segments_intersect] returns true whenever a
    computed orientation is zero and the corresponding end point is in the
    box of the other segment; in exact arithmetic this is the case for
    every pair of segments of one line that have a common point; in
    binary64, segments_intersect(((0,0),(2,0)), ((1,0),(3,0))) is true. *)
Theorem C4_collinear_overlapping :
  (forall (T : Type) (N : PyArith T) (a b c d : Point T),
      eqb (cross_product a c d) zero && on_segment c a d
      || eqb (cross_product b c d) zero && on_segment c b d
      || eqb (cross_product c a b) zero && on_segment a c b
      || eqb (cross_product d a b) zero && on_segment a d b = true ->
      segments_intersect (a, b) (c, d) = true) /\
  (forall a b c d : Point Q,
      collinear (a, b) (c, d) -> overlapping (a, b) (c, d) ->
      segments_intersect (a, b) (c, d) = true) /\
  segments_intersect ((0, 0), (2, 0))%float ((1, 0), (3, 0))%float = true.
Proof.
  split; [|split].
  - intros T N a b c d. apply segments_intersect_touch.
  - exact Q_collinear_overlapping.
  - vm_compute. reflexivity.
Qed.

(** Four binary64 points of one line, [c] between [a] and [b] and [b]
    between [c] and [d], for which [segments_intersect] returns false: the
    orientations of [b] and [c] round to nonzero values. *)
Lemma C4_counterexample :
  let a := (0x1.e94a86e486730p+2, -0x1.306770bc2c396p+2)%float in
  let b := (0x1.dbe332666a50cp+3, 0x1.f54fff2d608e6p+0)%float in
  let c := (0x1.51246fd3ec760p+3, -0x1.0905baa588286p+1)%float in
  let d := (0x1.eb4db9cc06858p+3, 0x1.33f430b9d2fe4p+1)%float in
  collinear (segment_to_Q (a, b)) (segment_to_Q (c, d)) /\
  overlapping (segment_to_Q (a, b)) (segment_to_Q (c, d)) /\
  segments_intersect (a, b) (c, d) = false.
Proof.
  cbv zeta. split; [|split].
  - exists (point_to_Q (0x1.e94a86e486730p+2, -0x1.306770bc2c396p+2)%float).
    exists (float_to_Q 0x1.51246fd3ec760p+3 - float_to_Q 0x1.e94a86e486730p+2,
            float_to_Q (-0x1.0905baa588286p+1)
            - float_to_Q (-0x1.306770bc2c396p+2)).
    split.
    + intros [E _]. revert E. vm_compute. discriminate.
    + intros x [<-|[<-|[<-|[<-|[]]]]].
      * exists 0. split; vm_compute; reflexivity.
      * exists (5 # 2). split; vm_compute; reflexivity.
      * exists 1. split; vm_compute; reflexivity.
      * exists (8 # 3). split; vm_compute; reflexivity.
  - exists (point_to_Q (0x1.51246fd3ec760p+3, -0x1.0905baa588286p+1)%float).
    split.
    + exists (2 # 5). repeat split; try (vm_compute; reflexivity);
        vm_compute; discriminate.
    + exists 0. repeat split; try (vm_compute; reflexivity);
        vm_compute; discriminate.
  - vm_compute. reflexivity.
Qed.

(** C5 (as amended).  Two segments that share an end point intersect
    according to [segments_intersect] whenever the shared end point has
    finite coordinates and the coordinate differences from it to the other
    end point of the second segment are finite. *)
Theorem C5_shared_endpoint (a b c d : Point float) :
  a = c /\ finite_from a d = true \/
  a = d /\ finite_from a c = true \/
  b = c /\ finite_from b d = true \/
  b = d /\ finite_from b c = true ->
  segments_intersect (a, b) (c, d) = true.
Proof.
  intros Hs. apply segments_intersect_touch.
  destruct Hs as [[<- F]|[[<- F]|[[<- F]|[<- F]]]];
    pose proof (finite_from_comparable _ _ F) as (C0 & C1 & D0 & D1).
  - rewrite (cross_product_at_origin_l _ _ F).
    now rewrite on_segment_first.
  - rewrite (cross_product_at_origin_r _ _ F).
    now rewrite on_segment_last.
  - rewrite (cross_product_at_origin_l _ _ F).
    rewrite on_segment_first by assumption.
    now rewrite !orb_true_r.
  - rewrite (cross_product_at_origin_r _ _ F).
    rewrite on_segment_last by assumption.
    now rewrite !orb_true_r.
Qed.

Lemma C5_witness :
  segments_intersect ((0, 0), (1, 1))%float ((1, 1), (2, 0))%float = true.
Proof.
  apply (C5_shared_endpoint (0, 0)%float (1, 1)%float (1, 1)%float (2, 0)%float).
  right. right. left. split; reflexivity.
Defined.

(** Two segments that meet in their common end point only, and that
    [segments_intersect] takes for disjoint in binary64: the difference of
    the ordinates overflows, so every orientation is NaN or infinite. *)
Lemma C5_counterexample :
  let a := (-1, 0x1p1023)%float in
  let b := (0, -0x1p1023)%float in
  let d := (1, 0x1p1023)%float in
  (forall x : Point Q,
      lies_on x (segment_to_Q (a, b)) -> lies_on x (segment_to_Q (b, d)) ->
      fst x == fst (point_to_Q b) /\ snd x == snd (point_to_Q b)) /\
  segments_intersect (a, b) (b, d) = false.
Proof.
  cbv zeta. split; [|vm_compute; reflexivity].
  intros x (t & T0 & T1 & X0 & X1) (s & S0 & S1 & Y0 & Y1).
  unfold segment_to_Q, point_to_Q in *. cbn [fst snd] in *.
  assert (E1 : float_to_Q (-1) == -1) by (vm_compute; reflexivity).
  assert (E0 : float_to_Q 0 == 0) by (vm_compute; reflexivity).
  assert (E2 : float_to_Q 1 == 1) by (vm_compute; reflexivity).
  assert (EM : float_to_Q (-0x1p1023) == - float_to_Q 0x1p1023)
    by (vm_compute; reflexivity).
  assert (PM : 0 < float_to_Q 0x1p1023) by (vm_compute; reflexivity).
  rewrite ?E0, ?E1, ?E2, ?EM in *.
  set (M := float_to_Q 0x1p1023) in *.
  assert (Et : t == 1) by lra.
  split; [lra|].
  rewrite X1. rewrite Et. ring.
Qed.

(** C6 (as amended).  In real arithmetic [point_to_segment_distance]
    returns the Euclidean distance from the point to the point of the
    segment at the projection parameter clamped to [0, 1], and the plain
    distance to the end point when the two end points coincide.  In
    binary64 a segment whose end points coincide and are finite is measured
    by [distance], and point_to_segment_distance((1,1), ((0,0),(2,0))) is
    1.0. *)
Theorem C6_distance_to_clamped_projection :
  (forall point p1 p2 : Point R,
      p1 <> p2 ->
      point_to_segment_distance point (p1, p2) =
      euclidean_distance point
        (point_at (p1, p2) (clamp01 (projection_parameter point (p1, p2))))) /\
  (forall point p : Point R,
      point_to_segment_distance point (p, p) = euclidean_distance point p) /\
  (forall point p : Point float,
      is_finite (fst p) = true -> is_finite (snd p) = true ->
      point_to_segment_distance point (p, p) = distance point p) /\
  point_to_segment_distance (1, 1)%float ((0, 0), (2, 0))%float = 1%float.
Proof.
  split; [exact R_point_to_segment_distance|].
  split; [exact R_point_to_point_distance|].
  split; [exact float_point_to_point_distance|].
  vm_compute. reflexivity.
Qed.

(** A point at distance 1 from the middle of a horizontal segment, for
    which [point_to_segment_distance] returns NaN in binary64: the squared
    length of the segment overflows. *)
Lemma C6_counterexample :
  let point := (0, 0)%float in
  let segment := ((-0x1p600, 1), (0x1p600, 1))%float in
  point_to_segment_distance (point_to_R point) (segment_to_R segment) = 1%R /\
  is_nan (point_to_segment_distance point segment) = true.
Proof.
  cbv zeta. split; [|vm_compute; reflexivity].
  unfold segment_to_R, point_to_R. cbn [fst snd].
  rewrite (float_to_R_eq 0 0) by (vm_compute; reflexivity).
  rewrite (float_to_R_eq 1 1) by (vm_compute; reflexivity).
  rewrite (float_to_R_eq (-0x1p600) (- float_to_Q 0x1p600))
    by (vm_compute; reflexivity).
  rewrite Qreals.Q2R_opp. fold (float_to_R 0x1p600).
  replace (Q2R 0) with 0%R by (unfold Q2R; simpl; lra).
  replace (Q2R 1) with 1%R by (unfold Q2R; simpl; lra).
  apply R_distance_above_middle.
  replace 0%R with (Q2R 0) by (unfold Q2R; simpl; lra).
  apply Qreals.Qlt_Rlt. vm_compute. reflexivity.
Qed.

(** C7 (as amended).  A feature that has [properties.name],
    [properties.id] and a geometry whose type is not "MultiLineString" is
    skipped without an error: the loop body leaves both lists as they are,
    and the analysis of a document is the same with and without the
    feature. *)
Theorem C7_other_geometry_skipped
  (feature properties name id geometry type : json) :
  getitem feature (SKey "properties") = Ok properties ->
  getitem properties (SKey "name") = Ok name ->
  getitem properties (SKey "id") = Ok id ->
  getitem feature (SKey "geometry") = Ok geometry ->
  getitem geometry (SKey "type") = Ok type ->
  is_MultiLineString type = false ->
  (forall st, check_feature feature st = Ok st) /\
  (forall before after,
      analyze (document (before ++ feature :: after)) =
      analyze (document (before ++ after))).
Proof.
  intros Hp Hn Hi Hg Ht Hm.
  assert (Hskip : forall st, check_feature feature st = Ok st).
  { intros st. unfold check_feature.
    rewrite Hp. simpl. rewrite Hn. simpl. rewrite Hi. simpl.
    rewrite Hg. simpl. rewrite Ht. simpl. now rewrite Hm. }
  split; [exact Hskip|].
  intros before after. unfold analyze, document. simpl.
  rewrite !for_each_app. simpl.
  destruct (for_each check_feature before ([], [])) as [st|e]; simpl;
    [|reflexivity].
  now rewrite Hskip.
Qed.

Lemma C7_witness :
  let feature := feature_json "Harbour" "site-1" "Point" [] in
  (forall st, check_feature feature st = Ok st) /\
  (forall before after,
      analyze (document (before ++ feature :: after)) =
      analyze (document (before ++ after))).
Proof.
  exact (C7_other_geometry_skipped
           (feature_json "Harbour" "site-1" "Point" [])
           (JObj [("name", JStr "Harbour"); ("id", JStr "site-1")])
           (JStr "Harbour") (JStr "site-1")
           (JObj [("type", JStr "Point"); ("coordinates", JArr [])])
           (JStr "Point")
           eq_refl eq_refl eq_refl eq_refl eq_refl eq_refl).
Defined.

(** A feature whose geometry type is "Point" and that has no name: the
    loop body raises KeyError, and the run ends with status 1. *)
Lemma C7_counterexample :
  (exists geometry,
      getitem unnamed_point (SKey "geometry") = Ok geometry /\
      getitem geometry (SKey "type") = Ok (JStr "Point")) /\
  (forall st, check_feature unnamed_point st = Raise (KeyError (SKey "name"))) /\
  fst (main (H := no_repr) (world_of (document [unnamed_point]))) = 1%Z.
Proof.
  split; [|split].
  - eexists. split; reflexivity.
  - intros st. reflexivity.
  - vm_compute. reflexivity.
Qed.

(** C8.  An exception raised by [check_intersections] -- while the file is
    opened and decoded, during the analysis or the report -- is caught by
    the main block, which prints its message on the standard output and
    the stack trace on the standard error and exits with status 1; a
    missing file and malformed JSON raise such exceptions.  When
    [check_intersections] returns, the main block prints the closing line
    and the status is 0. *)
Theorem C8_top_level_handler `{PyRepr} (w : world) :
  match check_intersections w with
  | (Raise error, w') =>
      main w = (1%Z, {| infrastructure_file := infrastructure_file w';
                        stdout := stdout w' ++ [LError error];
                        stderr := stderr w' ++ [LTraceback error] |})
  | (Ok _, w') =>
      main w = (0%Z, {| infrastructure_file := infrastructure_file w';
                        stdout := stdout w' ++ [LAnalysisComplete];
                        stderr := stderr w' |})
  end /\
  (infrastructure_file w = Missing ->
   fst (check_intersections w) = Raise FileNotFoundError) /\
  (infrastructure_file w = Malformed ->
   fst (check_intersections w) = Raise JSONDecodeError) /\
  (forall data error,
      infrastructure_file w = Document data ->
      analyze data = Raise error ->
      fst (check_intersections w) = Raise error).
Proof.
  split; [|split; [|split]].
  - unfold main. destruct (check_intersections w) as [[r|e] w']; reflexivity.
  - intros F. rewrite check_intersections_report. unfold report.
    now rewrite F.
  - intros F. rewrite check_intersections_report. unfold report.
    now rewrite F.
  - intros data e F A. rewrite check_intersections_report. unfold report.
    now rewrite F, A.
Qed.

(** C9.  The analysis is a function of the decoded document and leaves the
    world as it is; a run of [check_intersections] depends on the world
    through the file only, leaves the file and the standard error as they
    are and only appends to the standard output; two runs in a row return
    the same lists in the same order (or raise the same exception) and
    print the same lines. *)
Theorem C9_deterministic `{PyRepr} (w : world) :
  (forall data, lift (analyze data) w = (analyze data, w)) /\
  (forall w0, infrastructure_file w0 = infrastructure_file w ->
              fst (check_intersections w0) = fst (check_intersections w)) /\
  let (r1, w1) := check_intersections w in
  let (r2, w2) := check_intersections w1 in
  r1 = r2 /\
  infrastructure_file w2 = infrastructure_file w /\
  stderr w2 = stderr w /\
  exists out, stdout w1 = stdout w ++ out /\ stdout w2 = stdout w1 ++ out.
Proof.
  split; [reflexivity|]. split.
  - intros w0 F. rewrite !check_intersections_report. simpl. now rewrite F.
  - rewrite (check_intersections_report w).
    rewrite (check_intersections_report (printed w _)). simpl.
    repeat split. eexists. split; reflexivity.
Qed.

(** C10 (as amended).  Whenever a run returns, the closestPoint of every
    returned nearby record is one of the three trajectory points: the
    point from which the record's minDistance was measured to a segment of
    that cable.  It is not the point of that segment the distance was
    measured to, unless the distance is zero. *)
Theorem C10_closest_point_is_trajectory_point `{PyRepr}
  (w w' : world) (r : analysis) :
  check_intersections w = (Ok r, w') ->
  exists data cables,
    infrastructure_file w = Document data /\
    decode data = Ok cables /\
    forall x, In x (nearbyCables r) ->
      In (closestPoint x) trajectory_points /\
      exists c seg,
        In c cables /\ segment_of c seg /\
        x = detection c seg (closestPoint x) /\
        (PrimFloat.eqb (minDistance x) 0 = false ->
         closestPoint x <> nearest_point (closestPoint x) seg).
Proof.
  intros Hrun.
  destruct (run_nearby _ _ _ Hrun) as (data & cables & un & F & D & U & En).
  destruct (unique_nearby_spec _ (detection_comparable cables) _ U)
    as (_ & _ & Hkept & _).
  exists data, cables. split; [exact F|]. split; [exact D|].
  intros x Hx. rewrite En in Hx. unfold dict_values in Hx.
  apply in_map_iff in Hx. destruct Hx as ([k v] & <- & Hkv).
  destruct (Hkept _ _ Hkv) as (Hv & _). simpl.
  pose proof (detection_below_threshold _ _ Hv) as L.
  apply in_cable_nearby in Hv.
  destruct Hv as (c & seg & tp & Hc & Hs & Ht & _ & ->).
  simpl in *. split; [exact Ht|].
  exists c, seg. repeat split; auto.
  intros N. eapply nearest_point_differs; eauto.
Qed.

Lemma C10_witness :
  check_intersections (H := no_repr) (world_of two_crossings) =
  (Ok two_crossings_result,
   snd (check_intersections (H := no_repr) (world_of two_crossings))) /\
  exists data cables,
    infrastructure_file (world_of two_crossings) = Document data /\
    decode data = Ok cables /\
    forall x, In x (nearbyCables two_crossings_result) ->
      In (closestPoint x) trajectory_points /\
      exists c seg,
        In c cables /\ segment_of c seg /\
        x = detection c seg (closestPoint x) /\
        (PrimFloat.eqb (minDistance x) 0 = false ->
         closestPoint x <> nearest_point (closestPoint x) seg).
Proof.
  assert (Hrun : check_intersections (H := no_repr) (world_of two_crossings) =
    (Ok two_crossings_result,
     snd (check_intersections (H := no_repr) (world_of two_crossings))))
    by (vm_compute; reflexivity).
  split; [exact Hrun|].
  exact (C10_closest_point_is_trajectory_point _ _ _ Hrun).
Defined.

(** A cable that starts at the first trajectory point: the returned
    closestPoint is that trajectory point, and it lies on the cable
    segment (it is its first end point). *)
Lemma C10_counterexample :
  let seg := ((12.0771658, 54.3374597), (13.0, 55.0))%float in
  let c := {| cable_name := JStr "Baltic B"; cable_id := JStr "cable-b";
              line_strings := [[seg]] |} in
  decode cable_through_point = Ok [c] /\
  fst (check_intersections (H := no_repr) (world_of cable_through_point)) =
  Ok cable_through_point_result /\
  exists x,
    In x (nearbyCables cable_through_point_result) /\
    x = detection c seg (closestPoint x) /\
    lies_on (point_to_Q (closestPoint x)) (segment_to_Q seg).
Proof.
  cbv zeta. split; [vm_compute; reflexivity|].
  split; [vm_compute; reflexivity|].
  eexists. split; [left; reflexivity|].
  split; [vm_compute; reflexivity|].
  exists 0%Q. repeat split; try (vm_compute; reflexivity);
    vm_compute; discriminate.
Qed.

(** * Further properties *)

(** ** Negation in binary64 *)

Open Scope Z_scope.

Lemma SFrank_opp f : SFrank (SFopp f) = option_map rank_opp (SFrank f).
Proof.
  destruct f as [s|s| |s m e]; try destruct s; simpl;
    rewrite ?Z.opp_involutive; reflexivity.
Qed.

Lemma SFnegated_opp f : SFnegated f (SFopp f).
Proof. apply SFrank_opp. Qed.

Lemma rank_opp_involutive t : rank_opp (rank_opp t) = t.
Proof. destruct t as [[a b] c]. simpl. now rewrite !Z.opp_involutive. Qed.

Lemma SFnegated_sym f g : SFnegated f g -> SFnegated g f.
Proof.
  unfold SFnegated. intros ->. destruct (SFrank f); simpl; [|reflexivity].
  now rewrite rank_opp_involutive.
Qed.

Lemma binary_round_aux_sign s mx ex lx :
  binary_round_aux prec emax (negb s) mx ex lx =
  SFopp (binary_round_aux prec emax s mx ex lx).
Proof.
  unfold binary_round_aux.
  destruct (shr_fexp prec emax mx ex lx) as [mrs' e'].
  destruct (shr_fexp prec emax _ e' loc_Exact) as [mrs'' e''].
  destruct (shr_m mrs''); simpl; auto.
  match goal with
  | |- context [if ?c then _ else _] => destruct c
  end; reflexivity.
Qed.

Lemma binary_round_sign s m e :
  binary_round prec emax (negb s) m e = SFopp (binary_round prec emax s m e).
Proof.
  unfold binary_round. destruct (shl_align _ _ _) as [mz ez].
  apply binary_round_aux_sign.
Qed.

Lemma binary_normalize_opp m e :
  SFnegated (binary_normalize prec emax m e false)
            (binary_normalize prec emax (- m) e false).
Proof.
  destruct m as [|p|p]; simpl.
  - reflexivity.
  - change true with (negb false). rewrite binary_round_sign.
    apply SFnegated_opp.
  - apply SFnegated_sym. change true with (negb false).
    rewrite binary_round_sign. apply SFnegated_opp.
Qed.

(** [y - x] is the negation of [x - y]. *)
Lemma SFsub_antisym f g : SFnegated (SF64sub f g) (SF64sub g f).
Proof.
  destruct f as [s|s| |s m e], g as [s'|s'| |s' m' e'];
    try (destruct s, s'; reflexivity); try (destruct s; reflexivity);
    try (destruct s'; reflexivity); try reflexivity;
    try (destruct s, s'; unfold SFnegated; simpl;
         rewrite ?Z.opp_involutive; reflexivity).
  unfold SF64sub, SFsub. rewrite (Z.min_comm e' e).
  match goal with
  | |- SFnegated (binary_normalize _ _ (?A - ?B) _ _) _ =>
      replace (B - A) with (- (A - B)) by ring
  end.
  apply binary_normalize_opp.
Qed.

Lemma SFmul_comm f g : SF64mul f g = SF64mul g f.
Proof.
  destruct f as [s|s| |s m e], g as [s'|s'| |s' m' e']; simpl;
    try reflexivity; try (now rewrite xorb_comm).
  unfold SF64mul, SFmul.
  now rewrite xorb_comm, Pos.mul_comm, Z.add_comm.
Qed.

Lemma SFnegated_inv f f' :
  SFnegated f f' -> f' = SFopp f \/ (zero_valued f /\ zero_valued f').
Proof.
  unfold SFnegated.
  destruct f as [s|s| |s m e], f' as [r|r| |r n d]; simpl; intros E;
    try discriminate; try (right; now split);
    try (destruct s; discriminate); try (destruct r; discriminate);
    try (now left); left.
  - destruct s, r; try discriminate; reflexivity.
  - destruct s, r; inversion E; subst; try reflexivity;
      simpl; f_equal; lia.
Qed.

Lemma SFmul_opp_opp f g : SF64mul (SFopp f) (SFopp g) = SF64mul f g.
Proof.
  destruct f as [s|s| |s m e], g as [s'|s'| |s' m' e']; simpl;
    try reflexivity; now rewrite xorb_negb_negb.
Qed.

(** The rank of a product with a zero depends on the kind of the other
    factor only. *)
Lemma SFmul_zero_rank_l f g :
  zero_valued f ->
  SFrank (SF64mul f g) =
  match SFrank g with
  | Some (a, _, _) => if Z.abs a =? 2 then None else Some (0, 0, 0)
  | None => None
  end.
Proof.
  destruct f as [s| | |]; simpl; try tauto. intros _.
  destruct g as [s'|s'| |s' m' e']; simpl; try reflexivity;
    destruct s'; reflexivity.
Qed.

Lemma SFmul_zero_rank_r f g :
  zero_valued g ->
  SFrank (SF64mul f g) =
  match SFrank f with
  | Some (a, _, _) => if Z.abs a =? 2 then None else Some (0, 0, 0)
  | None => None
  end.
Proof. rewrite SFmul_comm. apply SFmul_zero_rank_l. Qed.

Lemma rank_kind_opp (r : option (Z * Z * Z)) :
  match option_map rank_opp r with
  | Some (a, _, _) => if Z.abs a =? 2 then None else Some (0, 0, 0)
  | None => None
  end =
  match r with
  | Some (a, _, _) => if Z.abs a =? 2 then None else Some (0, 0, 0)
  | None => @None (Z * Z * Z)
  end.
Proof.
  destruct r as [[[a b] c]|]; simpl; [|reflexivity]. now rewrite Z.abs_opp.
Qed.

(** The product of two negated factors is the product. *)
Lemma SFmul_negated f f' g g' :
  SFnegated f f' -> SFnegated g g' ->
  SFsame (SF64mul f' g') (SF64mul f g).
Proof.
  intros Nf Ng. unfold SFsame.
  destruct (SFnegated_inv _ _ Nf) as [->|[Zf Zf']].
  - destruct (SFnegated_inv _ _ Ng) as [->|[Zg Zg']].
    + now rewrite SFmul_opp_opp.
    + now rewrite !SFmul_zero_rank_r, SFrank_opp, rank_kind_opp.
  - rewrite !SFmul_zero_rank_l by assumption.
    rewrite Ng. apply rank_kind_opp.
Qed.

(** The square of a negated number is the square. *)
Lemma SFmul_self_negated f f' :
  SFnegated f f' -> SF64mul f' f' = SF64mul f f.
Proof.
  intros Nf. destruct (SFnegated_inv _ _ Nf) as [->|[Zf Zf']].
  - apply SFmul_opp_opp.
  - destruct f as [s| | |], f' as [r| | |]; simpl in *; try tauto.
    now destruct s, r.
Qed.

Lemma SFsame_zero_test f g :
  SFsame f g -> SFeqb f (S754_zero false) = SFeqb g (S754_zero false).
Proof. unfold SFsame, SFeqb. rewrite !SFcompare_rank. now intros ->. Qed.

Lemma SFsame_negative_test f g :
  SFsame f g -> SFltb f (S754_zero false) = SFltb g (S754_zero false).
Proof. unfold SFsame, SFltb. rewrite !SFcompare_rank. now intros ->. Qed.

Lemma SFnegated_zero_test f g :
  SFnegated f g -> SFeqb g (S754_zero false) = SFeqb f (S754_zero false).
Proof.
  unfold SFnegated, SFeqb. rewrite !SFcompare_rank. intros ->.
  destruct (SFrank f) as [[[a b] c]|]; simpl; [|reflexivity].
  destruct a as [|a|a]; simpl; try reflexivity.
  destruct b as [|b|b]; simpl; try reflexivity.
  destruct c as [|c|c]; simpl; try reflexivity.
Qed.

(** [g < 0] exactly when [0 < f], for [g] the negation of [f]. *)
Lemma SFnegated_sign_test f g :
  SFnegated f g -> SFltb g (S754_zero false) = SFltb (S754_zero false) f.
Proof.
  unfold SFnegated, SFltb. rewrite !SFcompare_rank. intros ->.
  destruct (SFrank f) as [[[a b] c]|]; simpl; [|reflexivity].
  destruct a as [|a|a]; simpl; try reflexivity.
  destruct b as [|b|b]; simpl; try reflexivity.
  destruct c as [|c|c]; simpl; try reflexivity.
Qed.
Close Scope Z_scope.

(** ** Symmetries of the geometry functions in binary64 *)

Lemma cross_product_negated (o a b : Point float) :
  SFnegated (Prim2SF (cross_product o a b)) (Prim2SF (cross_product o b a)).
Proof.
  unfold cross_product. cbn [sub mul float_arith].
  rewrite !sub_spec, !mul_spec, !sub_spec. fold SF64sub SF64mul.
  rewrite (SFmul_comm (SF64sub (Prim2SF (fst b)) (Prim2SF (fst o)))).
  rewrite (SFmul_comm (SF64sub (Prim2SF (snd b)) (Prim2SF (snd o)))).
  apply SFsub_antisym.
Qed.

Lemma cross_product_swap_zero (o a b : Point float) :
  PrimFloat.eqb (cross_product o b a) 0 = PrimFloat.eqb (cross_product o a b) 0.
Proof.
  rewrite !eqb_spec, Prim2SF_zero.
  apply SFnegated_zero_test, cross_product_negated.
Qed.

Lemma cross_product_swap_sign (o a b : Point float) :
  PrimFloat.ltb (cross_product o b a) 0 = PrimFloat.ltb 0 (cross_product o a b).
Proof.
  rewrite !ltb_spec, Prim2SF_zero.
  apply SFnegated_sign_test, cross_product_negated.
Qed.

Lemma cross_product_swap (o a b : Point float) :
  cross_product o b a = (- cross_product o a b)%float \/
  (PrimFloat.eqb (cross_product o a b) 0 = true /\
   PrimFloat.eqb (cross_product o b a) 0 = true).
Proof.
  destruct (SFnegated_inv _ _ (cross_product_negated o a b)) as [E|[Z Z']].
  - left. apply Prim2SF_inj. now rewrite opp_spec.
  - right. split; now apply zero_eqb.
Qed.

Lemma mul_comm (x y : float) : (x * y)%float = (y * x)%float.
Proof. apply Prim2SF_inj. rewrite !mul_spec. apply SFmul_comm. Qed.

Lemma mul_swapped_negative (o a b o' a' b' : Point float) :
  PrimFloat.ltb (cross_product o b a * cross_product o' b' a')%float 0 =
  PrimFloat.ltb (cross_product o a b * cross_product o' a' b')%float 0.
Proof.
  rewrite !ltb_spec, !mul_spec, Prim2SF_zero.
  apply SFsame_negative_test.
  apply SFmul_negated; apply cross_product_negated.
Qed.

(** *** NaN *)

Lemma SFsub_not_nan f g :
  SF64sub f g <> S754_nan -> f <> S754_nan /\ g <> S754_nan.
Proof.
  destruct f as [s|s| |s m e], g as [s'|s'| |s' m' e']; simpl;
    intros N; split; congruence.
Qed.

Lemma SFmul_not_nan f g :
  SF64mul f g <> S754_nan -> f <> S754_nan /\ g <> S754_nan.
Proof.
  destruct f as [s|s| |s m e], g as [s'|s'| |s' m' e']; simpl;
    intros N; split; congruence.
Qed.

Lemma eqb_comparable x y :
  PrimFloat.eqb x y = true -> comparable x /\ comparable y.
Proof.
  intros L. float_order. unfold comparable.
  split; intros E; rewrite E in *; discriminate.
Qed.

(** An orientation that is a number was computed from numbers. *)
Lemma cross_product_comparable (o a b : Point float) :
  comparable (cross_product o a b) ->
  (comparable (fst o) /\ comparable (snd o)) /\
  (comparable (fst a) /\ comparable (snd a)) /\
  (comparable (fst b) /\ comparable (snd b)).
Proof.
  unfold comparable, cross_product. cbn [sub mul float_arith].
  rewrite !sub_spec, !mul_spec, !sub_spec. fold SF64sub SF64mul.
  intros N. apply SFsub_not_nan in N. destruct N as [N1 N2].
  apply SFmul_not_nan in N1, N2. destruct N1 as [N1 N1'], N2 as [N2 N2'].
  apply SFsub_not_nan in N1, N1', N2, N2'. tauto.
Qed.

(** ** The box test in binary64 *)

Lemma leb_same_r q x y :
  SFrank (Prim2SF x) = SFrank (Prim2SF y) ->
  PrimFloat.leb q x = PrimFloat.leb q y.
Proof.
  intros E. rewrite !leb_spec. unfold SFleb. rewrite !SFcompare_rank.
  now rewrite E.
Qed.

Lemma leb_same_l q x y :
  SFrank (Prim2SF x) = SFrank (Prim2SF y) ->
  PrimFloat.leb x q = PrimFloat.leb y q.
Proof.
  intros E. rewrite !leb_spec. unfold SFleb. rewrite !SFcompare_rank.
  now rewrite E.
Qed.

Lemma leb_not_comparable_l x y : ~ comparable x -> PrimFloat.leb x y = false.
Proof.
  intros N. rewrite leb_spec. unfold comparable in N.
  destruct (Prim2SF x); try reflexivity; exfalso; apply N; discriminate.
Qed.

Lemma leb_not_comparable_r x y : ~ comparable y -> PrimFloat.leb x y = false.
Proof.
  intros N. rewrite leb_spec. unfold comparable in N.
  destruct (Prim2SF y); try (exfalso; apply N; discriminate).
  now destruct (Prim2SF x).
Qed.

Lemma ltb_not_comparable_l x y : ~ comparable x -> PrimFloat.ltb x y = false.
Proof.
  intros N. rewrite ltb_spec. unfold comparable in N.
  destruct (Prim2SF x); try reflexivity; exfalso; apply N; discriminate.
Qed.

Lemma comparable_dec x : {comparable x} + {~ comparable x}.
Proof.
  unfold comparable. destruct (Prim2SF x); try (left; discriminate).
  right. tauto.
Qed.

Lemma ltb_not_comparable_r x y : ~ comparable y -> PrimFloat.ltb x y = false.
Proof.
  intros N. rewrite ltb_spec. unfold comparable in N.
  destruct (Prim2SF y); try (exfalso; apply N; discriminate).
  now destruct (Prim2SF x).
Qed.

Lemma ltb_not_leb x y :
  PrimFloat.ltb x y = true -> PrimFloat.leb y x = false.
Proof.
  intros L. destruct (PrimFloat.leb y x) eqn:E; [|reflexivity].
  exfalso. float_order; lex_solve.
Qed.

(** Two numbers neither of which is below the other are equal. *)
Lemma not_ltb_same x y :
  comparable x -> comparable y ->
  PrimFloat.ltb x y = false -> PrimFloat.ltb y x = false ->
  SFrank (Prim2SF x) = SFrank (Prim2SF y).
Proof.
  intros Cx Cy L1 L2. apply comparable_rank in Cx, Cy.
  destruct Cx as [t Ht], Cy as [u Hu]. rewrite Ht, Hu. f_equal.
  destruct (lex_compare t u) eqn:E.
  - now apply lex_compare_Eq.
  - apply lex_compare_Lt in E.
    assert (PrimFloat.ltb x y = true)
      by (apply ltb_float_lt; exists t, u; now repeat split).
    congruence.
  - apply lex_compare_Gt in E.
    assert (PrimFloat.ltb y x = true)
      by (apply ltb_float_lt; exists u, t; now repeat split).
    congruence.
Qed.

(** One coordinate of [on_segment]: when [r] is a number, [q] is in the
    range of [p] and [r]. *)
Lemma box_coordinate (p q r : float) :
  comparable r ->
  PrimFloat.leb q (py_max p r) && PrimFloat.leb (py_min p r) q =
  float_between p q r.
Proof.
  intros Cr. unfold py_max, py_min, float_between. cbn [ltb float_arith].
  destruct (comparable_dec p) as [Cp|Np].
  - destruct (PrimFloat.ltb p r) eqn:L1; destruct (PrimFloat.ltb r p) eqn:L2.
    + exfalso. float_order; lex_solve.
    + assert (X : PrimFloat.leb r q && PrimFloat.leb q p = false).
      { destruct (PrimFloat.leb r q) eqn:A, (PrimFloat.leb q p) eqn:B;
          try reflexivity.
        pose proof (leb_trans _ _ _ A B) as C.
        rewrite (ltb_not_leb _ _ L1) in C. discriminate. }
      rewrite X, orb_false_r. apply andb_comm.
    + assert (X : PrimFloat.leb p q && PrimFloat.leb q r = false).
      { destruct (PrimFloat.leb p q) eqn:A, (PrimFloat.leb q r) eqn:B;
          try reflexivity.
        pose proof (leb_trans _ _ _ A B) as C.
        rewrite (ltb_not_leb _ _ L2) in C. discriminate. }
      rewrite X. simpl. apply andb_comm.
    + pose proof (not_ltb_same _ _ Cp Cr L1 L2) as E.
      rewrite <- (leb_same_r q p r E), <- (leb_same_l q p r E).
      destruct (PrimFloat.leb q p), (PrimFloat.leb p q); reflexivity.
  - rewrite (ltb_not_comparable_l p r Np), (ltb_not_comparable_r r p Np).
    rewrite (leb_not_comparable_r q p Np), (leb_not_comparable_l p q Np).
    simpl. now rewrite andb_false_r.
Qed.

(** In binary64 [on_segment(p, q, r)] is the box test, when the coordinates
    of [r] are numbers. *)
Lemma on_segment_box (p q r : Point float) :
  comparable (fst r) -> comparable (snd r) ->
  on_segment p q r =
  float_between (fst p) (fst q) (fst r) &&
  float_between (snd p) (snd q) (snd r).
Proof.
  intros C0 C1. unfold on_segment. cbn [leb float_arith].
  rewrite <- andb_assoc.
  rewrite <- (box_coordinate _ _ _ C0), <- (box_coordinate _ _ _ C1).
  now rewrite !andb_assoc.
Qed.

Lemma float_between_sym x y z : float_between x y z = float_between z y x.
Proof. unfold float_between. apply orb_comm. Qed.

Lemma on_segment_sym (p q r : Point float) :
  comparable (fst p) -> comparable (snd p) ->
  comparable (fst r) -> comparable (snd r) ->
  on_segment r q p = on_segment p q r.
Proof.
  intros P0 P1 R0 R1. rewrite !on_segment_box by assumption.
  now rewrite (float_between_sym (fst r)), (float_between_sym (snd r)).
Qed.

(** ** The two segments and their directions *)

Section Symmetry.
Context {T : Type} `{PyArith T}.

(** The four tests of [segments_intersect] are the same for
    [(seg2, seg1)], in another order. *)
Lemma segments_intersect_sym (seg1 seg2 : LineSegment T) :
  segments_intersect seg1 seg2 = segments_intersect seg2 seg1.
Proof.
  destruct seg1 as [a b], seg2 as [c d]. unfold segments_intersect.
  destruct (ltb (mul (cross_product a c d) (cross_product b c d)) zero),
           (ltb (mul (cross_product c a b) (cross_product d a b)) zero),
           (eqb (cross_product a c d) zero && on_segment c a d),
           (eqb (cross_product b c d) zero && on_segment c b d),
           (eqb (cross_product c a b) zero && on_segment a c b),
           (eqb (cross_product d a b) zero && on_segment a d b);
    reflexivity.
Qed.
End Symmetry.

Lemma zero_test_sides (c a b : Point float) :
  PrimFloat.eqb (cross_product c a b) 0 = true ->
  forall q, on_segment b q a = on_segment a q b.
Proof.
  intros Z q. apply eqb_comparable in Z. destruct Z as [Z _].
  apply cross_product_comparable in Z.
  destruct Z as (_ & [A0 A1] & [B0 B1]). now apply on_segment_sym.
Qed.

(** Reversing the first segment does not change the answer. *)
Lemma segments_intersect_reverse_first (a b c d : Point float) :
  segments_intersect (b, a) (c, d) = segments_intersect (a, b) (c, d).
Proof.
  unfold segments_intersect.
  cbn [sub mul ltb leb eqb zero float_arith].
  change (PrimFloat.mul (cross_product c b a) (cross_product d b a))
    with (cross_product c b a * cross_product d b a)%float.
  rewrite (mul_swapped_negative c a b d a b).
  rewrite (mul_comm (cross_product b c d) (cross_product a c d)).
  rewrite (cross_product_swap_zero c a b), (cross_product_swap_zero d a b).
  destruct (PrimFloat.ltb _ 0 && PrimFloat.ltb _ 0); [reflexivity|].
  destruct (PrimFloat.eqb (cross_product c a b) 0) eqn:Z3;
    [rewrite ?(zero_test_sides c a b Z3)|];
    (destruct (PrimFloat.eqb (cross_product d a b) 0) eqn:Z4;
      [rewrite ?(zero_test_sides d a b Z4)|]);
    destruct (PrimFloat.eqb (cross_product a c d) 0 && on_segment c a d),
             (PrimFloat.eqb (cross_product b c d) 0 && on_segment c b d);
    simpl; try reflexivity;
    destruct (on_segment a c b), (on_segment a d b); reflexivity.
Qed.

Lemma segments_intersect_reverse_second (a b c d : Point float) :
  segments_intersect (a, b) (d, c) = segments_intersect (a, b) (c, d).
Proof.
  rewrite (segments_intersect_sym (a, b) (d, c)).
  rewrite segments_intersect_reverse_first.
  apply segments_intersect_sym.
Qed.

(** ** Distances in binary64 *)

Lemma sub_negated (x y : float) :
  SFnegated (Prim2SF (x - y)) (Prim2SF (y - x)).
Proof. rewrite !sub_spec. apply SFsub_antisym. Qed.

Lemma square_of_difference (x y : float) :
  ((y - x) * (y - x))%float = ((x - y) * (x - y))%float.
Proof.
  apply Prim2SF_inj. rewrite !mul_spec.
  apply SFmul_self_negated, sub_negated.
Qed.

(** [distance] does not depend on the order of the two points. *)
Lemma distance_sym (p q : Point float) : distance p q = distance q p.
Proof.
  unfold distance. cbn [sub mul add sqrt float_arith float_real].
  now rewrite (square_of_difference (fst p) (fst q)),
              (square_of_difference (snd p) (snd q)).
Qed.

Lemma SFsqrt_not_negative f : not_negative (SF64sqrt f).
Proof.
  destruct f as [s|s| |s m e]; simpl; auto.
  - now destruct s.
  - destruct s; simpl; auto. unfold SF64sqrt, SFsqrt.
    destruct (SFsqrt_core_binary prec emax (Z.pos m) e) as [[mz ez] lz].
    apply binary_round_aux_not_negative.
Qed.

Lemma sqrt_not_negative (x : float) :
  PrimFloat.ltb (PrimFloat.sqrt x) 0 = false.
Proof.
  apply not_negative_ltb. rewrite sqrt_spec. apply SFsqrt_not_negative.
Qed.

Lemma distance_not_negative (p q : Point float) :
  PrimFloat.ltb (distance p q) 0 = false.
Proof. apply sqrt_not_negative. Qed.

Lemma point_to_segment_distance_not_negative (point : Point float)
  (segment : LineSegment float) :
  PrimFloat.ltb (point_to_segment_distance point segment) 0 = false.
Proof.
  destruct segment as [p1 p2]. unfold point_to_segment_distance.
  cbn [fst snd sub mul add div sqrt eqb ltb zero one float_arith float_real].
  destruct (PrimFloat.eqb _ 0); [apply distance_not_negative|].
  match goal with
  | |- context [let '(xx, yy) := ?q in _] => destruct q as [xx yy]
  end.
  apply sqrt_not_negative.
Qed.

Lemma zero_comparable : comparable 0%float.
Proof. unfold comparable. rewrite Prim2SF_zero. discriminate. Qed.

(** A distance below a bound is a number from zero up to the bound. *)
Lemma distance_below_bound (point : Point float) (segment : LineSegment float)
  (bound : float) :
  PrimFloat.ltb (point_to_segment_distance point segment) bound = true ->
  PrimFloat.leb 0 (point_to_segment_distance point segment) = true.
Proof.
  intros L. apply ltb_comparable in L. destruct L as [C _].
  apply leb_total; auto using zero_comparable.
  apply point_to_segment_distance_not_negative.
Qed.

(** *** No exception *)

Lemma math_sqrt_sum_of_squares (x y : float) :
  math_sqrt (x * x + y * y)%float = inr (PrimFloat.sqrt (x * x + y * y)%float).
Proof. unfold math_sqrt. now rewrite sqrt_argument_not_negative. Qed.

Lemma distance_raising_returns (p q : Point float) :
  distance_raising p q = inr (distance p q).
Proof. unfold distance_raising. apply math_sqrt_sum_of_squares. Qed.

Lemma point_to_segment_distance_raising_returns (point : Point float)
  (segment : LineSegment float) :
  point_to_segment_distance_raising point segment =
  inr (point_to_segment_distance point segment).
Proof.
  destruct segment as [p1 p2].
  unfold point_to_segment_distance_raising, point_to_segment_distance.
  cbn [fst snd sub mul add div sqrt eqb ltb zero one float_arith float_real].
  destruct (PrimFloat.eqb _ 0) eqn:Z; [apply distance_raising_returns|].
  unfold float_div. rewrite Z.
  match goal with
  | |- context [let '(xx, yy) := ?q in _] => destruct q as [xx yy]
  end.
  apply math_sqrt_sum_of_squares.
Qed.

(** ** A point at the first end point of a segment *)

Open Scope Z_scope.

Lemma shr_1_nonneg mrs : 0 <= shr_m mrs -> 0 <= shr_m (shr_1 mrs).
Proof.
  destruct mrs as [m r s]. simpl.
  destruct m as [|[p|p|]|[p|p|]]; simpl; lia.
Qed.

Lemma iter_shr_1_nonneg p mrs :
  0 <= shr_m mrs -> 0 <= shr_m (SpecFloat.iter_pos shr_1 p mrs).
Proof.
  revert mrs. induction p as [p IH|p IH|]; intros mrs Hm; simpl.
  - apply IH, IH. now apply shr_1_nonneg.
  - now apply IH, IH.
  - now apply shr_1_nonneg.
Qed.

Lemma shr_nonneg mrs e n : 0 <= shr_m mrs -> 0 <= shr_m (fst (shr mrs e n)).
Proof.
  intros Hm. unfold shr. destruct n as [|p|p]; simpl; auto.
  now apply iter_shr_1_nonneg.
Qed.

Lemma round_nearest_even_nonneg m l : 0 <= m -> 0 <= round_nearest_even m l.
Proof.
  intros Hm. unfold round_nearest_even.
  destruct l as [|[| |]]; try destruct (Z.even m); lia.
Qed.

Lemma shr_record_of_loc_m m l : shr_m (shr_record_of_loc m l) = m.
Proof. destruct l as [|[| |]]; reflexivity. Qed.

(** Rounding a magnitude with the sign [+] gives a number not below zero. *)
Lemma binary_round_aux_nonneg mx ex lx :
  0 <= mx -> nonneg_number (binary_round_aux prec emax false mx ex lx).
Proof.
  intros Hm. unfold binary_round_aux, shr_fexp.
  match goal with
  | |- context [shr ?r ex ?n] =>
      pose proof (shr_nonneg r ex n) as H1; destruct (shr r ex n) as [mrs' e']
  end.
  rewrite shr_record_of_loc_m in H1. specialize (H1 Hm). simpl in H1.
  match goal with
  | |- context [shr ?r e' ?n] =>
      pose proof (shr_nonneg r e' n) as H2; destruct (shr r e' n) as [mrs'' e'']
  end.
  rewrite shr_record_of_loc_m in H2.
  specialize (H2 (round_nearest_even_nonneg _ _ H1)). simpl in H2.
  destruct (shr_m mrs'') as [|p|p]; simpl; auto.
  match goal with
  | |- context [if ?c then _ else _] => destruct c
  end; reflexivity.
Qed.

Lemma SFmul_self_nonneg f : real_valued f -> nonneg_number (SF64mul f f).
Proof.
  destruct f as [s|s| |s m e]; simpl; try tauto; intros _.
  unfold SF64mul, SFmul. replace (xorb s s) with false by now destruct s.
  apply binary_round_aux_nonneg. lia.
Qed.

Lemma SFadd_nonneg f g :
  nonneg_number f -> nonneg_number g -> nonneg_number (SF64add f g).
Proof.
  destruct f as [s|s| |s m e], g as [s'|s'| |s' m' e']; simpl; try tauto;
    try (intros -> ->; simpl; auto; fail);
    try (destruct s, s'; simpl; auto; fail);
    try (intros _ ->; simpl; auto; fail);
    try (intros -> _; simpl; auto; fail).
  intros -> ->. unfold SF64add, SFadd. simpl.
  unfold binary_round.
  destruct (shl_align _ _ _) as [mz ez].
  apply binary_round_aux_nonneg. lia.
Qed.

Lemma SFdiv_zero f g :
  zero_valued f -> nonneg_number g -> ~ zero_valued g ->
  zero_valued (SF64div f g).
Proof.
  destruct f as [s| | |]; simpl; try tauto. intros _.
  destruct g as [s'|s'| |s' m' e']; simpl; tauto.
Qed.

Lemma SFadd_zero_r f g :
  real_valued f -> zero_valued g ->
  SF64add f g = f \/ (zero_valued f /\ zero_valued (SF64add f g)).
Proof.
  destruct g as [s'| | |]; simpl; try tauto.
  destruct f as [s|s| |s m e]; simpl; try tauto; intros _ _.
  right. destruct s, s'; simpl; auto.
Qed.

Lemma SFsub_same f g :
  real_valued f -> g = f \/ (zero_valued f /\ zero_valued g) ->
  zero_valued (SF64sub f g).
Proof.
  intros R [->|[Zf Zg]].
  - rewrite SFsub_self_real by assumption. exact I.
  - now apply SFsub_zero.
Qed.

Lemma zero_valued_ltb_0 x :
  zero_valued (Prim2SF x) -> PrimFloat.ltb x 0 = false.
Proof.
  rewrite ltb_spec, Prim2SF_zero. destruct (Prim2SF x); simpl; tauto.
Qed.

Lemma zero_valued_ltb_1 x :
  zero_valued (Prim2SF x) -> PrimFloat.ltb 1 x = false.
Proof.
  rewrite ltb_spec. destruct (Prim2SF x); simpl; tauto.
Qed.

Lemma eqb_0_zero_valued x :
  PrimFloat.eqb x 0 = false -> ~ zero_valued (Prim2SF x).
Proof.
  rewrite eqb_spec, Prim2SF_zero. destruct (Prim2SF x); simpl; try tauto.
  discriminate.
Qed.

Close Scope Z_scope.

(** A point that is the first end point of a segment is at distance zero
    from it, when the end point and the differences to the second end point
    are finite. *)
Lemma distance_from_first_end_point (p1 p2 : Point float) :
  finite_from p1 p2 = true ->
  PrimFloat.eqb (point_to_segment_distance p1 (p1, p2)) 0 = true.
Proof.
  intros F. apply finite_from_real in F. destruct F as (R0 & R1 & RC & RD).
  unfold point_to_segment_distance.
  cbn [fst snd sub mul add div sqrt eqb ltb zero one float_arith float_real].
  destruct p1 as [a0 a1], p2 as [b0 b1]. cbn [fst snd] in *.
  set (C := (b0 - a0)%float) in *. set (D := (b1 - a1)%float) in *.
  assert (ZA : zero_valued (Prim2SF (a0 - a0)))
    by (rewrite sub_self by assumption; exact I).
  assert (ZB : zero_valued (Prim2SF (a1 - a1)))
    by (rewrite sub_self by assumption; exact I).
  destruct (PrimFloat.eqb (C * C + D * D) 0) eqn:L.
  - apply zero_eqb. unfold distance.
    cbn [fst snd sub mul add sqrt float_arith float_real].
    rewrite sqrt_spec, add_spec, !mul_spec.
    apply SFsqrt_zero, SFadd_zero; apply SFmul_zero_l; auto using zero_real.
  - set (param := ((((a0 - a0) * C + (a1 - a1) * D)) / (C * C + D * D))%float).
    assert (ZP : zero_valued (Prim2SF param)).
    { unfold param. rewrite div_spec, !add_spec, !mul_spec.
      apply SFdiv_zero.
      - apply SFadd_zero; apply SFmul_zero_l; auto.
      - apply SFadd_nonneg; apply SFmul_self_nonneg; assumption.
      - rewrite <- !mul_spec, <- add_spec. now apply eqb_0_zero_valued. }
    rewrite (zero_valued_ltb_0 _ ZP), (zero_valued_ltb_1 _ ZP).
    apply zero_eqb. rewrite sqrt_spec, add_spec, !mul_spec.
    assert (ZX : zero_valued (Prim2SF (a0 - (a0 + param * C)))).
    { rewrite sub_spec. apply SFsub_same; [assumption|].
      rewrite add_spec, mul_spec.
      destruct (SFadd_zero_r (Prim2SF a0) (SF64mul (Prim2SF param) (Prim2SF C)))
        as [E|[Z1 Z2]]; auto using SFmul_zero_l. }
    assert (ZY : zero_valued (Prim2SF (a1 - (a1 + param * D)))).
    { rewrite sub_spec. apply SFsub_same; [assumption|].
      rewrite add_spec, mul_spec.
      destruct (SFadd_zero_r (Prim2SF a1) (SF64mul (Prim2SF param) (Prim2SF D)))
        as [E|[Z1 Z2]]; auto using SFmul_zero_l. }
    apply SFsqrt_zero, SFadd_zero; apply SFmul_zero_l; auto using zero_real.
Qed.

(** ** Segment intersection in exact arithmetic *)

Lemma Q_on_line_param (a b c : Point Q) :
  cross_product c a b == 0 ->
  ~ (fst a == fst b /\ snd a == snd b) ->
  exists t : Q, fst c == fst a + t * (fst b - fst a) /\
                snd c == snd a + t * (snd b - snd a).
Proof.
  rewrite Q_cross_product.
  destruct a as [a0 a1], b as [b0 b1], c as [c0 c1]. cbn [fst snd].
  intros Z N.
  destruct (Qeq_dec b0 a0) as [E0|E0].
  - assert (E1 : ~ b1 - a1 == 0) by (intros E1; apply N; split; lra).
    exists ((c1 - a1) / (b1 - a1)). split.
    + assert (Hc : (c0 - a0) * (b1 - a1) == 0) by nra.
      apply Qmult_integral in Hc. destruct Hc as [Hc|Hc]; [|tauto].
      rewrite E0. lra.
    + field. exact E1.
  - assert (E0' : ~ b0 - a0 == 0) by lra.
    exists ((c0 - a0) / (b0 - a0)). split.
    + field. exact E0'.
    + assert (Hc : (c1 - a1) * (b0 - a0) == (c0 - a0) * (b1 - a1)) by nra.
      transitivity (a1 + ((c1 - a1) * (b0 - a0)) / (b0 - a0)).
      * field. exact E0'.
      * rewrite Hc. field. exact E0'.
Qed.

(** A point on the line through the end points of a segment and inside its
    box is a point of the segment. *)
Lemma Q_on_segment_lies_on (p q r : Point Q) :
  cross_product q p r == 0 -> on_segment p q r = true -> lies_on q (p, r).
Proof.
  intros Z B. apply Q_on_segment_iff in B. destruct B as [B0 B1].
  unfold lies_on. cbn [fst snd].
  destruct (Qeq_dec (fst p) (fst r)) as [E0|E0];
    [destruct (Qeq_dec (snd p) (snd r)) as [E1|E1]|].
  - exists 0. unfold Qbetween in *. repeat split; lra.
  - destruct (Q_on_line_param p r q Z) as (t & T0 & T1); [tauto|].
    exists t. repeat split; auto; unfold Qbetween in *.
    + destruct (Qlt_le_dec (snd p) (snd r)); nra.
    + destruct (Qlt_le_dec (snd p) (snd r)); nra.
  - destruct (Q_on_line_param p r q Z) as (t & T0 & T1); [tauto|].
    exists t. repeat split; auto; unfold Qbetween in *.
    + destruct (Qlt_le_dec (fst p) (fst r)); nra.
    + destruct (Qlt_le_dec (fst p) (fst r)); nra.
Qed.

(** A point of a segment is inside its box and on its line. *)
Lemma Q_lies_on_on_segment (p q r : Point Q) :
  lies_on q (p, r) -> cross_product q p r == 0 /\ on_segment p q r = true.
Proof.
  intros (t & T0 & T1 & X0 & X1). cbn [fst snd] in *. split.
  - rewrite Q_cross_product. rewrite X0, X1. ring.
  - apply Q_on_segment_iff. unfold Qbetween. rewrite X0, X1. split.
    + destruct (Qlt_le_dec (fst p) (fst r)); nra.
    + destruct (Qlt_le_dec (snd p) (snd r)); nra.
Qed.

Lemma lies_on_first (p r : Point Q) : lies_on p (p, r).
Proof. exists 0. cbn [fst snd]. repeat split; lra. Qed.

Lemma lies_on_last (p r : Point Q) : lies_on r (p, r).
Proof. exists 1. cbn [fst snd]. repeat split; lra. Qed.

(** Two segments whose end points are strictly on opposite sides of each
    other's line cross in a point of both. *)
Lemma Q_proper_crossing (a b c d : Point Q) :
  cross_product a c d * cross_product b c d < 0 ->
  cross_product c a b * cross_product d a b < 0 ->
  overlapping (a, b) (c, d).
Proof.
  rewrite !Q_cross_product.
  destruct a as [a0 a1], b as [b0 b1], c as [c0 c1], d as [d0 d1].
  cbn [fst snd]. intros G1 G2.
  set (o1 := (c0 - a0) * (d1 - a1) - (c1 - a1) * (d0 - a0)) in *.
  set (o2 := (c0 - b0) * (d1 - b1) - (c1 - b1) * (d0 - b0)) in *.
  set (o3 := (a0 - c0) * (b1 - c1) - (a1 - c1) * (b0 - c0)) in *.
  set (o4 := (a0 - d0) * (b1 - d1) - (a1 - d1) * (b0 - d0)) in *.
  set (D := (b0 - a0) * (d1 - c1) - (b1 - a1) * (d0 - c0)).
  assert (H12 : o1 - o2 == D) by (unfold o1, o2, D; ring).
  assert (H34 : o3 - o4 == - D) by (unfold o3, o4, D; ring).
  assert (ND : ~ D == 0) by nra.
  set (s := o1 / D). set (u := - o3 / D).
  assert (Hs : s * D == o1) by (unfold s; field; exact ND).
  assert (Hu : u * D == - o3) by (unfold u; field; exact ND).
  assert (Bs : 0 <= s /\ s <= 1).
  { clearbody s u o1 o2 o3 o4 D.
    destruct (Qlt_le_dec 0 o1); destruct (Qlt_le_dec 0 D); split; nra. }
  assert (Bu : 0 <= u /\ u <= 1).
  { clearbody s u o1 o2 o3 o4 D.
    destruct (Qlt_le_dec 0 o3); destruct (Qlt_le_dec 0 D); split; nra. }
  exists (a0 + s * (b0 - a0), a1 + s * (b1 - a1)). split.
  - exists s. cbn [fst snd]. repeat split; try reflexivity; tauto.
  - exists u. cbn [fst snd]. split; [tauto|split; [tauto|split]].
    + unfold s, u, o1, o3, D. field. exact ND.
    + unfold s, u, o1, o3, D. field. exact ND.
Qed.

Lemma lies_on_eq (x y : Point Q) (s : LineSegment Q) :
  fst x == fst y -> snd x == snd y -> lies_on x s -> lies_on y s.
Proof.
  intros E0 E1 (t & T0 & T1 & X0 & X1). exists t.
  rewrite <- E0, <- E1. auto.
Qed.

(** Whenever [segments_intersect] answers true over the rationals, the two
    segments have a common point. *)
Lemma Q_intersect_common_point (a b c d : Point Q) :
  segments_intersect (a, b) (c, d) = true -> overlapping (a, b) (c, d).
Proof.
  intros S. apply Q_segments_intersect_iff in S.
  destruct S as [[G1 G2]|[[Z B]|[[Z B]|[[Z B]|[Z B]]]]].
  - now apply Q_proper_crossing.
  - exists a. split; [apply lies_on_first|now apply Q_on_segment_lies_on].
  - exists b. split; [apply lies_on_last|now apply Q_on_segment_lies_on].
  - exists c. split; [now apply Q_on_segment_lies_on|apply lies_on_first].
  - exists d. split; [now apply Q_on_segment_lies_on|apply lies_on_last].
Qed.

(** Whenever two segments have a common point, [segments_intersect] answers
    true over the rationals. *)
Lemma Q_common_point_intersect (a b c d : Point Q) :
  overlapping (a, b) (c, d) -> segments_intersect (a, b) (c, d) = true.
Proof.
  intros Hov. pose proof Hov as (x & L1 & L2).
  pose proof L1 as (s & S0 & S1 & X0 & X1).
  pose proof L2 as (u & U0 & U1 & Y0 & Y1).
  cbn [fst snd] in *.
  assert (E1 : (1 - s) * cross_product a c d + s * cross_product b c d == 0).
  { rewrite !Q_cross_product. rewrite X0 in Y0. rewrite X1 in Y1.
    destruct a as [a0 a1], b as [b0 b1], c as [c0 c1], d as [d0 d1].
    cbn [fst snd] in *.
    transitivity
      ((d0 - c0) * (a1 + s * (b1 - a1) - (c1 + u * (d1 - c1)))
       - (d1 - c1) * (a0 + s * (b0 - a0) - (c0 + u * (d0 - c0))));
      [ring|rewrite Y0, Y1; ring]. }
  assert (E2 : (1 - u) * cross_product c a b + u * cross_product d a b == 0).
  { rewrite !Q_cross_product. rewrite X0 in Y0. rewrite X1 in Y1.
    destruct a as [a0 a1], b as [b0 b1], c as [c0 c1], d as [d0 d1].
    cbn [fst snd] in *.
    transitivity
      ((b1 - a1) * (a0 + s * (b0 - a0) - (c0 + u * (d0 - c0)))
       - (b0 - a0) * (a1 + s * (b1 - a1) - (c1 + u * (d1 - c1))));
      [ring|rewrite Y0, Y1; ring]. }
  assert (H : cross_product a c d - cross_product b c d ==
              - (cross_product c a b - cross_product d a b)).
  { rewrite !Q_cross_product. ring. }
  apply Q_segments_intersect_iff.
  set (o1 := cross_product a c d) in *. set (o2 := cross_product b c d) in *.
  set (o3 := cross_product c a b) in *. set (o4 := cross_product d a b) in *.
  destruct (Qeq_dec o1 0) as [Z1|N1]; destruct (Qeq_dec o2 0) as [Z2|N2].
  - (* both end points of the first segment on the line of the second *)
    assert (Z3 : o3 == 0) by (clearbody o1 o2 o3 o4; nra).
    assert (Z4 : o4 == 0) by (clearbody o1 o2 o3 o4; nra).
    destruct (Qeq_dec (fst a) (fst b)) as [A0|A0];
      [destruct (Qeq_dec (snd a) (snd b)) as [A1|A1]|].
    + right. left. split; [exact Z1|].
      apply (Q_lies_on_on_segment c a d).
      apply (lies_on_eq x a); auto.
      * rewrite X0, A0. ring.
      * rewrite X1, A1. ring.
    + apply Q_segments_intersect_iff. apply Q_collinear_overlapping; auto.
      exists a, (fst b - fst a, snd b - snd a). cbn [fst snd]. split.
      * intros [_ Hv]. apply A1. lra.
      * intros y [<-|[<-|[<-|[<-|[]]]]].
        -- exists 0. split; ring.
        -- exists 1. split; ring.
        -- apply Q_on_line_param; [exact Z3|tauto].
        -- apply Q_on_line_param; [exact Z4|tauto].
    + apply Q_segments_intersect_iff. apply Q_collinear_overlapping; auto.
      exists a, (fst b - fst a, snd b - snd a). cbn [fst snd]. split.
      * intros [Hv _]. apply A0. lra.
      * intros y [<-|[<-|[<-|[<-|[]]]]].
        -- exists 0. split; ring.
        -- exists 1. split; ring.
        -- apply Q_on_line_param; [exact Z3|tauto].
        -- apply Q_on_line_param; [exact Z4|tauto].
  - right. left. split; [exact Z1|].
    assert (Hs : s == 0).
    { assert (M : s * o2 == 0) by (clearbody o1 o2 o3 o4; nra).
      apply Qmult_integral in M. tauto. }
    apply (Q_lies_on_on_segment c a d). apply (lies_on_eq x a); auto.
    + rewrite X0, Hs. ring.
    + rewrite X1, Hs. ring.
  - right. right. left. split; [exact Z2|].
    assert (Hs : s == 1).
    { assert (M : (1 - s) * o1 == 0) by (clearbody o1 o2 o3 o4; nra).
      apply Qmult_integral in M. destruct M; [lra|tauto]. }
    apply (Q_lies_on_on_segment c b d). apply (lies_on_eq x b); auto.
    + rewrite X0, Hs. ring.
    + rewrite X1, Hs. ring.
  - destruct (Qeq_dec o3 0) as [Z3|N3]; destruct (Qeq_dec o4 0) as [Z4|N4].
    + exfalso. assert (o1 == o2) by (clearbody o1 o2 o3 o4; lra).
      assert (M : o1 == 0) by (clearbody o1 o2 o3 o4; nra). tauto.
    + right. right. right. left. split; [exact Z3|].
      assert (Hu : u == 0).
      { assert (M : u * o4 == 0) by (clearbody o1 o2 o3 o4; nra).
        apply Qmult_integral in M. tauto. }
      apply (Q_lies_on_on_segment a c b). apply (lies_on_eq x c); auto.
      * rewrite Y0, Hu. ring.
      * rewrite Y1, Hu. ring.
    + right. right. right. right. split; [exact Z4|].
      assert (Hu : u == 1).
      { assert (M : (1 - u) * o3 == 0) by (clearbody o1 o2 o3 o4; nra).
        apply Qmult_integral in M. destruct M; [lra|tauto]. }
      apply (Q_lies_on_on_segment a d b). apply (lies_on_eq x d); auto.
      * rewrite Y0, Hu. ring.
      * rewrite Y1, Hu. ring.
    + left. clearbody o1 o2 o3 o4. clear Hov L1 L2 X0 X1 Y0 Y1 H. split.
      * destruct (Qlt_le_dec 0 o1), (Qlt_le_dec 0 o2); nra.
      * destruct (Qlt_le_dec 0 o3), (Qlt_le_dec 0 o4); nra.
Qed.

(** ** The nearest point of a segment, in real arithmetic *)

Open Scope R_scope.

Lemma clamp01_range t : 0 <= clamp01 t <= 1.
Proof.
  unfold clamp01. split.
  - apply Rmax_l.
  - apply Rmax_lub; [lra|apply Rmin_l].
Qed.

Lemma point_at_degenerate (p : Point R) t : point_at (p, p) t = p.
Proof.
  destruct p as [a0 a1]. unfold point_at. cbn [fst snd]. f_equal; ring.
Qed.

(** The squared distance to the point at the clamped projection parameter is
    the least among the points of the segment. *)
Lemma clamped_projection_nearest (A B C D t : R) :
  C * C + D * D <> 0 -> 0 <= t <= 1 ->
  let tc := clamp01 ((A * C + B * D) / (C * C + D * D)) in
  (A - tc * C) * (A - tc * C) + (B - tc * D) * (B - tc * D) <=
  (A - t * C) * (A - t * C) + (B - t * D) * (B - t * D).
Proof.
  intros NL Ht. cbv zeta.
  set (L := C * C + D * D) in *.
  set (param := (A * C + B * D) / L).
  assert (HL : 0 < L) by (unfold L in *; nra).
  assert (Hd : A * C + B * D = param * L) by (unfold param; field; lra).
  set (tc := clamp01 param).
  assert (E : (A - t * C) * (A - t * C) + (B - t * D) * (B - t * D)
              - ((A - tc * C) * (A - tc * C) + (B - tc * D) * (B - tc * D))
              = L * ((t - tc) * (t + tc - 2 * param))).
  { transitivity ((t * t - tc * tc) * L - 2 * (t - tc) * (A * C + B * D)).
    - unfold L. ring.
    - rewrite Hd. ring. }
  assert (S : 0 <= (t - tc) * (t + tc - 2 * param)).
  { unfold tc, clamp01.
    destruct (Rle_dec param 0) as [P0|P0].
    - rewrite Rmin_right by lra. rewrite Rmax_left by lra. nra.
    - destruct (Rle_dec 1 param) as [P1|P1].
      + rewrite Rmin_left by lra. rewrite Rmax_right by lra.
        assert (0 <= (1 - t) * (2 * param - 1 - t))
          by (apply Rmult_le_pos; lra).
        lra.
      + rewrite Rmin_right by lra. rewrite Rmax_right by lra.
        replace ((t - param) * (t + param - 2 * param))
          with ((t - param) * (t - param)) by ring.
        apply Rle_0_sqr. }
  clearbody tc param L. nra.
Qed.

Lemma R_distance_minimum (point p1 p2 : Point R) :
  exists t0 : R,
    0 <= t0 <= 1 /\
    point_to_segment_distance point (p1, p2) =
    euclidean_distance point (point_at (p1, p2) t0) /\
    forall t : R, 0 <= t <= 1 ->
      point_to_segment_distance point (p1, p2) <=
      euclidean_distance point (point_at (p1, p2) t).
Proof.
  destruct (Req_dec_T (fst p1) (fst p2)) as [E0|E0];
    [destruct (Req_dec_T (snd p1) (snd p2)) as [E1|E1]|].
  - assert (E : p2 = p1) by (destruct p1, p2; cbn in *; congruence).
    subst p2. exists 0. split; [lra|].
    rewrite R_point_to_point_distance. split.
    + now rewrite point_at_degenerate.
    + intros t _. rewrite point_at_degenerate. lra.
  - exists (clamp01 (projection_parameter point (p1, p2))).
    split; [apply clamp01_range|].
    assert (N : p1 <> p2) by congruence.
    rewrite (R_point_to_segment_distance _ _ _ N). split; [reflexivity|].
    intros t Ht. unfold euclidean_distance, point_at, projection_parameter.
    cbn [fst snd]. apply sqrt_le_1_alt.
    destruct point as [x y], p1 as [a0 a1], p2 as [b0 b1]. cbn [fst snd] in *.
    replace (x - (a0 + t * (b0 - a0))) with ((x - a0) - t * (b0 - a0)) by ring.
    replace (y - (a1 + t * (b1 - a1))) with ((y - a1) - t * (b1 - a1)) by ring.
    match goal with
    | |- context [clamp01 ?q] =>
        set (tc := clamp01 q);
        replace (x - (a0 + tc * (b0 - a0))) with ((x - a0) - tc * (b0 - a0))
          by ring;
        replace (y - (a1 + tc * (b1 - a1))) with ((y - a1) - tc * (b1 - a1))
          by ring
    end.
    apply clamped_projection_nearest; [|exact Ht].
    intros Z. apply sum_squares_zero in Z. lra.
  - exists (clamp01 (projection_parameter point (p1, p2))).
    split; [apply clamp01_range|].
    assert (N : p1 <> p2) by congruence.
    rewrite (R_point_to_segment_distance _ _ _ N). split; [reflexivity|].
    intros t Ht. unfold euclidean_distance, point_at, projection_parameter.
    cbn [fst snd]. apply sqrt_le_1_alt.
    destruct point as [x y], p1 as [a0 a1], p2 as [b0 b1]. cbn [fst snd] in *.
    replace (x - (a0 + t * (b0 - a0))) with ((x - a0) - t * (b0 - a0)) by ring.
    replace (y - (a1 + t * (b1 - a1))) with ((y - a1) - t * (b1 - a1)) by ring.
    match goal with
    | |- context [clamp01 ?q] =>
        set (tc := clamp01 q);
        replace (x - (a0 + tc * (b0 - a0))) with ((x - a0) - tc * (b0 - a0))
          by ring;
        replace (y - (a1 + tc * (b1 - a1))) with ((y - a1) - tc * (b1 - a1))
          by ring
    end.
    apply clamped_projection_nearest; [|exact Ht].
    intros Z. apply sum_squares_zero in Z. lra.
Qed.
Close Scope R_scope.

(** ** Line-strings *)

Lemma map_result_Ok {A B} (g : A -> B) (f : A -> result B) (l : list A) :
  (forall x, In x l -> f x = Ok (g x)) -> map_result f l = Ok (map g l).
Proof.
  induction l as [|x l IH]; intros Hf; simpl; [reflexivity|].
  rewrite (Hf x) by now left. simpl.
  rewrite IH by (intros y Hy; apply Hf; now right). reflexivity.
Qed.

Lemma consecutive_nth {A} (d : A) (x : A) (l : list A) :
  map (fun i => (nth i (x :: l) d, nth (S i) (x :: l) d))
      (seq 0 (List.length l)) =
  consecutive (x :: l).
Proof.
  revert x. induction l as [|y l IH]; intros x; [reflexivity|].
  cbn [List.length seq map]. unfold consecutive in *. cbn [tl combine].
  f_equal. rewrite <- seq_shift, map_map. apply IH.
Qed.

Lemma cable_segment_at_positions (ps : list (Point float * list json)) i p q :
  nth_error ps i = Some p -> nth_error ps (i + 1) = Some q ->
  cable_segment_at (JArr (map position_json ps)) i = Ok (fst p, fst q).
Proof.
  intros Hp Hq. unfold cable_segment_at, coordinate, getitem.
  rewrite !nth_error_map, Hp, Hq. simpl.
  destruct p as [[x y] e], q as [[x' y'] e']. reflexivity.
Qed.

(** The segments of a line-string of well-formed positions join each
    position to the next. *)
Lemma decode_line_string_positions (ps : list (Point float * list json)) :
  decode_line_string (JArr (map position_json ps)) =
  Ok (consecutive (map fst ps)).
Proof.
  unfold decode_line_string. cbn [py_len bind]. rewrite length_map.
  destruct ps as [|p ps]; [reflexivity|].
  cbn [List.length]. rewrite Nat.sub_1_r. cbn [Nat.pred].
  rewrite (map_result_Ok
    (fun i => (nth i (map fst (p :: ps)) (fst p),
               nth (S i) (map fst (p :: ps)) (fst p)))).
  - f_equal. cbn [map]. rewrite <- consecutive_nth with (d := fst p).
    now rewrite length_map.
  - intros i Hi. apply in_seq in Hi.
    assert (Hlt : (i + 1 < List.length (p :: ps))%nat) by (simpl; lia).
    destruct (nth_error (p :: ps) i) as [a|] eqn:Ea.
    2:{ apply nth_error_None in Ea. simpl in Ea. lia. }
    destruct (nth_error (p :: ps) (i + 1)) as [b|] eqn:Eb.
    2:{ apply nth_error_None in Eb. lia. }
    rewrite (cable_segment_at_positions _ _ _ _ Ea Eb).
    rewrite Nat.add_1_r in Eb.
    f_equal. f_equal.
    + erewrite nth_error_nth; [reflexivity|].
      now rewrite nth_error_map, Ea.
    + erewrite nth_error_nth; [reflexivity|].
      now rewrite nth_error_map, Eb.
Qed.

(** The records a line-string of well-formed positions adds: those of its
    segments, in order. *)
Lemma check_line_string_positions name id idx
  (ps : list (Point float * list json)) st :
  check_line_string name id idx (JArr (map position_json ps)) st =
  Ok (fold_left (fun st seg => check_cable_segment name id idx seg st)
                (consecutive (map fst ps)) st).
Proof.
  rewrite check_line_string_decode, decode_line_string_positions.
  cbn [bind]. now rewrite fold_check_cable_segment.
Qed.

(** A line-string of fewer than two elements has no segment, whatever the
    elements are. *)
Lemma check_line_string_short name id idx ls n st :
  py_len ls = Ok n -> (n <= 1)%nat ->
  check_line_string name id idx ls st = Ok st.
Proof.
  intros Hn Hle. unfold check_line_string. rewrite Hn. cbn [bind].
  replace (n - 1)%nat with 0%nat by lia. reflexivity.
Qed.

Lemma for_each_skip {A S} (body : A -> S -> result S) (l : list A) :
  (forall x s, In x l -> body x s = Ok s) ->
  forall s, for_each body l s = Ok s.
Proof.
  induction l as [|x l IH]; intros Hb s; simpl; [reflexivity|].
  rewrite Hb by now left. simpl. apply IH.
  intros y s' Hy. apply Hb. now right.
Qed.

Lemma analyze_skip feature :
  (forall st, check_feature feature st = Ok st) ->
  forall before after,
    analyze (document (before ++ feature :: after)) =
    analyze (document (before ++ after)).
Proof.
  intros Hskip before after. unfold analyze, document. simpl.
  rewrite !for_each_app. simpl.
  destruct (for_each check_feature before ([], [])) as [st|e]; simpl;
    [|reflexivity].
  now rewrite Hskip.
Qed.

Lemma short_line_strings_skip
  (feature properties name id geometry type coordinates : json)
  (line_strings : list json) :
  getitem feature (SKey "properties") = Ok properties ->
  getitem properties (SKey "name") = Ok name ->
  getitem properties (SKey "id") = Ok id ->
  getitem feature (SKey "geometry") = Ok geometry ->
  getitem geometry (SKey "type") = Ok type ->
  is_MultiLineString type = true ->
  getitem geometry (SKey "coordinates") = Ok coordinates ->
  py_iter coordinates = Ok line_strings ->
  (forall ls, In ls line_strings ->
              exists n, py_len ls = Ok n /\ (n <= 1)%nat) ->
  (forall st, check_feature feature st = Ok st) /\
  (forall before after,
      analyze (document (before ++ feature :: after)) =
      analyze (document (before ++ after))).
Proof.
  intros Hp Hn Hi Hg Ht Hm Hc Hl Hshort.
  assert (Hskip : forall st, check_feature feature st = Ok st).
  { intros st. unfold check_feature.
    rewrite Hp. simpl. rewrite Hn. simpl. rewrite Hi. simpl.
    rewrite Hg. simpl. rewrite Ht. simpl. rewrite Hm. simpl.
    rewrite Hc. simpl. rewrite Hl. simpl.
    apply for_each_skip. intros [idx ls] s Hin.
    apply in_combine_r in Hin.
    destruct (Hshort ls Hin) as (n & Hlen & Hle).
    now apply (check_line_string_short _ _ _ _ n). }
  split; [exact Hskip|]. now apply analyze_skip.
Qed.

(** ** The report *)

Lemma dict_set_length {K V} (key_eqb : K -> K -> bool) (d : list (K * V)) k v :
  (List.length (dict_set key_eqb d k v) <= S (List.length d))%nat.
Proof.
  induction d as [|[k' v'] d IH]; simpl; [lia|].
  destruct (key_eqb k' k); simpl; lia.
Qed.

Lemma unique_cables_length `{PyRepr} (l : list intersection) :
  (List.length (unique_cables l) <= List.length l)%nat.
Proof.
  induction l as [|x l IH] using rev_ind; [simpl; lia|].
  rewrite unique_cables_snoc, length_app. simpl.
  destruct (dict_get String.eqb (unique_cables l) (intersection_key x));
    rewrite ?length_app; simpl; lia.
Qed.

Lemma dict_set_present_length {K V} (key_eqb : K -> K -> bool)
  (d : list (K * V)) k v v0 :
  dict_get key_eqb d k = Some v0 ->
  List.length (dict_set key_eqb d k v) = List.length d.
Proof.
  induction d as [|[k' v'] d IH]; simpl; [discriminate|].
  destruct (key_eqb k' k); simpl; [reflexivity|]. intros G. now rewrite IH.
Qed.

Lemma unique_nearby_length `{PyRepr} (l : list nearby) d :
  unique_nearby l = Ok d -> (List.length d <= List.length l)%nat.
Proof.
  revert d. induction l as [|x l IH] using rev_ind; intros d Hd.
  - inversion Hd. simpl. lia.
  - rewrite unique_nearby_snoc in Hd.
    destruct (unique_nearby l) as [d0|e]; simpl in Hd; [|discriminate].
    specialize (IH d0 eq_refl). rewrite length_app. simpl.
    destruct (negb (py_hashable (nb_cableId x))); [discriminate|].
    destruct (dict_get py_key_eqb d0 (nb_cableId x)) as [kept|] eqn:G.
    + destruct (PrimFloat.ltb (minDistance x) (minDistance kept));
        inversion Hd; subst; [|lia].
      rewrite (dict_set_present_length _ _ _ _ _ G). lia.
    + inversion Hd; subst. rewrite length_app. simpl. lia.
Qed.

Section Output.
Context `{PyRepr}.

(** What a run that returns has printed. *)
Lemma run_output (w w' : world) (r : analysis) :
  check_intersections w = (Ok r, w') ->
  exists data raw_intersections raw_nearby,
    infrastructure_file w = Document data /\
    analyze data = Ok (raw_intersections, raw_nearby) /\
    stdout w' =
    stdout w ++ header_lines ++ [LResults] ++
    match raw_intersections with
    | [] => [LNoIntersections]
    | _ :: _ =>
        LFoundIntersections (List.length raw_intersections) ::
        flat_map intersection_lines (intersections r)
    end ++
    match raw_nearby with
    | [] => []
    | _ :: _ =>
        LFoundNearby (List.length raw_nearby) ::
        flat_map nearby_lines (nearbyCables r)
    end /\
    stderr w' = stderr w /\
    (List.length (intersections r) <= List.length raw_intersections)%nat /\
    (List.length (nearbyCables r) <= List.length raw_nearby)%nat.
Proof.
  rewrite check_intersections_report. unfold report.
  destruct (infrastructure_file w) as [| |data] eqn:F; try discriminate.
  destruct (analyze data) as [[ri rn]|e] eqn:A; try discriminate.
  intros E. exists data, ri, rn. split; [reflexivity|]. split; [exact A|].
  unfold intersections_report, nearby_report in E.
  destruct ri as [|i ri], rn as [|n rn]; simpl in E;
    try (destruct (unique_nearby (n :: rn)) as [un|e] eqn:U;
         simpl in E; [|discriminate]);
    inversion E; subst; clear E; simpl;
    rewrite ?app_nil_r; repeat split; try lia;
    unfold dict_values; rewrite ?length_map;
    try apply (unique_cables_length (i :: ri));
    try apply (unique_nearby_length (n :: rn) _ U).
Qed.
End Output.

(** ** The records of the analysis *)

Lemma in_combine_seq {A} (l : list A) (k i : nat) (x : A) :
  In (i, x) (combine (seq k (List.length l)) l) <->
  (k <= i)%nat /\ nth_error l (i - k) = Some x.
Proof.
  revert k. induction l as [|y l IH]; intros k; simpl.
  - split; [tauto|]. intros [_ E]. destruct (i - k)%nat; discriminate.
  - rewrite IH. split.
    + intros [E|[Hk E]].
      * inversion E; subst. rewrite Nat.sub_diag. auto.
      * split; [lia|]. replace (i - k)%nat with (S (i - S k)) by lia.
        exact E.
    + intros [Hk E]. destruct (i - k)%nat as [|n] eqn:D.
      * left. inversion E; subst. f_equal. lia.
      * right. split; [lia|]. replace (i - S k)%nat with n by lia. exact E.
Qed.

Lemma in_enumerate {A} (l : list A) (i : nat) (x : A) :
  In (i, x) (enumerate l) <-> nth_error l i = Some x.
Proof.
  unfold enumerate. rewrite in_combine_seq, Nat.sub_0_r.
  split; [tauto|]. intros E. split; [lia|exact E].
Qed.

(** The records appended to [intersections]: one for every line-string of a
    cable, segment of it and trajectory segment that intersect. *)
Lemma in_cable_intersections_iff cables y :
  In y (flat_map cable_intersections cables) <->
  exists c seg_idx segs seg traj_idx ts,
    In c cables /\ nth_error (line_strings c) seg_idx = Some segs /\
    In seg segs /\ nth_error trajectory_segments traj_idx = Some ts /\
    segments_intersect ts seg = true /\
    y = crossing c seg_idx traj_idx.
Proof.
  rewrite in_flat_map. split.
  - intros (c & Hc & Hy). unfold cable_intersections in Hy.
    apply in_flat_map in Hy. destruct Hy as ([idx segs] & Hsegs & Hy).
    apply in_flat_map in Hy. destruct Hy as (seg & Hseg & Hy).
    unfold segment_intersections in Hy.
    apply in_flat_map in Hy. destruct Hy as ([ti ts] & Hts & Hy).
    destruct (segments_intersect ts seg) eqn:S; [|contradiction].
    destruct Hy as [<-|[]].
    apply in_enumerate in Hsegs, Hts.
    exists c, idx, segs, seg, ti, ts. repeat split; auto.
  - intros (c & idx & segs & seg & ti & ts & Hc & Hsegs & Hseg & Hts & S & ->).
    exists c. split; auto. unfold cable_intersections.
    apply in_flat_map. exists (idx, segs). split; [now apply in_enumerate|].
    apply in_flat_map. exists seg. split; auto.
    unfold segment_intersections. apply in_flat_map.
    exists (ti, ts). split; [now apply in_enumerate|].
    rewrite S. now left.
Qed.

Section Returned.
Context `{PyRepr}.

Lemma returned_intersection_appended (l : list intersection) x :
  In x (dict_values (unique_cables l)) -> In x l.
Proof.
  intros Hx. unfold dict_values in Hx. apply in_map_iff in Hx.
  destruct Hx as ([k v] & <- & Hkv).
  destruct (unique_cables_spec l) as (_ & Hin & _).
  destruct (Hin _ _ Hkv) as (_ & before & after & -> & _).
  apply in_or_app. right. now left.
Qed.

(** The returned intersections are crossings, and with string ids every
    crossing line-string is returned. *)
Lemma run_crossings (w w' : world) (r : analysis) :
  check_intersections w = (Ok r, w') ->
  exists data cables,
    infrastructure_file w = Document data /\
    decode data = Ok cables /\
    (forall x, In x (intersections r) ->
       exists c segs seg traj_idx ts,
         In c cables /\
         nth_error (line_strings c) (segmentIndex x) = Some segs /\
         In seg segs /\
         nth_error trajectory_segments traj_idx = Some ts /\
         segments_intersect ts seg = true /\
         x = crossing c (segmentIndex x) traj_idx) /\
    ((forall c, In c cables -> exists s, cable_id c = JStr s) ->
     forall c seg_idx segs seg ts,
       In c cables -> nth_error (line_strings c) seg_idx = Some segs ->
       In seg segs -> In ts trajectory_segments ->
       segments_intersect ts seg = true ->
       exists x, In x (intersections r) /\
                 cableId x = cable_id c /\ segmentIndex x = seg_idx).
Proof.
  intros Hrun.
  destruct (run_intersections _ _ _ Hrun) as (data & cables & F & D & Ei).
  destruct (every_pair_returned _ _ _ Hrun) as (data' & cables' & F' & D' & Hall).
  assert (data' = data) by congruence. subst data'.
  assert (cables' = cables) by congruence. subst cables'.
  exists data, cables. split; [exact F|]. split; [exact D|]. split.
  - intros x Hx. rewrite Ei in Hx.
    apply returned_intersection_appended in Hx.
    apply in_cable_intersections_iff in Hx.
    destruct Hx as (c & idx & segs & seg & ti & ts & Hc & Hs & Hseg & Hts & S & E).
    exists c, segs, seg, ti, ts. subst x. repeat split; auto.
  - intros Hstr c idx segs seg ts Hc Hs Hseg Hts S.
    apply In_nth_error in Hts. destruct Hts as [ti Hts].
    destruct (Hall Hstr (crossing c idx ti)) as (x & Hx & Hp).
    + apply in_cable_intersections_iff.
      exists c, idx, segs, seg, ti, ts. repeat split; auto.
    + exists x. split; [exact Hx|]. unfold cable_segment_pair in Hp.
      simpl in Hp. inversion Hp. auto.
Qed.
End Returned.

(** ** When a run returns *)

Section Outcome.
Context `{PyRepr}.



(** An id that is a list or a dict cannot be a key. *)
Lemma unique_nearby_unhashable (l : list nearby) y :
  In y l -> py_hashable (nb_cableId y) = false ->
  unique_nearby l = Raise TypeError.
Proof.
  unfold unique_nearby. generalize (@nil (json * nearby)).
  induction l as [|x l IH]; intros d Hy Hu; simpl; [contradiction|].
  destruct (py_hashable (nb_cableId x)) eqn:Hx; simpl; [|reflexivity].
  destruct Hy as [->|Hy]; [congruence|].
  destruct (dict_get py_key_eqb d (nb_cableId x)) as [kept|];
    [destruct (PrimFloat.ltb _ _)|]; simpl; now apply IH.
Qed.



(** A detection of a cable whose id is a list or a dict makes the report
    raise TypeError, after the analysis: the status is 1. *)
Lemma run_unhashable (w : world) data cables c seg traj_point :
  infrastructure_file w = Document data ->
  decode data = Ok cables ->
  In c cables -> py_hashable (cable_id c) = false ->
  segment_of c seg -> In traj_point trajectory_points ->
  PrimFloat.ltb (point_to_segment_distance traj_point seg) 0.05 = true ->
  fst (check_intersections w) = Raise TypeError /\ fst (main w) = 1%Z.
Proof.
  intros F D Hc Hu Hseg Htp L.
  assert (Hy : In (detection c seg traj_point) (flat_map cable_nearby cables)).
  { apply in_cable_nearby. exists c, seg, traj_point. auto. }
  pose proof (unique_nearby_unhashable _ _ Hy Hu) as U.
  assert (R : fst (report (Document data)) = Raise TypeError).
  { unfold report. rewrite analyze_decode, D. cbn [bind].
    destruct (intersections_report _) as [kept lines].
    unfold nearby_report.
    destruct (flat_map cable_nearby cables) as [|n rn] eqn:E;
      [contradiction|].
    rewrite U. reflexivity. }
  split.
  - rewrite check_intersections_report, F. exact R.
  - unfold main. rewrite check_intersections_report, F. now rewrite R.
Qed.

(** ** What a failing run prints *)

Lemma failing_run (w : world) (e : exn) (out : list line) :
  report (infrastructure_file w) = (Raise e, out) ->
  check_intersections w = (Raise e, printed w out) /\
  main w = (1%Z, {| infrastructure_file := infrastructure_file w;
                    stdout := stdout w ++ out ++ [LError e];
                    stderr := stderr w ++ [LTraceback e] |}).
Proof.
  intros R.
  assert (E : check_intersections w = (Raise e, printed w out))
    by (rewrite check_intersections_report, R; reflexivity).
  split; [exact E|]. unfold main. rewrite E.
  unfold io_bind, print, print_exc, printed. simpl.
  now rewrite <- app_assoc.
Qed.

(** The first feature that raises ends the analysis, whatever the
    features before it have found and whatever follows. *)
Lemma analyze_first_failure before feature after st e :
  for_each check_feature before ([], []) = Ok st ->
  check_feature feature st = Raise e ->
  analyze (document (before ++ feature :: after)) = Raise e.
Proof.
  intros Hb Hf. unfold analyze, document. simpl.
  rewrite for_each_app, Hb. simpl. now rewrite Hf.
Qed.
End Outcome.

(** ** Ties between detections *)

Lemma ltb_leb_trans x y z :
  PrimFloat.ltb x y = true -> PrimFloat.leb y z = true ->
  PrimFloat.ltb x z = true.
Proof.
  intros L1 L2. apply ltb_float_lt. float_order.
  - eexists _, _. repeat split; eauto. lex_solve.
  - eexists _, _. repeat split; eauto. lex_solve.
Qed.

(** The dict of lines 186-192 holds, for each key, the first detection of
    this key whose distance is least: every earlier one is farther. *)
Lemma unique_nearby_first `{PyRepr} l :
  (forall y, In y l -> comparable (minDistance y)) ->
  forall d, unique_nearby l = Ok d ->
  forall k v, In (k, v) d ->
    exists before after,
      l = before ++ v :: after /\
      forall y, In y before ->
        class_of (nb_cableId y) = class_of (nb_cableId v) ->
        PrimFloat.ltb (minDistance v) (minDistance y) = true.
Proof.
  induction l as [|x l IH] using rev_ind; intros Hc d Hd k v Hkv.
  - inversion Hd; subst. contradiction.
  - rewrite unique_nearby_snoc in Hd.
    destruct (unique_nearby l) as [d0|e] eqn:E0; simpl in Hd;
      [|discriminate].
    assert (Hc0 : forall y, In y l -> comparable (minDistance y))
      by (intros y Hy; apply Hc, in_or_app; now left).
    destruct (unique_nearby_spec l Hc0 d0 E0) as (Hh & ND & Hin & Hall).
    specialize (IH Hc0 d0 eq_refl).
    assert (Hold : forall k v, In (k, v) d0 ->
              exists before after,
                l ++ [x] = before ++ v :: after /\
                forall y, In y before ->
                  class_of (nb_cableId y) = class_of (nb_cableId v) ->
                  PrimFloat.ltb (minDistance v) (minDistance y) = true).
    { intros k0 v0 H0. destruct (IH _ _ H0) as (before & after & -> & Hb).
      exists before, (after ++ [x]). split; [|exact Hb].
      now rewrite <- app_assoc. }
    destruct (py_hashable (nb_cableId x)) eqn:Hx; simpl in Hd; [|discriminate].
    destruct (dict_get py_key_eqb d0 (nb_cableId x)) as [kept|] eqn:G.
    + destruct (jdict_get_Some d0 _ _ Hh Hx G) as (d1 & k' & d2 & Ed & Hk & Hs).
      assert (Hkept : In (k', kept) d0)
        by (rewrite Ed; apply in_or_app; right; now left).
      destruct (Hin _ _ Hkept) as (Kl & Kc & Kmin).
      destruct (PrimFloat.ltb (minDistance x) (minDistance kept)) eqn:L;
        inversion Hd; subst d; clear Hd.
      * rewrite Hs in Hkv. apply in_app_or in Hkv.
        destruct Hkv as [Hi|[Hi|Hi]].
        -- apply (Hold k v). rewrite Ed. apply in_or_app. now left.
        -- inversion Hi; subst k v. exists l, []. split; [reflexivity|].
           intros y Hy Hcy. apply ltb_leb_trans with (minDistance kept); auto.
           apply Kmin; auto. congruence.
        -- apply (Hold k v). rewrite Ed. apply in_or_app. right. now right.
      * now apply (Hold k v).
    + inversion Hd; subst d; clear Hd.
      pose proof (jdict_get_None d0 _ Hh Hx G) as Hn.
      apply in_app_or in Hkv. destruct Hkv as [Hi|[Hi|[]]].
      * now apply (Hold k v).
      * inversion Hi; subst k v. exists l, []. split; [reflexivity|].
        intros y Hy Hcy. exfalso. apply Hn. rewrite <- Hcy. now apply Hall.
Qed.

(** Each returned nearby record is the first detection of its cable, in
    the order of the loops, that has the least distance. *)
Lemma run_first_minimum `{PyRepr} (w w' : world) (r : analysis) :
  check_intersections w = (Ok r, w') ->
  exists data cables,
    infrastructure_file w = Document data /\
    decode data = Ok cables /\
    forall x, In x (nearbyCables r) ->
      exists before after,
        flat_map cable_nearby cables = before ++ x :: after /\
        (forall y, In y before -> same_cable (nb_cableId y) (nb_cableId x) ->
           PrimFloat.ltb (minDistance x) (minDistance y) = true) /\
        (forall y, In y after -> same_cable (nb_cableId y) (nb_cableId x) ->
           PrimFloat.leb (minDistance x) (minDistance y) = true).
Proof.
  intros Hrun.
  destruct (run_nearby _ _ _ Hrun) as (data & cables & d & F & D & U & En).
  exists data, cables. split; [exact F|]. split; [exact D|].
  intros x Hx. rewrite En in Hx. unfold dict_values in Hx.
  apply in_map_iff in Hx. destruct Hx as ([k v] & <- & Hkv). simpl.
  pose proof (detection_comparable cables) as Hc.
  destruct (unique_nearby_first _ Hc d U k v Hkv)
    as (before & after & E & Hb).
  destruct (unique_nearby_spec _ Hc d U) as (_ & _ & Hin & _).
  destruct (Hin _ _ Hkv) as (_ & _ & Hmin).
  exists before, after. split; [exact E|]. split; [exact Hb|].
  intros y Hy Hs. apply Hmin; [|exact Hs].
  rewrite E. apply in_or_app. right. now right.
Qed.

(** * Further properties of the script *)

(** ** The geometry functions *)

(** X1.  [segments_intersect] gives the same answer when its two segments
    are exchanged, for every kind of number, binary64 with NaN and infinities
    included: the four tests are the same, in another order. *)
Theorem X1_segments_intersect_symmetric :
  forall (T : Type) (N : PyArith T) (seg1 seg2 : LineSegment T),
    segments_intersect seg1 seg2 = segments_intersect seg2 seg1.
Proof. intros T N seg1 seg2. apply segments_intersect_sym. Qed.

(** X2.  In binary64 the answer of [segments_intersect] does not depend on
    the direction of either segment: exchanging the two end points of the
    first segment, or of the second, gives the same answer, for all floats
    (NaN and infinities included). *)
Theorem X2_segments_intersect_direction (a b c d : Point float) :
  segments_intersect (b, a) (c, d) = segments_intersect (a, b) (c, d) /\
  segments_intersect (a, b) (d, c) = segments_intersect (a, b) (c, d).
Proof.
  split.
  - apply segments_intersect_reverse_first.
  - apply segments_intersect_reverse_second.
Qed.

(** X3.  In binary64 [cross_product(o, b, a)] is the negation of
    [cross_product(o, a, b)]: the two floats are opposite, or both are
    zeros; so one is zero exactly when the other is, and one is below zero
    exactly when the other is above. *)
Theorem X3_cross_product_antisymmetric (o a b : Point float) :
  (cross_product o b a = (- cross_product o a b)%float \/
   (PrimFloat.eqb (cross_product o a b) 0 = true /\
    PrimFloat.eqb (cross_product o b a) 0 = true)) /\
  PrimFloat.eqb (cross_product o b a) 0 =
  PrimFloat.eqb (cross_product o a b) 0 /\
  PrimFloat.ltb (cross_product o b a) 0 =
  PrimFloat.ltb 0 (cross_product o a b).
Proof.
  split; [apply cross_product_swap|]. split.
  - apply cross_product_swap_zero.
  - apply cross_product_swap_sign.
Qed.

(** X4.  In binary64, when the coordinates of [r] are not NaN,
    [on_segment(p, q, r)] is the bounding-box test: each coordinate of [q]
    is between those of [p] and [r], in one order or the other.  When the
    coordinates of [p] are not NaN either, [p] and [r] can be exchanged. *)
Theorem X4_on_segment_box (p q r : Point float) :
  comparable (fst r) -> comparable (snd r) ->
  on_segment p q r =
  float_between (fst p) (fst q) (fst r) &&
  float_between (snd p) (snd q) (snd r) /\
  (comparable (fst p) -> comparable (snd p) ->
   on_segment r q p = on_segment p q r).
Proof.
  intros C0 C1. split.
  - now apply on_segment_box.
  - intros P0 P1. now apply on_segment_sym.
Qed.

Lemma X4_witness :
  on_segment (0, 0)%float (1, 0)%float (2, 0)%float =
  float_between 0 1 2 && float_between 0 0 0 /\
  (comparable 0%float -> comparable 0%float ->
   on_segment (2, 0)%float (1, 0)%float (0, 0)%float =
   on_segment (0, 0)%float (1, 0)%float (2, 0)%float).
Proof.
  assert (C2 : comparable 2%float)
    by (unfold comparable; vm_compute; discriminate).
  assert (C0 : comparable 0%float)
    by (unfold comparable; vm_compute; discriminate).
  exact (X4_on_segment_box (0, 0)%float (1, 0)%float (2, 0)%float C2 C0).
Defined.

(** X5.  In exact (rational) arithmetic [segments_intersect] is correct:
    it returns true exactly when the two segments have a common point,
    segments of a single point included. *)
Theorem X5_segments_intersect_exact (a b c d : Point Q) :
  segments_intersect (a, b) (c, d) = true <-> overlapping (a, b) (c, d).
Proof.
  split.
  - apply Q_intersect_common_point.
  - apply Q_common_point_intersect.
Qed.

(** X6.  In binary64 [distance(p1, p2)] and [distance(p2, p1)] are the
    same float, for all floats. *)
Theorem X6_distance_symmetric (p1 p2 : Point float) :
  distance p1 p2 = distance p2 p1.
Proof. apply distance_sym. Qed.

(** X7.  In binary64 [distance] and [point_to_segment_distance] never
    return a number below zero (they return NaN or a number from zero up),
    and a distance that is below a bound, as every recorded [minDistance]
    is below 0.05, is at least zero. *)
Theorem X7_distances_not_negative (point p : Point float)
  (segment : LineSegment float) :
  PrimFloat.ltb (distance point p) 0 = false /\
  PrimFloat.ltb (point_to_segment_distance point segment) 0 = false /\
  (forall bound : float,
      PrimFloat.ltb (point_to_segment_distance point segment) bound = true ->
      PrimFloat.leb 0 (point_to_segment_distance point segment) = true).
Proof.
  split; [apply distance_not_negative|]. split.
  - apply point_to_segment_distance_not_negative.
  - intros bound. apply distance_below_bound.
Qed.

(** X8.  [distance] and [point_to_segment_distance] never raise on floats:
    [math.sqrt] is only called on a sum of two squares, which is never below
    zero, and the division is only reached when [len_sq == 0] is false.
    With the exceptions of [/] (ZeroDivisionError) and [math.sqrt]
    (ValueError) written out, both functions return the float computed
    without them. *)
Theorem X8_distances_never_raise (point p : Point float)
  (segment : LineSegment float) :
  distance_raising point p = inr (distance point p) /\
  point_to_segment_distance_raising point segment =
  inr (point_to_segment_distance point segment).
Proof.
  split.
  - apply distance_raising_returns.
  - apply point_to_segment_distance_raising_returns.
Qed.

(** X9.  In real arithmetic [point_to_segment_distance] returns the least
    distance from the point to the points of the segment: it is the
    distance to one point of the segment and at most the distance to every
    point of the segment. *)
Theorem X9_distance_is_minimum (point p1 p2 : Point R) :
  exists t0 : R,
    (0 <= t0 <= 1)%R /\
    point_to_segment_distance point (p1, p2) =
    euclidean_distance point (point_at (p1, p2) t0) /\
    forall t : R, (0 <= t <= 1)%R ->
      (point_to_segment_distance point (p1, p2) <=
       euclidean_distance point (point_at (p1, p2) t))%R.
Proof. apply R_distance_minimum. Qed.

(** X10.  In binary64, a point that is the first end point of a segment is
    at distance exactly zero from the segment, whenever its coordinates and
    the coordinate differences to the second end point are finite. *)
Theorem X10_distance_from_first_end_point (p1 p2 : Point float) :
  finite_from p1 p2 = true ->
  PrimFloat.eqb (point_to_segment_distance p1 (p1, p2)) 0 = true.
Proof. apply distance_from_first_end_point. Qed.

Lemma X10_witness :
  PrimFloat.eqb
    (point_to_segment_distance (12.0771658, 54.3374597)%float
       ((12.0771658, 54.3374597), (13.0, 55.0))%float) 0 = true.
Proof.
  exact (X10_distance_from_first_end_point
           (12.0771658, 54.3374597)%float (13.0, 55.0)%float eq_refl).
Defined.

(** ** The analysis *)

(** X11.  A MultiLineString feature whose line-strings all have fewer than
    two elements is skipped without an error, whatever the elements are
    (they are never read): the loop body leaves both lists as they are and
    the analysis of a document is the same with and without the feature. *)
Theorem X11_short_line_strings_skipped
  (feature properties name id geometry type coordinates : json)
  (line_strings : list json) :
  getitem feature (SKey "properties") = Ok properties ->
  getitem properties (SKey "name") = Ok name ->
  getitem properties (SKey "id") = Ok id ->
  getitem feature (SKey "geometry") = Ok geometry ->
  getitem geometry (SKey "type") = Ok type ->
  is_MultiLineString type = true ->
  getitem geometry (SKey "coordinates") = Ok coordinates ->
  py_iter coordinates = Ok line_strings ->
  (forall ls, In ls line_strings ->
              exists n, py_len ls = Ok n /\ (n <= 1)%nat) ->
  (forall st, check_feature feature st = Ok st) /\
  (forall before after,
      analyze (document (before ++ feature :: after)) =
      analyze (document (before ++ after))).
Proof. apply short_line_strings_skip. Qed.

Lemma X11_witness :
  (forall st, check_feature short_line_strings st = Ok st) /\
  (forall before after,
      analyze (document (before ++ short_line_strings :: after)) =
      analyze (document (before ++ after))).
Proof.
  refine (X11_short_line_strings_skipped
            short_line_strings
            (JObj [("name", JStr "Stub"); ("id", JStr "stub-1")])
            (JStr "Stub") (JStr "stub-1")
            (JObj [ ("type", JStr "MultiLineString");
                    ("coordinates", JArr [ JArr []; JArr [JStr "x"] ]) ])
            (JStr "MultiLineString")
            (JArr [ JArr []; JArr [JStr "x"] ])
            [ JArr []; JArr [JStr "x"] ]
            eq_refl eq_refl eq_refl eq_refl eq_refl eq_refl eq_refl eq_refl
            _).
  intros ls [<-|[<-|[]]].
  - exists 0%nat. split; [reflexivity|lia].
  - exists 1%nat. split; [reflexivity|lia].
Defined.

(** X12.  A line-string of well-formed positions (longitude, latitude and
    possibly more elements, which are ignored) is checked segment by
    segment: the analysis applies lines 146-165 to the segment from each
    position to the next, in order, and raises nothing. *)
Theorem X12_line_string_segments (name id : json) (seg_idx : nat)
  (positions : list (Point float * list json)) (st : found) :
  check_line_string name id seg_idx (JArr (map position_json positions)) st =
  Ok (fold_left (fun st seg => check_cable_segment name id seg_idx seg st)
                (consecutive (map fst positions)) st).
Proof. apply check_line_string_positions. Qed.

(** ** The report *)

(** X13.  A run that returns has printed, after the header, the result
    line, then either the line for no intersection or the number of
    intersection records found before deduplication followed by three lines
    for each returned intersection, in order, then, when there are
    detections, their number before deduplication followed by two lines for
    each returned nearby cable, in order; it has written nothing to the
    standard error; and the returned lists are no longer than the numbers
    printed. *)
Theorem X13_run_output `{PyRepr} (w w' : world) (r : analysis) :
  check_intersections w = (Ok r, w') ->
  exists data raw_intersections raw_nearby,
    infrastructure_file w = Document data /\
    analyze data = Ok (raw_intersections, raw_nearby) /\
    stdout w' =
    stdout w ++ header_lines ++ [LResults] ++
    match raw_intersections with
    | [] => [LNoIntersections]
    | _ :: _ =>
        LFoundIntersections (List.length raw_intersections) ::
        flat_map intersection_lines (intersections r)
    end ++
    match raw_nearby with
    | [] => []
    | _ :: _ =>
        LFoundNearby (List.length raw_nearby) ::
        flat_map nearby_lines (nearbyCables r)
    end /\
    stderr w' = stderr w /\
    (List.length (intersections r) <= List.length raw_intersections)%nat /\
    (List.length (nearbyCables r) <= List.length raw_nearby)%nat.
Proof. apply run_output. Qed.

Lemma X13_witness :
  check_intersections (H := no_repr) (world_of two_crossings) =
  (Ok two_crossings_result,
   snd (check_intersections (H := no_repr) (world_of two_crossings))) /\
  exists data raw_intersections raw_nearby,
    infrastructure_file (world_of two_crossings) = Document data /\
    analyze data = Ok (raw_intersections, raw_nearby) /\
    stdout (snd (check_intersections (H := no_repr) (world_of two_crossings))) =
    stdout (world_of two_crossings) ++ header_lines ++ [LResults] ++
    match raw_intersections with
    | [] => [LNoIntersections]
    | _ :: _ =>
        LFoundIntersections (List.length raw_intersections) ::
        flat_map intersection_lines (intersections two_crossings_result)
    end ++
    match raw_nearby with
    | [] => []
    | _ :: _ =>
        LFoundNearby (List.length raw_nearby) ::
        flat_map nearby_lines (nearbyCables two_crossings_result)
    end /\
    stderr (snd (check_intersections (H := no_repr) (world_of two_crossings))) =
    stderr (world_of two_crossings) /\
    (List.length (intersections two_crossings_result)
     <= List.length raw_intersections)%nat /\
    (List.length (nearbyCables two_crossings_result)
     <= List.length raw_nearby)%nat.
Proof.
  assert (Hrun : check_intersections (H := no_repr) (world_of two_crossings) =
    (Ok two_crossings_result,
     snd (check_intersections (H := no_repr) (world_of two_crossings))))
    by (vm_compute; reflexivity).
  split; [exact Hrun|].
  exact (X13_run_output _ _ _ Hrun).
Defined.

(** X14.  Whenever a run returns, every returned intersection record
    stands for a crossing: its segmentIndex is the index of a line-string
    of a cable with its id and name, a segment of that line-string
    intersects the trajectory segment whose number it carries (1 or 2)
    according to [segments_intersect].  When the cable ids are strings,
    every line-string of a cable with a segment that intersects a
    trajectory segment has a returned record. *)
Theorem X14_returned_intersections_are_crossings `{PyRepr}
  (w w' : world) (r : analysis) :
  check_intersections w = (Ok r, w') ->
  exists data cables,
    infrastructure_file w = Document data /\
    decode data = Ok cables /\
    (forall x, In x (intersections r) ->
       exists c segs seg traj_idx ts,
         In c cables /\
         nth_error (line_strings c) (segmentIndex x) = Some segs /\
         In seg segs /\
         nth_error trajectory_segments traj_idx = Some ts /\
         segments_intersect ts seg = true /\
         x = crossing c (segmentIndex x) traj_idx) /\
    ((forall c, In c cables -> exists s, cable_id c = JStr s) ->
     forall c seg_idx segs seg ts,
       In c cables -> nth_error (line_strings c) seg_idx = Some segs ->
       In seg segs -> In ts trajectory_segments ->
       segments_intersect ts seg = true ->
       exists x, In x (intersections r) /\
                 cableId x = cable_id c /\ segmentIndex x = seg_idx).
Proof. apply run_crossings. Qed.

Lemma X14_witness :
  check_intersections (H := no_repr) (world_of two_crossings) =
  (Ok two_crossings_result,
   snd (check_intersections (H := no_repr) (world_of two_crossings))) /\
  exists data cables,
    infrastructure_file (world_of two_crossings) = Document data /\
    decode data = Ok cables /\
    (forall x, In x (intersections two_crossings_result) ->
       exists c segs seg traj_idx ts,
         In c cables /\
         nth_error (line_strings c) (segmentIndex x) = Some segs /\
         In seg segs /\
         nth_error trajectory_segments traj_idx = Some ts /\
         segments_intersect ts seg = true /\
         x = crossing c (segmentIndex x) traj_idx) /\
    ((forall c, In c cables -> exists s, cable_id c = JStr s) ->
     forall c seg_idx segs seg ts,
       In c cables -> nth_error (line_strings c) seg_idx = Some segs ->
       In seg segs -> In ts trajectory_segments ->
       segments_intersect ts seg = true ->
       exists x, In x (intersections two_crossings_result) /\
                 cableId x = cable_id c /\ segmentIndex x = seg_idx).
Proof.
  assert (Hrun : check_intersections (H := no_repr) (world_of two_crossings) =
    (Ok two_crossings_result,
     snd (check_intersections (H := no_repr) (world_of two_crossings))))
    by (vm_compute; reflexivity).
  split; [exact Hrun|].
  exact (X14_returned_intersections_are_crossings _ _ _ Hrun).
Defined.



(** X16.  A cable id that is a list or a dict is not hashable: when a
    trajectory point is within 0.05 of a segment of such a cable, building
    the dict of nearby cables raises TypeError -- after the analysis, in
    the report -- and the status of the main block is 1. *)
Theorem X16_unhashable_id_raises `{PyRepr} (w : world) (data : json)
  (cables : list cable) (c : cable) (seg : LineSegment float)
  (traj_point : Point float) :
  infrastructure_file w = Document data ->
  decode data = Ok cables ->
  In c cables -> py_hashable (cable_id c) = false ->
  segment_of c seg -> In traj_point trajectory_points ->
  PrimFloat.ltb (point_to_segment_distance traj_point seg) 0.05 = true ->
  fst (check_intersections w) = Raise TypeError /\ fst (main w) = 1%Z.
Proof. apply run_unhashable. Qed.

Lemma X16_witness :
  fst (check_intersections (H := no_repr) (world_of list_id_cable)) =
  Raise TypeError /\
  fst (main (H := no_repr) (world_of list_id_cable)) = 1%Z.
Proof.
  pose (seg := ((12.0771658, 54.3374597), (13.0, 55.0))%float).
  pose (c := {| cable_name := JStr "Baltic C"; cable_id := JArr [JNum 7];
                line_strings := [[seg]] |}).
  refine (X16_unhashable_id_raises (H := no_repr) (world_of list_id_cable)
            list_id_cable [c] c seg (12.0771658, 54.3374597)%float
            eq_refl _ _ eq_refl _ _ _).
  - vm_compute. reflexivity.
  - now left.
  - exists [seg]. split; now left.
  - now left.
  - vm_compute. reflexivity.
Defined.

(** X17.  Whenever a run returns, each returned nearby record is the first
    detection of its cable, in the order of the loops, that has the least
    distance: every earlier detection of a cable with this id is strictly
    farther, every later one is at least as far. *)
Theorem X17_first_minimum_kept `{PyRepr} (w w' : world) (r : analysis) :
  check_intersections w = (Ok r, w') ->
  exists data cables,
    infrastructure_file w = Document data /\
    decode data = Ok cables /\
    forall x, In x (nearbyCables r) ->
      exists before after,
        flat_map cable_nearby cables = before ++ x :: after /\
        (forall y, In y before -> same_cable (nb_cableId y) (nb_cableId x) ->
           PrimFloat.ltb (minDistance x) (minDistance y) = true) /\
        (forall y, In y after -> same_cable (nb_cableId y) (nb_cableId x) ->
           PrimFloat.leb (minDistance x) (minDistance y) = true).
Proof. apply run_first_minimum. Qed.

Lemma X17_witness :
  check_intersections (H := no_repr) (world_of two_crossings) =
  (Ok two_crossings_result,
   snd (check_intersections (H := no_repr) (world_of two_crossings))) /\
  exists data cables,
    infrastructure_file (world_of two_crossings) = Document data /\
    decode data = Ok cables /\
    forall x, In x (nearbyCables two_crossings_result) ->
      exists before after,
        flat_map cable_nearby cables = before ++ x :: after /\
        (forall y, In y before -> same_cable (nb_cableId y) (nb_cableId x) ->
           PrimFloat.ltb (minDistance x) (minDistance y) = true) /\
        (forall y, In y after -> same_cable (nb_cableId y) (nb_cableId x) ->
           PrimFloat.leb (minDistance x) (minDistance y) = true).
Proof.
  assert (Hrun : check_intersections (H := no_repr) (world_of two_crossings) =
    (Ok two_crossings_result,
     snd (check_intersections (H := no_repr) (world_of two_crossings))))
    by (vm_compute; reflexivity).
  split; [exact Hrun|].
  exact (X17_first_minimum_kept _ _ _ Hrun).
Defined.

(** X18.  A run that fails stops where it fails.  With a missing or a
    malformed file the standard output receives the first line and the
    error message only; when a feature raises -- the first that does, all
    the features before it having been read without an error -- it receives
    the header and the error message, and nothing of what the earlier
    features have found.  In each case the stack trace goes to the standard
    error and the status is 1. *)
Theorem X18_failing_run_output `{PyRepr} (w : world) :
  (infrastructure_file w = Missing ->
   main w = (1%Z, {| infrastructure_file := infrastructure_file w;
                     stdout := stdout w ++ [LChecking] ++
                               [LError FileNotFoundError];
                     stderr := stderr w ++ [LTraceback FileNotFoundError] |})) /\
  (infrastructure_file w = Malformed ->
   main w = (1%Z, {| infrastructure_file := infrastructure_file w;
                     stdout := stdout w ++ [LChecking] ++
                               [LError JSONDecodeError];
                     stderr := stderr w ++ [LTraceback JSONDecodeError] |})) /\
  (forall before feature after st e,
      infrastructure_file w =
        Document (document (before ++ feature :: after)) ->
      for_each check_feature before ([], []) = Ok st ->
      check_feature feature st = Raise e ->
      main w = (1%Z, {| infrastructure_file := infrastructure_file w;
                        stdout := stdout w ++ header_lines ++ [LError e];
                        stderr := stderr w ++ [LTraceback e] |})).
Proof.
  split; [|split].
  - intros F. apply failing_run. now rewrite F.
  - intros F. apply failing_run. now rewrite F.
  - intros before feature after st e F Hb Hf. apply failing_run.
    rewrite F. unfold report.
    now rewrite (analyze_first_failure _ _ _ _ _ Hb Hf).
Qed.
